(** * Teletekst page comparison: a shallow embedding of [compare_pages.py]

    The development follows the Python source function by function.
    Python values are modelled as follows.

    - [str] is [string]; a character is a code point below 256.
    - [int] is [Z].
    - A [dict] that is only looked up and updated ([seen], the word maps,
      the post state) is a [gmap]; a [dict] whose iteration order is
      observable (the flattened snapshot) is an insertion-ordered
      association list, see [Module OrderedDict].
    - An operation that can raise returns [option] (pure code) or runs in
      the monad [Run] (code that talks to the Mastodon server). *)

From Stdlib Require Import ZArith NArith QArith String Ascii List Lia DecimalString
  DecimalPos DecimalZ.
From stdpp Require Import base decidable option list gmap fin_maps strings.

Open Scope string_scope.
Open Scope list_scope.
Open Scope Z_scope.

(** ** Python string primitives *)

Module PyStr.

Definition code (c : ascii) : N := N_of_ascii c.

(** [str.isspace] on one character, which is also the class [\s] of
    [re] for [str] patterns, restricted to code points below 256. *)
Definition isspace (c : ascii) : bool :=
  let n := code c in
  ((9 <=? n) && (n <=? 13) || (28 <=? n) && (n <=? 32)
   || (n =? 133) || (n =? 160))%N.

(** [str.lower] on one character of the Latin-1 range: the capitals
    A to Z and those of 192 to 222, the multiplication sign 215 apart,
    move up by 32. *)
Definition lower_char (c : ascii) : ascii :=
  let n := code c in
  if ((65 <=? n) && (n <=? 90)
      || (192 <=? n) && (n <=? 222) && negb (n =? 215))%N
  then ascii_of_N (n + 32) else c.

(** [s.lower()] for a text of the Latin-1 range, which is what a string
    is here: one character is one code point below 256.  There
    [str.lower] works character by character; the one mapping of
    [str.lower] that looks at the neighbours, the final sigma of Greek,
    lies outside the range, and texts with such letters are not
    covered. *)
Fixpoint lower (s : string) : string :=
  match s with
  | EmptyString => EmptyString
  | String c s' => String (lower_char c) (lower s')
  end.

(** [s.rstrip()]: drop the trailing run of whitespace. *)
Fixpoint rstrip (s : string) : string :=
  match s with
  | EmptyString => EmptyString
  | String c s' =>
      match rstrip s' with
      | EmptyString => if isspace c then EmptyString else String c EmptyString
      | r => String c r
      end
  end.

(** [s.split(sep)] for a one-character separator: never empty. *)
Fixpoint split_on (sep : ascii) (cur : string) (s : string) : list string :=
  match s with
  | EmptyString => [cur]
  | String c s' =>
      if Ascii.eqb c sep then cur :: split_on sep EmptyString s'
      else split_on sep (cur +:+ String c EmptyString) s'
  end.

Definition newline : ascii := ascii_of_N 10.

Definition split_lines (s : string) : list string :=
  split_on newline EmptyString s.

(** [sep.join(l)] *)
Fixpoint join (sep : string) (l : list string) : string :=
  match l with
  | [] => EmptyString
  | [x] => x
  | x :: rest => x +:+ sep +:+ join sep rest
  end.

(** [re.split(r"[\s\.]+", text)]: the pieces between maximal runs of
    whitespace and dots; a run at either end leaves an empty piece. *)
Definition is_word_sep (c : ascii) : bool :=
  isspace c || Ascii.eqb c "."%char.

Fixpoint re_split_words (cur : string) (in_sep : bool) (s : string)
  : list string :=
  match s with
  | EmptyString => [cur]
  | String c s' =>
      if is_word_sep c then
        if in_sep then re_split_words EmptyString true s'
        else cur :: re_split_words EmptyString true s'
      else re_split_words (cur +:+ String c EmptyString) false s'
  end.

(** [str(n)] for an [int]. *)
Definition of_Z (n : Z) : string := NilZero.string_of_int (Z.to_int n).

Definition is_digit (c : ascii) : bool :=
  let n := code c in ((48 <=? n) && (n <=? 57))%N.

End PyStr.

(** ** Exceptions *)

Inductive exn := KeyError | ZeroDivisionError | OverflowError | ValueError.

(** What a function without side effects does: it returns, or it raises
    an exception nobody catches. *)
Inductive answer (A : Type) :=
| Returns (a : A)
| Raises (e : exn).
Arguments Returns {A} a.
Arguments Raises {A} e.

(** ** Division of two [int]s

    [num / den] is the [float] nearest to the exact quotient, a tie going
    to the even significand.  It raises [ZeroDivisionError] when [den] is
    0, and [OverflowError] when the nearest float would lie beyond the
    largest one: the largest float is [2^1024 - 2^971] and its
    significand is odd, so that is the case from [2^1024 - 2^970] on, in
    absolute value. *)
Definition true_divide_overflows (num den : Z) : bool :=
  bool_decide ((2 ^ 1024 - 2 ^ 970) * Z.abs den ≤ Z.abs num).

(** [num / den >= 90] when the division returns.  The float next below
    90.0 is [90 - 2^-46] and the significand of 90.0 is even, so the
    quotient is rounded to 90.0 or more exactly when it is at least
    [90 - 2^-47]. *)
Definition true_divide_ge_90 (num den : Z) : bool :=
  bool_decide ((90 * 2 ^ 47 - 1) * Z.abs den ≤ 2 ^ 47 * (Z.sgn den * num)).

(** ** Word maps and their overlap *)

(** [same * 100 / total >= 90] *)
Definition ratio_ge_90 (same total : Z) : answer bool :=
  let num := same * 100 in
  if decide (total = 0) then Raises ZeroDivisionError
  else if true_divide_overflows num total then Raises OverflowError
  else Returns (true_divide_ge_90 num total).

Definition count_word (result : gmap string Z) (word : string)
  : gmap string Z :=
  let word := PyStr.lower word in
  let result :=
    match result !! word with
    | None => <[word := 0]> result
    | Some _ => result
    end in
  <[word := default 0 (result !! word) + 1]> result.

Definition generate_word_map (text : string) : gmap string Z :=
  foldl count_word ∅ (PyStr.re_split_words EmptyString false text).

(** One turn of either loop of [compare_word_maps]; the accumulator is
    [(total, same)]. *)
Definition overlap_step (other : gmap string Z) (word : string) (count : Z)
  (acc : Z * Z) : Z * Z :=
  let '(total, same) := acc in
  let total := total + count in
  match other !! word with
  | None => (total, same)
  | Some count2 =>
      if decide (count = count2) then (total, same + count)
      else if decide (count < count2) then (total, same + count)
      else (total, same + count2)
  end.

Definition compare_word_maps (map1 map2 : gmap string Z)
  : answer (bool * Z * Z) :=
  let acc := map_fold (overlap_step map2) (0, 0) map1 in
  let '(total, same) := map_fold (overlap_step map1) acc map2 in
  match ratio_ge_90 same total with
  | Returns comparison => Returns (comparison, same, total)
  | Raises e => Raises e
  end.


(** ** Insertion-ordered dictionaries

    A Python [dict] iterates in insertion order.  Assigning to a key that
    is present keeps its position; [del] of an absent key raises
    [KeyError], modelled by [None]. *)

Module OrderedDict.
Section ordered_dict.
Context {K V : Type} `{EqDecision K}.

Fixpoint get (k : K) (d : list (K * V)) : option V :=
  match d with
  | [] => None
  | (k', v) :: rest => if decide (k = k') then Some v else get k rest
  end.

Fixpoint set (k : K) (v : V) (d : list (K * V)) : list (K * V) :=
  match d with
  | [] => [(k, v)]
  | (k', v') :: rest =>
      if decide (k = k') then (k', v) :: rest else (k', v') :: set k v rest
  end.

Fixpoint del (k : K) (d : list (K * V)) : option (list (K * V)) :=
  match d with
  | [] => None
  | (k', v') :: rest =>
      if decide (k = k') then Some rest
      else match del k rest with
           | Some rest' => Some ((k', v') :: rest')
           | None => None
           end
  end.

Definition keys (d : list (K * V)) : list K := map fst d.
End ordered_dict.
End OrderedDict.

Abbreviation odict K V := (list (K * V)).

(** A loop whose body can raise. *)
Fixpoint fold_raise {S A : Type} (body : S -> A -> option S) (s : S)
  (l : list A) : option S :=
  match l with
  | [] => Some s
  | x :: rest =>
      match body s x with
      | Some s' => fold_raise body s' rest
      | None => None
      end
  end.

(** ** Snapshot normalizer *)

(** One 4-element entry of a snapshot file, as [walk_pages.py] writes it. *)
Record entry := Entry {
  entry_title : string;      (* entry[0] *)
  entry_pagenr : Z;          (* entry[1] *)
  entry_lines : list string; (* entry[2] *)
  entry_raw : string         (* entry[3] *)
}.

(** The value stored per page number by [normalize_data]. *)
Record page := Page {
  title : string;
  text : string;
  raw : string
}.

Definition page_of_entry (e : entry) : page :=
  {| title := entry_title e;
     text := PyStr.join (String PyStr.newline EmptyString) (entry_lines e);
     raw := entry_raw e |}.

(** The body of the inner loop of [normalize_data] on [(result, seen)]. *)
Definition normalize_entry (st : odict Z page * gmap string Z) (e : entry)
  : option (odict Z page * gmap string Z) :=
  let '(result, seen) := st in
  let title := entry_title e in
  let pagenr := entry_pagenr e in
  match seen !! title with
  | Some old =>
      if decide (old < pagenr) then Some (result, seen)
      else
        (* use the lowest pagenr, if we have dupes *)
        match OrderedDict.del old result with
        | None => None
        | Some result =>
            let seen := delete title seen in
            Some (OrderedDict.set pagenr (page_of_entry e) result,
                  <[title := pagenr]> seen)
        end
  | None =>
      Some (OrderedDict.set pagenr (page_of_entry e) result,
            <[title := pagenr]> seen)
  end.

Definition normalize_group (st : odict Z page * gmap string Z)
  (group : string * list entry) : option (odict Z page * gmap string Z) :=
  fold_raise normalize_entry st (snd group).

(** [data] is the parsed snapshot: index page to list of entries. *)
Definition normalize_data (data : odict string (list entry))
  : option (odict Z page) :=
  fst <$> fold_raise normalize_group ([], ∅) data.

(** ** Fuzzy matcher *)

Record options := Options {
  opt_prev : string;
  opt_next : string;
  opt_post : bool;
  opt_server : option string;
  opt_token : option string;
  opt_debug : bool;
  opt_dryrun : bool
}.

(** [re.match(r"Kort nieuws (binnen|buiten)land", title)] *)
Definition kort_nieuws (title : string) : bool :=
  String.prefix "Kort nieuws binnenland" title
  || String.prefix "Kort nieuws buitenland" title.

(** [if not map1: map1 = generate_word_map(...)]: [None] and the empty
    dictionary are both false. *)
Definition word_map_when_needed (map1 : option (gmap string Z))
  (data : page) : gmap string Z :=
  match map1 with
  | Some m => if decide (m = ∅) then generate_word_map (text data) else m
  | None => generate_word_map (text data)
  end.

(** The loop of [find_matching_page] over [page_map.items()]; an
    exception of [compare_word_maps] ends it. *)
Fixpoint find_matching_loop (data : page) (map1 : option (gmap string Z))
  (items : odict Z page) : answer (option Z) :=
  match items with
  | [] => Returns None
  | (pagenr, pagedata) :: rest =>
      if bool_decide (title pagedata = title data)
         && negb (kort_nieuws (title data))
      then
        (* Take a chance, but not for the two Kort nieuws pages. *)
        Returns (Some pagenr)
      else
        let map1 := word_map_when_needed map1 data in
        let map2 := generate_word_map (text pagedata) in
        match compare_word_maps map1 map2 with
        | Raises e => Raises e
        | Returns (comparison, overlap, total) =>
            if comparison then Returns (Some pagenr)
            else find_matching_loop data (Some map1) rest
        end
  end.

Definition find_matching_page (opts : options) (data : page)
  (page_map : odict Z page) : answer (option Z) :=
  find_matching_loop data None page_map.

(** ** Diff generator *)

Fixpoint remove_extra_loop (do_add : bool) (result : list string)
  (lines : list string) : list string :=
  match lines with
  | [] => result
  | line :: rest =>
      let line := PyStr.rstrip line in
      let do_add :=
        if negb do_add then
          if (0 <? String.length line)%nat then true else do_add
        else do_add in
      let result := if do_add then result ++ [line] else result in
      remove_extra_loop do_add result rest
  end.

Definition remove_extra_spaces (lines : list string) : list string :=
  let lines := rev lines in
  rev (remove_extra_loop false [] lines).

Fixpoint strip_prefix (p s : string) : option string :=
  match p, s with
  | EmptyString, _ => Some s
  | String a p', String b s' => if Ascii.eqb a b then strip_prefix p' s' else None
  | String _ _, EmptyString => None
  end.

Fixpoint take_digits (n : nat) (s : string) : option (string * string) :=
  match n, s with
  | O, _ => Some (EmptyString, s)
  | S n', String c s' =>
      if PyStr.is_digit c then
        '(d, r) ← take_digits n' s'; Some (String c d, r)
      else None
  | S _, EmptyString => None
  end.

(** [re.match(r"pages/(\d{4})(\d\d)(\d\d)-(\d\d)(\d\d)(\d\d)\.json", filename)] *)
Definition timestamp_groups (filename : string)
  : option (string * string * string * string * string) :=
  s ← strip_prefix "pages/" filename;
  '(g1, s) ← take_digits 4 s;
  '(g2, s) ← take_digits 2 s;
  '(g3, s) ← take_digits 2 s;
  s ← strip_prefix "-" s;
  '(g4, s) ← take_digits 2 s;
  '(g5, s) ← take_digits 2 s;
  '(g6, s) ← take_digits 2 s;
  _ ← strip_prefix ".json" s;
  Some (g1, g2, g3, g4, g5).

Definition create_timestamp (filename : string) : string :=
  match timestamp_groups filename with
  | None => "0000-00-00 00:00"
  | Some (g1, g2, g3, g4, g5) =>
      g1 +:+ "-" +:+ g2 +:+ "-" +:+ g3 +:+ " " +:+ g4 +:+ ":" +:+ g5
  end.

(** The part of CPython's [difflib] that [generate_diff] runs through.
    The longest-matching-block search of [SequenceMatcher] is a parameter
    ([get_matching_blocks]); what is built on it is modelled here:
    [get_opcodes], [get_grouped_opcodes] and [unified_diff]. *)
Module Difflib.

Inductive tag := Replace | Delete | Insert | Equal.

Global Instance tag_eq_dec : EqDecision tag.
Proof. solve_decision. Defined.

Definition opcode : Type := tag * Z * Z * Z * Z.

Definition matcher := list string -> list string -> list (Z * Z * Z).

(** [a[i1:i2]] for indices that are not negative. *)
Definition slice {A} (l : list A) (i1 i2 : Z) : list A :=
  take (Z.to_nat i2 - Z.to_nat i1)%nat (drop (Z.to_nat i1) l).

Fixpoint opcodes_loop (i j : Z) (blocks : list (Z * Z * Z)) : list opcode :=
  match blocks with
  | [] => []
  | (ai, bj, size) :: rest =>
      let change :=
        if decide (i < ai ∧ j < bj) then [(Replace, i, ai, j, bj)]
        else if decide (i < ai) then [(Delete, i, ai, j, bj)]
        else if decide (j < bj) then [(Insert, i, ai, j, bj)]
        else [] in
      let i' := ai + size in
      let j' := bj + size in
      let same :=
        if decide (size = 0) then [] else [(Equal, ai, i', bj, j')] in
      change ++ same ++ opcodes_loop i' j' rest
  end.

Definition get_opcodes (blocks : list (Z * Z * Z)) : list opcode :=
  opcodes_loop 0 0 blocks.

Definition fix_first (n : Z) (codes : list opcode) : list opcode :=
  match codes with
  | (Equal, i1, i2, j1, j2) :: rest =>
      (Equal, Z.max i1 (i2 - n), i2, Z.max j1 (j2 - n), j2) :: rest
  | _ => codes
  end.

Definition fix_last (n : Z) (codes : list opcode) : list opcode :=
  match last codes with
  | Some (Equal, i1, i2, j1, j2) =>
      removelast codes ++ [(Equal, i1, Z.min i2 (i1 + n), j1, Z.min j2 (j1 + n))]
  | _ => codes
  end.

Definition only_equal (group : list opcode) : bool :=
  match group with
  | [(Equal, _, _, _, _)] => true
  | _ => false
  end.

Fixpoint grouping_loop (n : Z) (group : list opcode) (codes : list opcode)
  : list (list opcode) :=
  match codes with
  | [] =>
      match group with
      | [] => []
      | _ => if only_equal group then [] else [group]
      end
  | (tag, i1, i2, j1, j2) :: rest =>
      if bool_decide (tag = Equal) && (n + n <? i2 - i1) then
        (group ++ [(tag, i1, Z.min i2 (i1 + n), j1, Z.min j2 (j1 + n))])
        :: grouping_loop n
             [(tag, Z.max i1 (i2 - n), i2, Z.max j1 (j2 - n), j2)] rest
      else grouping_loop n (group ++ [(tag, i1, i2, j1, j2)]) rest
  end.

Definition get_grouped_opcodes (n : Z) (codes : list opcode)
  : list (list opcode) :=
  let codes := match codes with [] => [(Equal, 0, 1, 0, 1)] | _ => codes end in
  let codes := fix_first n codes in
  let codes := fix_last n codes in
  grouping_loop n [] codes.

Definition format_range_unified (start stop : Z) : string :=
  let beginning := start + 1 in
  let length := stop - start in
  if decide (length = 1) then PyStr.of_Z beginning
  else
    let beginning := if decide (length = 0) then beginning - 1 else beginning in
    PyStr.of_Z beginning +:+ "," +:+ PyStr.of_Z length.

Definition opcode_lines (a b : list string) (c : opcode) : list string :=
  let '(tag, i1, i2, j1, j2) := c in
  match tag with
  | Equal => map (String.append " ") (slice a i1 i2)
  | Replace =>
      map (String.append "-") (slice a i1 i2)
      ++ map (String.append "+") (slice b j1 j2)
  | Delete => map (String.append "-") (slice a i1 i2)
  | Insert => map (String.append "+") (slice b j1 j2)
  end.

Definition hunk_lines (a b : list string) (lineterm : string)
  (group : list opcode) : list string :=
  match group, last group with
  | (_, f1, _, f3, _) :: _, Some (_, _, l2, _, l4) =>
      ("@@ -" +:+ format_range_unified f1 l2 +:+ " +"
       +:+ format_range_unified f3 l4 +:+ " @@" +:+ lineterm)
      :: flat_map (opcode_lines a b) group
  | _, _ => []
  end.

Definition tab : string := String (ascii_of_N 9) EmptyString.

(** The lines [unified_diff] yields for the groups it iterates over. *)
Definition unified_lines (a b : list string)
  (fromfile tofile fromfiledate tofiledate lineterm : string)
  (groups : list (list opcode)) : list string :=
  match groups with
  | [] => []
  | _ =>
      let fromdate :=
        if decide (fromfiledate = EmptyString) then EmptyString
        else tab +:+ fromfiledate in
      let todate :=
        if decide (tofiledate = EmptyString) then EmptyString
        else tab +:+ tofiledate in
      ("--- " +:+ fromfile +:+ fromdate +:+ lineterm)
      :: ("+++ " +:+ tofile +:+ todate +:+ lineterm)
      :: flat_map (hunk_lines a b lineterm) groups
  end.

Definition unified_diff (get_matching_blocks : matcher) (a b : list string)
  (fromfile tofile fromfiledate tofiledate : string) (n : Z)
  (lineterm : string) : list string :=
  unified_lines a b fromfile tofile fromfiledate tofiledate lineterm
    (get_grouped_opcodes n (get_opcodes (get_matching_blocks a b))).

(** What [SequenceMatcher] finds for two equal sequences: one block
    over everything (none when they are empty) and the closing
    sentinel of length 0. *)
Definition matches_identical (get_matching_blocks : matcher) : Prop :=
  ∀ a : list string,
    get_matching_blocks a a =
      let n := Z.of_nat (length a) in
      (if decide (n = 0) then [] else [(0, 0, n)]) ++ [(n, n, 0)].

(** The number of lines of [a] an opcode spans. *)
Definition span (c : opcode) : Z :=
  let '(_, i1, i2, _, _) := c in i2 - i1.

Definition is_equal (c : opcode) : bool :=
  let '(tag, _, _, _, _) := c in bool_decide (tag = Equal).

End Difflib.

(** Code outside this repository that the program calls: the block
    matcher of [difflib]; [imgkit] behind [render_teletekst], which gives
    the bytes of the file written under the name it is passed; and [PIL]
    behind [generate_diff_attachment], which gives the bytes of the
    picture drawn from the diff. *)
Record externals := Externals {
  get_matching_blocks : Difflib.matcher;
  render_teletekst : string -> string -> string;
  diff_image : string -> string
}.

Definition nl : string := String PyStr.newline EmptyString.

Definition generate_diff (X : externals) (opts : options)
  (text1 text2 : string) : string :=
  let list1 := remove_extra_spaces (PyStr.split_lines text1) in
  let list2 := remove_extra_spaces (PyStr.split_lines text2) in
  let udiff :=
    PyStr.join nl
      (Difflib.unified_diff (get_matching_blocks X) list1 list2
         "Vorige versie" "Huidige versie"
         (create_timestamp (opt_prev opts))
         (create_timestamp (opt_next opts))
         1 EmptyString) in
  udiff.

(** ** Post-state store *)

(** A page number as the callers pass it: an [int], or the [str] it
    becomes as a key of the persisted file. *)
Inductive pagekey := KInt (n : Z) | KStr (s : string).

(** [str(pagenr)] *)
Definition py_str (pagenr : pagekey) : string :=
  match pagenr with
  | KInt n => PyStr.of_Z n
  | KStr s => s
  end.

Definition get_state (state : gmap string (gmap string string))
  (title : string) (pagenr : pagekey) : option string :=
  let pagenr := py_str pagenr in
  match state !! title with
  | Some inner =>
      match inner !! pagenr with
      | Some post_id => Some post_id
      | None => None
      end
  | None => None
  end.

Definition clear_state (state : gmap string (gmap string string))
  (title : string) (pagenr : pagekey) : gmap string (gmap string string) :=
  let pagenr := py_str pagenr in
  match state !! title with
  | Some inner =>
      match inner !! pagenr with
      | Some _ =>
          let inner := delete pagenr inner in
          let state := <[title := inner]> state in
          if decide (size inner = 0%nat) then delete title state else state
      | None => state
      end
  | None => state
  end.

Definition set_state (state : gmap string (gmap string string))
  (title : string) (pagenr : pagekey) (post_id : string)
  : gmap string (gmap string string) :=
  let pagenr := py_str pagenr in
  let state :=
    match state !! title with
    | None => <[title := ∅]> state
    | Some _ => state
    end in
  <[title := <[pagenr := post_id]> (default ∅ (state !! title))]> state.

(** ** Talking to the Mastodon server

    A run threads the list of HTTP calls made so far and the content of
    the state file.  It ends with a value, with [sys.exit(code)] or with
    an exception nobody catches.  The server is a function of the calls
    it has seen and of the request.  Output on stdout is not modelled,
    the diagnostics of [--debug] included; [main] returns the three
    report lists it prints. *)

Inductive field := Text (s : string) | File (name data : string).

Record request := Request {
  req_method : string;
  req_url : string;
  req_headers : list (string * string);
  req_fields : list (string * field)
}.

(** What [json.loads(result.data)] gives, as far as the program looks:
    the keys ['id'] and ['media_attachments'] when present, and per
    attachment its ['id']. *)
Record reply_json := ReplyJson {
  json_id : option string;
  json_media_attachments : option (list (option string))
}.

(** [data] is [None] when the body is not JSON. *)
Record response := Response {
  status : Z;
  data : option reply_json
}.

Record world := World {
  calls : list (request * response);
  state_file : option (gmap string (gmap string string))
}.

Definition server := list (request * response) -> request -> response.

Inductive outcome (A : Type) :=
| Ok (a : A)
| Exit (code : Z)
| Raise (e : exn).
Arguments Ok {A} a.
Arguments Exit {A} code.
Arguments Raise {A} e.

Definition Run (A : Type) : Type := server -> world -> world * outcome A.

Global Instance run_ret : MRet Run := λ A a _ w, (w, Ok a).

Global Instance run_bind : MBind Run := λ A B f m srv w,
  match m srv w with
  | (w', Ok a) => f a srv w'
  | (w', Exit code) => (w', Exit code)
  | (w', Raise e) => (w', Raise e)
  end.

Definition sys_exit {A} (code : Z) : Run A := λ _ w, (w, Exit code).

Definition raise {A} (e : exn) : Run A := λ _ w, (w, Raise e).

Definition or_raise {A} (e : exn) (o : option A) : Run A :=
  match o with
  | Some a => mret a
  | None => raise e
  end.

(** A function without side effects, called in a run. *)
Definition run_pure {A} (r : answer A) : Run A :=
  match r with
  | Returns a => mret a
  | Raises e => raise e
  end.

(** [http.request(method, url, headers=..., fields=...)] *)
Definition http_request (method url : string)
  (headers : list (string * string)) (fields : list (string * field))
  : Run response := λ srv w,
  let req := Request method url headers fields in
  let result := srv (calls w) req in
  ({| calls := calls w ++ [(req, result)]; state_file := state_file w |},
   Ok result).

Fixpoint fold_run {S A : Type} (body : S -> A -> Run S) (s : S) (l : list A)
  : Run S :=
  match l with
  | [] => mret s
  | x :: rest => s' ← body s x; fold_run body s' rest
  end.

(** [load_post_state]: a missing file is the empty state. *)
Definition load_post_state : Run (gmap string (gmap string string)) :=
  λ _ w, (w, Ok (default ∅ (state_file w))).

Definition save_post_state (state : gmap string (gmap string string))
  : Run unit :=
  λ _ w, ({| calls := calls w; state_file := Some state |}, Ok tt).

(** [str(x)] of a value that is [None] or a [str]. *)
Definition fmt (x : option string) : string :=
  match x with
  | None => "None"
  | Some s => s
  end.

(** Truth value of a value that is [None] or a [str]. *)
Definition truthy (x : option string) : bool :=
  match x with
  | None => false
  | Some s => negb (bool_decide (s = EmptyString))
  end.

Definition auth_headers (opts_token : option string)
  : list (string * string) :=
  if truthy opts_token then [("Authorization", "Bearer " +:+ fmt opts_token)]
  else [].

Definition api (opts_server : option string) (path : string) : string :=
  "https://" +:+ fmt opts_server +:+ path.

(** [json.loads(result.data)] *)
Definition json_loads (result : response) : Run reply_json :=
  or_raise ValueError (data result).

(** [json.loads(result.data)['id']] *)
Definition json_loads_id (result : response) : Run string :=
  json_data ← json_loads result;
  or_raise KeyError (json_id json_data).

(** ** The posting functions *)

Definition status_text (pagenr : Z) (title : string) : string :=
  "[" +:+ PyStr.of_Z pagenr +:+ "] " +:+ title +:+ nl
  +:+ "https://nos.nl/teletekst/" +:+ PyStr.of_Z pagenr +:+ " #teletekst".

Definition media_fields (media_ids : list string) : list (string * field) :=
  map (λ media_id, ("media_ids[]", Text media_id)) media_ids.

Definition generate_diff_attachment (X : externals) (opts : options)
  (auth : list (string * string)) (text timestamp : string) : Run string :=
  let img_data := diff_image X text in
  result ← http_request "POST" (api (opt_server opts) "/api/v2/media") auth
             [("file", File "tt/diff.png" img_data);
              ("description", Text ("[" +:+ timestamp +:+ "]" +:+ nl +:+ nl +:+ text));
              ("focus", Text "0.0,1.0")];
  if decide (400 ≤ status result) then sys_exit 1
  else json_loads_id result.

Definition generate_attachment (X : externals) (opts : options)
  (auth : list (string * string)) (pagenr : Z)
  (raw_content text_content timestamp : string) : Run string :=
  let file_name := "tt/tt" +:+ PyStr.of_Z pagenr +:+ ".png" in
  let file_data := render_teletekst X file_name raw_content in
  result ← http_request "POST" (api (opt_server opts) "/api/v2/media") auth
             [("file", File file_name file_data);
              ("description",
               Text ("[" +:+ timestamp +:+ "]" +:+ nl +:+ nl +:+ text_content))];
  if decide (400 ≤ status result) then sys_exit 1
  else json_loads_id result.

Definition create_post (X : externals) (opts : options)
  (auth : list (string * string)) (title : string) (pagenr : Z)
  (raw_content text_content timestamp : string) : Run (string * string) :=
  media_id ← generate_attachment X opts auth pagenr raw_content text_content
               timestamp;
  result ← http_request "POST" (api (opt_server opts) "/api/v1/statuses") auth
             [("status", Text (status_text pagenr title));
              ("media_ids[]", Text media_id);
              ("language", Text "nl")];
  post_id ← json_loads_id result;
  mret (media_id, post_id).

Definition get_media_data (opts : options) (auth : list (string * string))
  (post_id : option string) : Run (list string) :=
  result ← http_request "GET"
             (api (opt_server opts) ("/api/v1/statuses/" +:+ fmt post_id))
             auth [];
  json_data ← json_loads result;
  match json_media_attachments json_data with
  | None => mret []
  | Some media_data =>
      fold_run (λ media_ids entry,
                  entry_id ← or_raise KeyError entry;
                  mret (media_ids ++ [entry_id]))
        [] media_data
  end.

Definition create_update (X : externals) (opts : options)
  (auth : list (string * string)) (post_id : string)
  (old_pagenr : Z) (old_pagedata : page)
  (new_pagenr : Z) (new_pagedata : page) (timestamp : string)
  : Run (string * Z) :=
  if decide (text old_pagedata = text new_pagedata) then
    media_ids ← get_media_data opts auth (Some post_id);
    let fields :=
      [("status", Text (status_text new_pagenr (title new_pagedata)));
       ("language", Text "nl")] ++ media_fields media_ids in
    result ← http_request "PUT"
               (api (opt_server opts) ("/api/v1/statuses/" +:+ post_id))
               auth fields;
    mret (post_id, status result)
  else
    id1 ← generate_attachment X opts auth new_pagenr (raw new_pagedata)
            (text new_pagedata) timestamp;
    id2 ← generate_diff_attachment X opts auth
            (generate_diff X opts (text old_pagedata) (text new_pagedata))
            timestamp;
    let media_ids := [id1; id2] in
    let fields :=
      [("status", Text (status_text new_pagenr (title new_pagedata)));
       ("language", Text "nl");
       ("in_reply_to_id", Text post_id)] ++ media_fields media_ids in
    result ← http_request "POST" (api (opt_server opts) "/api/v1/statuses")
               auth fields;
    post_id ← json_loads_id result;
    mret (post_id, status result).

Definition mark_deleted (opts : options) (auth : list (string * string))
  (post_id : option string) (title : string) : Run Z :=
  media_ids ← get_media_data opts auth post_id;
  let fields :=
    [("status", Text ("[Verwijderd] " +:+ title +:+ nl +:+ "#teletekst"));
     ("language", Text "nl")] ++ media_fields media_ids in
  result ← http_request "PUT"
             (api (opt_server opts) ("/api/v1/statuses/" +:+ fmt post_id))
             auth fields;
  mret (status result).

(** ** Reconciler *)

(** The variables the first loop of [main] changes. *)
Record loop_state := LoopState {
  ls_state : gmap string (gmap string string);
  ls_next : odict Z page;
  ls_alt : list string;
  ls_del : list string
}.

Record report := Report {
  pages_del : list string;
  pages_new : list string;
  pages_alt : list string
}.

(** [not pagenr_match]: [None] and [0] are both false. *)
Definition no_match (pagenr_match : option Z) : bool :=
  match pagenr_match with
  | None => true
  | Some n => bool_decide (n = 0)
  end.

Definition deleted_line (pagenr : Z) (pagedata : page)
  (post_id : option string) (result_status : string) : string :=
  "#" +:+ PyStr.of_Z pagenr +:+ " '" +:+ title pagedata +:+ "' - Post ID "
  +:+ fmt post_id +:+ " (" +:+ result_status +:+ ")".

Definition changed_line (X : externals) (opts : options) (pagenr : Z)
  (pagedata : page) (pagenr_match : Z) (new_pagedata : page)
  (post_id : option string) (result_status : string) : string :=
  let sect_pagenr :=
    if decide (pagenr = pagenr_match) then "#" +:+ PyStr.of_Z pagenr
    else "#" +:+ PyStr.of_Z pagenr +:+ " -> " +:+ PyStr.of_Z pagenr_match in
  let sect_title := "'" +:+ title pagedata +:+ "'" in
  let '(sect_changed, sect_title_extra) :=
    if decide (title pagedata = title new_pagedata) then ([], EmptyString)
    else (["title"], " ('" +:+ title new_pagedata +:+ "')") in
  let '(sect_changed, sect_content) :=
    if decide (text pagedata = text new_pagedata)
    then (sect_changed, EmptyString)
    else (sect_changed ++ ["content"],
          ":" +:+ nl +:+ nl
          +:+ generate_diff X opts (text pagedata) (text new_pagedata)
          +:+ nl) in
  let sect_changes :=
    if (0 <? length sect_changed)%nat
    then " " +:+ PyStr.join " & " sect_changed +:+ " changed"
    else EmptyString in
  let sect_post :=
    if truthy post_id
    then "Post ID: " +:+ fmt post_id +:+ " " +:+ result_status
    else "Post ID <unknown> " +:+ result_status in
  sect_pagenr +:+ " " +:+ sect_title +:+ sect_changes +:+ sect_title_extra
  +:+ " " +:+ sect_post +:+ sect_content.

Definition new_line_posted (pagenr : Z) (pagedata : page)
  (media_id post_id : string) : string :=
  "#" +:+ PyStr.of_Z pagenr +:+ " '" +:+ title pagedata +:+ " - Media ID "
  +:+ media_id +:+ "; Post ID " +:+ post_id.

Definition new_line (pagenr : Z) (pagedata : page) : string :=
  "#" +:+ PyStr.of_Z pagenr +:+ " '" +:+ title pagedata.

(** The branch of the first loop for a page that has left the building. *)
Definition reconcile_deleted (opts : options) (auth : list (string * string))
  (ls : loop_state) (pagenr : Z) (pagedata : page) : Run loop_state :=
  let state := ls_state ls in
  let post_id := get_state state (title pagedata) (KInt pagenr) in
  '(result_status, state) ←
    (if opt_dryrun opts then mret ("<unknown>", state)
     else
       result_status ← mark_deleted opts auth post_id (title pagedata);
       mret (PyStr.of_Z result_status,
             clear_state state (title pagedata) (KInt pagenr)));
  mret {| ls_state := state;
          ls_next := ls_next ls;
          ls_alt := ls_alt ls;
          ls_del := ls_del ls
                    ++ [deleted_line pagenr pagedata post_id result_status] |}.

(** The branch of the first loop for a page that changed. *)
Definition reconcile_changed (X : externals) (opts : options)
  (auth : list (string * string)) (ls : loop_state) (pagenr : Z)
  (pagedata : page) (pagenr_match : Z) (new_pagedata : page)
  : Run loop_state :=
  let state := ls_state ls in
  let result_status := "<?>" in
  let post_id := get_state state (title pagedata) (KInt pagenr) in
  '(post_id, result_status, state) ←
    (if truthy post_id then
       if opt_dryrun opts then mret (post_id, "<unknown>", state)
       else
         '(post_id, result_status) ←
           create_update X opts auth (fmt post_id) pagenr pagedata
             pagenr_match new_pagedata (create_timestamp (opt_next opts));
         let state := clear_state state (title pagedata) (KInt pagenr) in
         let state :=
           set_state state (title new_pagedata) (KInt pagenr_match) post_id in
         mret (Some post_id, PyStr.of_Z result_status, state)
     else
       if opt_dryrun opts then mret (Some "<unknown>", result_status, state)
       else
         '(media_id, post_id) ←
           create_post X opts auth (title new_pagedata) pagenr_match
             (raw new_pagedata) (text new_pagedata)
             (create_timestamp (opt_next opts));
         let state :=
           set_state state (title new_pagedata) (KInt pagenr_match) post_id in
         mret (Some post_id, result_status, state));
  next_list ← or_raise KeyError (OrderedDict.del pagenr_match (ls_next ls));
  mret {| ls_state := state;
          ls_next := next_list;
          ls_alt := ls_alt ls
                    ++ [changed_line X opts pagenr pagedata pagenr_match
                          new_pagedata post_id result_status];
          ls_del := ls_del ls |}.

(** The body of the loop over [prev_list.items()]. *)
Definition reconcile_prev (X : externals) (opts : options)
  (auth : list (string * string)) (ls : loop_state) (item : Z * page)
  : Run loop_state :=
  let '(pagenr, pagedata) := item in
  pagenr_match ← run_pure (find_matching_page opts pagedata (ls_next ls));
  if no_match pagenr_match then
    reconcile_deleted opts auth ls pagenr pagedata
  else
    let pagenr_match := default 0 pagenr_match in
    new_pagedata ← or_raise KeyError
                     (OrderedDict.get pagenr_match (ls_next ls));
    if bool_decide (pagenr = pagenr_match)
       && bool_decide (title pagedata = title new_pagedata)
       && bool_decide (text pagedata = text new_pagedata)
    then
      (* Same page, same title, same content *)
      next_list ← or_raise KeyError (OrderedDict.del pagenr_match (ls_next ls));
      mret {| ls_state := ls_state ls;
              ls_next := next_list;
              ls_alt := ls_alt ls;
              ls_del := ls_del ls |}
    else
      reconcile_changed X opts auth ls pagenr pagedata pagenr_match
        new_pagedata.

(** The body of the loop over what is left of [next_list]. *)
Definition reconcile_new (X : externals) (opts : options)
  (auth : list (string * string))
  (acc : gmap string (gmap string string) * list string) (item : Z * page)
  : Run (gmap string (gmap string string) * list string) :=
  let '(state, pages_new) := acc in
  let '(pagenr, pagedata) := item in
  if opt_post opts then
    '(media_id, post_id, state) ←
      (if opt_dryrun opts then mret ("<unknown>", "<unknown>", state)
       else
         '(media_id, post_id) ←
           create_post X opts auth (title pagedata) pagenr (raw pagedata)
             (text pagedata) (create_timestamp (opt_next opts));
         mret (media_id, post_id,
               set_state state (title pagedata) (KInt pagenr) post_id));
    mret (state,
          pages_new ++ [new_line_posted pagenr pagedata media_id post_id])
  else mret (state, pages_new ++ [new_line pagenr pagedata]).

(** [main] after [parse_options] and after the two snapshot files have
    been read: it loads the state, reconciles and saves the state. *)
Definition main (X : externals) (opts : options)
  (prev_json next_json : odict string (list entry)) : Run report :=
  state ← load_post_state;
  let auth := auth_headers (opt_token opts) in
  prev_list ← or_raise KeyError (normalize_data prev_json);
  next_list ← or_raise KeyError (normalize_data next_json);
  ls ← fold_run (reconcile_prev X opts auth)
         {| ls_state := state; ls_next := next_list;
            ls_alt := []; ls_del := [] |}
         prev_list;
  '(state, pages_new) ← fold_run (reconcile_new X opts auth)
                           (ls_state ls, []) (ls_next ls);
  save_post_state state;;
  mret {| pages_del := ls_del ls;
          pages_new := pages_new;
          pages_alt := ls_alt ls |}.

(** ** Drawing the diff

    What the loop of [generate_diff_attachment] does to one line of the
    diff before it draws it: the tabs are expanded, the colour is chosen
    and an empty line becomes one space.  The drawing itself is outside
    the model. *)

Definition TAB_SIZE : Z := 4.

Definition is_tab (c : ascii) : bool := Ascii.eqb c (ascii_of_N 9).

(** The text before the first tab and the text after it. *)
Fixpoint split_at_tab (s : string) : option (string * string) :=
  match s with
  | EmptyString => None
  | String c s' =>
      if is_tab c then Some (EmptyString, s')
      else '(before, after) ← split_at_tab s'; Some (String c before, after)
  end.

(** What the dot-star of a pattern matches at the start of a string:
    the text up to the first newline. *)
Fixpoint until_newline (s : string) : string :=
  match s with
  | EmptyString => EmptyString
  | String c s' =>
      if Ascii.eqb c PyStr.newline then EmptyString
      else String c (until_newline s')
  end.

(** [tab_m = re.match(...)]: a run of one or more characters other than
    a tab, a tab, and the rest as far as dot-star goes.  The two groups,
    when the line matches. *)
Definition tab_m (line : string) : option (string * string) :=
  '(group1, rest) ← split_at_tab line;
  if decide (group1 = EmptyString) then None
  else Some (group1, until_newline rest).

(** The [while True] loop over one line; [None] when the fuel runs
    out. *)
Fixpoint expand_tabs (fuel : nat) (line : string) : option string :=
  match fuel with
  | O => None
  | S fuel =>
      match tab_m line with
      | None => Some line
      | Some (group1, group2) =>
          let tab_len := Z.of_nat (String.length group1) in
          let tab_len :=
            if decide (tab_len `mod` TAB_SIZE = 0) then TAB_SIZE
            else TAB_SIZE - tab_len `mod` TAB_SIZE in
          expand_tabs fuel
            (group1 +:+ substring 0 (Z.to_nat tab_len) "        "
             +:+ group2)
      end
  end.

Definition line_color (line : string) : string :=
  if String.prefix "--- " line || String.prefix "+++ " line then "yellow"
  else if String.prefix "@@ " line then "white"
  else if String.prefix "+ " line then "green"
  else if String.prefix "- " line then "red"
  else "cyan".

(** ** Options

    [parse_options].  What [argparse] makes of the command line is an
    input: [parser.parse_args()] returns the namespace of the options, or
    it ends the run itself, with status 2 on a command line it rejects
    (an unknown option, no [--state]) and with status 0 after [--help].
    The files [parse_options] touches are a map from path to text; a path
    that is not in the map cannot be opened ([IOError]), and [os.unlink]
    of a file that was just read succeeds.  The text of a file is what
    Python hands out in text mode, newlines translated. *)

Record arguments := Arguments {
  arg_compare : option string;
  arg_prev : option string;
  arg_next : option string;
  arg_post : bool;
  arg_server : option string;
  arg_token : option string;
  arg_debug : bool;
  arg_dryrun : bool
}.

(** [f.readline()]: the line with its newline, and what is left to
    read. *)
Fixpoint readline (s : string) : string * string :=
  match s with
  | EmptyString => (EmptyString, EmptyString)
  | String c s' =>
      if Ascii.eqb c PyStr.newline then (String c EmptyString, s')
      else let '(line, rest) := readline s' in (String c line, rest)
  end.

Fixpoint lstrip (s : string) : string :=
  match s with
  | EmptyString => EmptyString
  | String c s' => if PyStr.isspace c then lstrip s' else s
  end.

(** [s.strip()] *)
Definition strip (s : string) : string := lstrip (PyStr.rstrip s).

(** The first part of [parse_options]: where the two paths come from. *)
Definition parse_compare (args : arguments) (files : gmap string string)
  : gmap string string * outcome (option string * option string) :=
  if truthy (arg_compare args) then
    match files !! fmt (arg_compare args) with
    | Some content =>
        let '(line1, rest) := readline content in
        let '(line2, _) := readline rest in
        (delete (fmt (arg_compare args)) files,
         Ok (Some (strip line1), Some (strip line2)))
    | None => (files, Exit 0)
    end
  else if negb (truthy (arg_prev args)) || negb (truthy (arg_next args))
  then (files, Exit 1)
  else (files, Ok (arg_prev args, arg_next args)).

(** The second part: what [--post] needs. *)
Definition parse_post (args : arguments) (files : gmap string string)
  : outcome (option string) :=
  if arg_post args then
    if negb (truthy (arg_server args)) || negb (truthy (arg_token args))
    then Exit 1
    else
      match fmt (arg_token args) with
      | String "@" path =>
          match files !! path with
          | Some content => Ok (Some (strip content))
          | None => Exit 1
          end
      | _ => Ok (arg_token args)
      end
  else Ok (arg_token args).

(** [parse_args] is the outcome of [opts = parser.parse_args()]; when
    [argparse] ends the run, nothing of what follows is reached. *)
Definition parse_options (parse_args : outcome arguments)
    (files : gmap string string)
  : gmap string string * outcome options :=
  match parse_args with
  | Ok args =>
      match parse_compare args files with
      | (files, Ok (prev, next)) =>
          (files,
           match parse_post args files with
           | Ok token =>
               Ok {| opt_prev := fmt prev; opt_next := fmt next;
                     opt_post := arg_post args; opt_server := arg_server args;
                     opt_token := token; opt_debug := arg_debug args;
                     opt_dryrun := arg_dryrun args |}
           | Exit code => Exit code
           | Raise e => Raise e
           end)
      | (files, Exit code) => (files, Exit code)
      | (files, Raise e) => (files, Raise e)
      end
  | Exit code => (files, Exit code)
  | Raise e => (files, Raise e)
  end.

(** ** Vocabulary of the properties *)

(** The sum of [f word count] over the items of a word map. *)
Definition map_sum (f : string -> Z -> Z) (m : gmap string Z) : Z :=
  foldr (λ item acc, f item.1 item.2 + acc) 0 (map_to_list m).

(** What one word of a map adds to [same]: the smaller count when the
    other map has the word, nothing when it has not. *)
Definition shared_count (other : gmap string Z) (word : string) (count : Z)
  : Z :=
  match other !! word with
  | Some count2 => Z.min count count2
  | None => 0
  end.

(** The same with a word's own count added when the other map lacks it. *)
Definition shared_or_own_count (other : gmap string Z) (word : string)
  (count : Z) : Z :=
  match other !! word with
  | Some count2 => Z.min count count2
  | None => count
  end.

Definition overlap_total (map1 map2 : gmap string Z) : Z :=
  map_sum (λ _ count, count) map1 + map_sum (λ _ count, count) map2.

Definition overlap_same (map1 map2 : gmap string Z) : Z :=
  map_sum (shared_count map2) map1 + map_sum (shared_count map1) map2.

Definition overlap_same_or_own (map1 map2 : gmap string Z) : Z :=
  map_sum (shared_or_own_count map2) map1
  + map_sum (shared_or_own_count map1) map2.

(** [same / total >= 0.90] over the rationals, for [total <> 0]. *)
Definition at_least_90_percent (same total : Z) : bool :=
  Qle_bool (9 # 10) (inject_Z same / inject_Z total).

(** The entries of a snapshot in the order [normalize_data] visits them. *)
Definition entries_of (data : odict string (list entry)) : list entry :=
  concat (map snd data).

Definition titles_of (snapshot : odict Z page) : list string :=
  map (λ item, title item.2) snapshot.

(** No page number stands under two different titles. *)
Definition one_title_per_pagenr (entries : list entry) : Prop :=
  ∀ e1 e2, e1 ∈ entries -> e2 ∈ entries ->
    entry_pagenr e1 = entry_pagenr e2 -> entry_title e1 = entry_title e2.

(** The overlap test of [find_matching_page] on one candidate. *)
Definition overlap_reached (data pagedata : page) : bool :=
  match compare_word_maps (generate_word_map (text data))
          (generate_word_map (text pagedata)) with
  | Returns (comparison, _, _) => comparison
  | Raises _ => false
  end.

(** A candidate [find_matching_page] settles for: the same title, unless
    it is one of the two Kort nieuws titles, or enough overlap. *)
Definition candidate_matches (data pagedata : page) : bool :=
  bool_decide (title pagedata = title data) && negb (kort_nieuws (title data))
  || overlap_reached data pagedata.

(** The first candidate in iteration order that matches, if any. *)
Definition first_match (data : page) (page_map : odict Z page) : option Z :=
  (λ found : nat * (Z * page), found.2.1)
    <$> list_find (λ item : Z * page, candidate_matches data item.2 = true)
          page_map.

Fixpoint drop_leading_empty (lines : list string) : list string :=
  match lines with
  | EmptyString :: rest => drop_leading_empty rest
  | _ => lines
  end.

(** Strip trailing whitespace from every line, then drop the empty
    lines at the end. *)
Definition strip_trailing_blank (lines : list string) : list string :=
  rev (drop_leading_empty (rev (map PyStr.rstrip lines))).

(** A hunk with at most [n] lines of context before its first change
    and after its last one, and at most [n + n] between two changes. *)
Definition context_within (n : Z) (group : list Difflib.opcode) : Prop :=
  (∀ c, head group = Some c -> Difflib.is_equal c = true -> Difflib.span c ≤ n)
  ∧ (∀ c, last group = Some c -> Difflib.is_equal c = true -> Difflib.span c ≤ n)
  ∧ Forall (λ c, Difflib.is_equal c = true -> Difflib.span c ≤ n + n) group.

(** A hunk cut from [codes] that shows exactly [n] lines of context: it
    begins with [n] unchanged lines, unless it begins with the first
    opcode and that is a change, and it ends with [n] unchanged lines,
    unless it ends with the last opcode and that is a change. *)
Definition context_exact (n : Z) (codes group : list Difflib.opcode) : Prop :=
  (∀ c, head group = Some c ->
        if Difflib.is_equal c then Difflib.span c = n
        else head codes = Some c)
  ∧ (∀ c, last group = Some c ->
          if Difflib.is_equal c then Difflib.span c = n
          else last codes = Some c).

(** A piece of [n] unchanged lines. *)
Definition context_piece (n : Z) (c : Difflib.opcode) : Prop :=
  Difflib.is_equal c = true ∧ Difflib.span c = n.

(** The opcodes that are not [equal]. *)
Definition changes (codes : list Difflib.opcode) : list Difflib.opcode :=
  List.filter (λ c, negb (Difflib.is_equal c)) codes.

(** What [SequenceMatcher] promises of its blocks here: no block has a
    negative size. *)
Definition sizes_not_negative (get_matching_blocks : Difflib.matcher) : Prop :=
  ∀ a b : list string,
    Forall (λ block : Z * Z * Z, 0 ≤ block.2) (get_matching_blocks a b).

(** A block matcher that finds the common prefix only: the simplest
    function with the behaviour [Difflib.matches_identical] asks for. *)
Fixpoint common_prefix_length (a b : list string) : Z :=
  match a, b with
  | x :: a', y :: b' =>
      if decide (x = y) then 1 + common_prefix_length a' b' else 0
  | _, _ => 0
  end.

Definition prefix_blocks : Difflib.matcher := λ a b,
  let k := common_prefix_length a b in
  (if decide (k = 0) then [] else [(0, 0, k)])
  ++ [(Z.of_nat (length a), Z.of_nat (length b), 0)].

(** A call to the media endpoint that came back with a failure status. *)
Definition failed_upload (opts : options) (call : request * response) : Prop :=
  req_url call.1 = api (opt_server opts) "/api/v2/media"
  ∧ 400 ≤ status call.2.

Definition exits_with {A} (o : outcome A) (code : Z) : Prop :=
  match o with
  | Exit c => c = code
  | _ => False
  end.

Definition is_ok {A} (o : outcome A) : Prop :=
  match o with
  | Ok _ => True
  | _ => False
  end.

(** Among the calls a piece of the run made, a failed upload can only be
    the last one, and then the run has ended with [sys.exit(1)]. *)
Definition upload_failure_last {A} (opts : options)
  (new : list (request * response)) (o : outcome A) : Prop :=
  Forall (λ call, ¬ failed_upload opts call) new
  ∨ ∃ earlier call,
      new = earlier ++ [call]
      ∧ Forall (λ call, ¬ failed_upload opts call) earlier
      ∧ failed_upload opts call
      ∧ exits_with o 1.

(** A piece of the run that leaves the state file alone. *)
Definition keeps_file {A} (opts : options) (m : Run A) : Prop :=
  ∀ srv w w' o,
    m srv w = (w', o) ->
    state_file w' = state_file w
    ∧ ∃ new, calls w' = calls w ++ new ∧ upload_failure_last opts new o.

(** A piece of the run that writes the state file only when it ends well. *)
Definition writes_file_at_end {A} (opts : options) (m : Run A) : Prop :=
  ∀ srv w w' o,
    m srv w = (w', o) ->
    (¬ is_ok o -> state_file w' = state_file w)
    ∧ ∃ new, calls w' = calls w ++ new ∧ upload_failure_last opts new o.

(** Stand-ins for the examples: renderers that return their input, a
    server that answers every request with one status and a JSON body
    with neither ['id'] nor ['media_attachments'], and options. *)
Definition sample_externals : externals :=
  Externals prefix_blocks (λ _ raw_content, raw_content) (λ text, text).

Definition sample_options (post dryrun : bool) : options :=
  Options "pages/20240102-030405.json" "pages/20240102-040506.json" post
    (Some "example.social") (Some "secret") false dryrun.

Definition answers (code : Z) (body : reply_json) : server :=
  λ _ _, Response code (Some body).

Definition replies_with (code : Z) : server :=
  answers code (ReplyJson None None).

Definition weather_state : gmap string (gmap string string) :=
  {[ "Weather" := {[ "150" := "id1" ]} ]}.

Definition weather_snapshot : odict string (list entry) :=
  [("101", [Entry "Weather" 150 ["Sun tomorrow"] "<b>Sun</b>"])].

Definition sports_state : gmap string (gmap string string) :=
  {[ "Sports" := {[ "160" := "s1" ]} ]}.

Definition sports_snapshot (line raw_content : string)
  : odict string (list entry) :=
  [("102", [Entry "Sports" 160 [line] raw_content])].

(** How the reconciler classifies the pages.  The old pages are taken in
    order against what is left of the new ones.  An old page for which
    [find_matching_page] finds nothing is deleted.  One that is matched
    is unchanged when number, title and text are the same, and changed
    otherwise; either way the page it is matched with is taken off the
    new ones.  What is left in the end is new.  (A match with page
    number 0 counts as none: [not pagenr_match].) *)
Inductive classified (opts : options)
  : odict Z page -> odict Z page ->
    list (Z * page) -> list (Z * page * Z * page) -> odict Z page -> Prop :=
| classified_end next_list :
    classified opts [] next_list [] [] next_list
| classified_deleted pagenr pagedata prev_list next_list found
    deleted changed new :
    find_matching_page opts pagedata next_list = Returns found ->
    no_match found = true ->
    classified opts prev_list next_list deleted changed new ->
    classified opts ((pagenr, pagedata) :: prev_list) next_list
      ((pagenr, pagedata) :: deleted) changed new
| classified_unchanged pagenr pagedata prev_list next_list new_pagedata
    next_list' deleted changed new :
    find_matching_page opts pagedata next_list = Returns (Some pagenr) ->
    pagenr ≠ 0 ->
    OrderedDict.get pagenr next_list = Some new_pagedata ->
    title pagedata = title new_pagedata ->
    text pagedata = text new_pagedata ->
    OrderedDict.del pagenr next_list = Some next_list' ->
    classified opts prev_list next_list' deleted changed new ->
    classified opts ((pagenr, pagedata) :: prev_list) next_list
      deleted changed new
| classified_changed pagenr pagedata prev_list next_list pagenr_match
    new_pagedata next_list' deleted changed new :
    find_matching_page opts pagedata next_list = Returns (Some pagenr_match) ->
    pagenr_match ≠ 0 ->
    OrderedDict.get pagenr_match next_list = Some new_pagedata ->
    ¬ (pagenr = pagenr_match ∧ title pagedata = title new_pagedata
       ∧ text pagedata = text new_pagedata) ->
    OrderedDict.del pagenr_match next_list = Some next_list' ->
    classified opts prev_list next_list' deleted changed new ->
    classified opts ((pagenr, pagedata) :: prev_list) next_list
      deleted ((pagenr, pagedata, pagenr_match, new_pagedata) :: changed) new.

(** The report lines of a dry run.  The sentinel stands where a posting
    call would have put its answer: the status of a retraction or of an
    update, and the ids of a newly created post.  [state] is the state as
    loaded. *)
Definition dry_deleted_line (state : gmap string (gmap string string))
  (item : Z * page) : string :=
  let '(pagenr, pagedata) := item in
  deleted_line pagenr pagedata
    (get_state state (title pagedata) (KInt pagenr)) "<unknown>".

Definition dry_changed_line (X : externals) (opts : options)
  (state : gmap string (gmap string string)) (item : Z * page * Z * page)
  : string :=
  let '(pagenr, pagedata, pagenr_match, new_pagedata) := item in
  let stored := get_state state (title pagedata) (KInt pagenr) in
  if truthy stored
  then changed_line X opts pagenr pagedata pagenr_match new_pagedata
         stored "<unknown>"
  else changed_line X opts pagenr pagedata pagenr_match new_pagedata
         (Some "<unknown>") "<?>".

Definition dry_new_line (opts : options) (item : Z * page) : string :=
  let '(pagenr, pagedata) := item in
  if opt_post opts
  then new_line_posted pagenr pagedata "<unknown>" "<unknown>"
  else new_line pagenr pagedata.

(** A line of a live run for the same page: the post id and the status
    are what the server made of it. *)
Definition live_deleted_line (line : string) (item : Z * page) : Prop :=
  ∃ post_id result_status,
    line = deleted_line item.1 item.2 post_id result_status.

Definition live_changed_line (X : externals) (opts : options)
  (line : string) (item : Z * page * Z * page) : Prop :=
  ∃ post_id result_status,
    let '(pagenr, pagedata, pagenr_match, new_pagedata) := item in
    line = changed_line X opts pagenr pagedata pagenr_match new_pagedata
             post_id result_status.

Definition live_new_line (line : string) (item : Z * page) : Prop :=
  line = new_line item.1 item.2
  ∨ ∃ media_id post_id, line = new_line_posted item.1 item.2 media_id post_id.

(** What holds of [(result, seen)] between any two entries: every kept
    page is the one [seen] records for its title. *)
Definition seen_agrees (st : odict Z page * gmap string Z) : Prop :=
  NoDup (OrderedDict.keys st.1)
  ∧ ∀ pagenr pagedata,
      OrderedDict.get pagenr st.1 = Some pagedata ->
      st.2 !! title pagedata = Some pagenr.

(** What holds of [(result, seen)] after the entries [done] when no page
    number stands under two titles: [seen] maps every title met so far
    to its lowest page number, and [result] holds under that number an
    entry of that title. *)
Definition lowest_kept (done : list entry)
  (st : odict Z page * gmap string Z) : Prop :=
  NoDup (OrderedDict.keys st.1)
  ∧ (∀ pagenr pagedata,
       OrderedDict.get pagenr st.1 = Some pagedata ->
       st.2 !! title pagedata = Some pagenr
       ∧ ∃ e, e ∈ done ∧ entry_pagenr e = pagenr ∧ pagedata = page_of_entry e)
  ∧ (∀ t pagenr,
       st.2 !! t = Some pagenr ->
       (∃ pagedata, OrderedDict.get pagenr st.1 = Some pagedata
                    ∧ title pagedata = t)
       ∧ ∀ e, e ∈ done -> entry_title e = t -> pagenr ≤ entry_pagenr e)
  ∧ (∀ e, e ∈ done -> is_Some (st.2 !! entry_title e)).

(** The requests of [mark_deleted] and of the in-place branch of
    [create_update] for a post without attachments, and the reply to
    the fetch that precedes them. *)
Definition fetched_reply (opts : options) (auth : list (string * string))
  (post_id : option string) (srv : server) (w : world) : response :=
  srv (calls w)
    (Request "GET"
       (api (opt_server opts) ("/api/v1/statuses/" +:+ fmt post_id)) auth []).

(** The attachments a reply lists, when each of them has an id. *)
Definition lists_media (reply : response) (media_ids : list string) : Prop :=
  ∃ body,
    data reply = Some body
    ∧ default [] (json_media_attachments body) = Some <$> media_ids.

Definition retract_request (opts : options) (auth : list (string * string))
  (post_id : option string) (title : string) (media_ids : list string)
  : request :=
  Request "PUT" (api (opt_server opts) ("/api/v1/statuses/" +:+ fmt post_id))
    auth
    ([("status", Text ("[Verwijderd] " +:+ title +:+ nl +:+ "#teletekst"));
      ("language", Text "nl")] ++ media_fields media_ids).

Definition update_request (opts : options) (auth : list (string * string))
  (post_id : string) (new_pagenr : Z) (new_pagedata : page)
  (media_ids : list string) : request :=
  Request "PUT" (api (opt_server opts) ("/api/v1/statuses/" +:+ post_id))
    auth
    ([("status", Text (status_text new_pagenr (title new_pagedata)));
      ("language", Text "nl")] ++ media_fields media_ids).

(** No title of the state is left with an empty inner dictionary. *)
Definition no_empty_title (state : gmap string (gmap string string)) : Prop :=
  ∀ title inner, state !! title = Some inner -> inner ≠ ∅.

(** The world after one more call. *)
Definition add_call (w : world) (req : request) (result : response) : world :=
  {| calls := calls w ++ [(req, result)]; state_file := state_file w |}.

(** How [json.loads(result.data)['id']] ends on a reply. *)
Definition id_of_reply (result : response) : outcome string :=
  match data result with
  | None => Raise ValueError
  | Some body =>
      match json_id body with
      | None => Raise KeyError
      | Some id => Ok id
      end
  end.

(** How an upload ends on the reply to it. *)
Definition upload_outcome (result : response) : outcome string :=
  if decide (400 ≤ status result) then Exit 1 else id_of_reply result.

(** The requests the posting functions send. *)
Definition page_upload (X : externals) (opts : options)
  (auth : list (string * string)) (pagenr : Z)
  (raw_content text_content timestamp : string) : request :=
  let file_name := "tt/tt" +:+ PyStr.of_Z pagenr +:+ ".png" in
  Request "POST" (api (opt_server opts) "/api/v2/media") auth
    [("file", File file_name (render_teletekst X file_name raw_content));
     ("description",
      Text ("[" +:+ timestamp +:+ "]" +:+ nl +:+ nl +:+ text_content))].

Definition diff_upload (X : externals) (opts : options)
  (auth : list (string * string)) (text timestamp : string) : request :=
  Request "POST" (api (opt_server opts) "/api/v2/media") auth
    [("file", File "tt/diff.png" (diff_image X text));
     ("description", Text ("[" +:+ timestamp +:+ "]" +:+ nl +:+ nl +:+ text));
     ("focus", Text "0.0,1.0")].

Definition new_status (opts : options) (auth : list (string * string))
  (pagenr : Z) (title media_id : string) : request :=
  Request "POST" (api (opt_server opts) "/api/v1/statuses") auth
    [("status", Text (status_text pagenr title));
     ("media_ids[]", Text media_id);
     ("language", Text "nl")].

Definition follow_up_status (opts : options) (auth : list (string * string))
  (post_id : string) (new_pagenr : Z) (new_pagedata : page)
  (media_ids : list string) : request :=
  Request "POST" (api (opt_server opts) "/api/v1/statuses") auth
    ([("status", Text (status_text new_pagenr (title new_pagedata)));
      ("language", Text "nl");
      ("in_reply_to_id", Text post_id)] ++ media_fields media_ids).

Definition status_fetch (opts : options) (auth : list (string * string))
  (post_id : option string) : request :=
  Request "GET" (api (opt_server opts) ("/api/v1/statuses/" +:+ fmt post_id))
    auth [].

Definition status_update (opts : options) (auth : list (string * string))
  (post_id : string) (new_pagenr : Z) (new_pagedata : page)
  (media_ids : list string) : request :=
  Request "PUT" (api (opt_server opts) ("/api/v1/statuses/" +:+ post_id)) auth
    ([("status", Text (status_text new_pagenr (title new_pagedata)));
      ("language", Text "nl")] ++ media_fields media_ids).

(** The attachment ids in the body of a reply, when [get_media_data]
    gets through it. *)
Definition media_of_reply (result : response) : option (list string) :=
  body ← data result;
  match json_media_attachments body with
  | None => Some []
  | Some media => mapM id media
  end.

(** The number of tabs in a string. *)
Fixpoint count_tabs (s : string) : nat :=
  match s with
  | EmptyString => O
  | String c s' => if is_tab c then S (count_tabs s') else count_tabs s'
  end.

Fixpoint has_newline (s : string) : bool :=
  match s with
  | EmptyString => false
  | String c s' => Ascii.eqb c PyStr.newline || has_newline s'
  end.

Definition starts_with_tab (s : string) : bool :=
  match s with
  | EmptyString => false
  | String c _ => is_tab c
  end.

Fixpoint spaces (n : nat) : string :=
  match n with
  | O => EmptyString
  | S n' => String " " (spaces n')
  end.

(** The tabs of a string expanded in one pass from the left: a tab at
    column [col] becomes the spaces up to the next multiple of four, four
    of them when [col] is a multiple already. *)
Fixpoint tab_columns (col : nat) (s : string) : string :=
  match s with
  | EmptyString => EmptyString
  | String c s' =>
      if is_tab c then
        let width := (4 - col `mod` 4)%nat in
        spaces width +:+ tab_columns (col + width) s'
      else String c (tab_columns (S col) s')
  end.

(** * Properties *)

(** ** Word maps *)

Lemma overlap_step_foldr (other : gmap string Z) (l : list (string * Z))
  (acc : Z * Z) :
  foldr (uncurry (overlap_step other)) acc l =
    (acc.1 + foldr (λ item a, item.2 + a) 0 l,
     acc.2 + foldr (λ item a, shared_count other item.1 item.2 + a) 0 l).
Proof.
  induction l as [|[word count] l IH]; simpl.
  - destruct acc; simpl; f_equal; lia.
  - rewrite IH; simpl. unfold overlap_step, shared_count.
    destruct (other !! word) as [count2|]; [|f_equal; lia].
    repeat case_decide; f_equal; lia.
Qed.

Lemma overlap_step_fold (other m : gmap string Z) (acc : Z * Z) :
  map_fold (overlap_step other) acc m =
    (acc.1 + map_sum (λ _ count, count) m,
     acc.2 + map_sum (shared_count other) m).
Proof. rewrite map_fold_foldr. apply overlap_step_foldr. Qed.

Lemma at_least_90_percent_exact (same total : Z) :
  total ≠ 0 ->
  at_least_90_percent same total =
    if decide (0 < total) then bool_decide (90 * total ≤ same * 100)
    else bool_decide (same * 100 ≤ 90 * total).
Proof.
  intros Hne. unfold at_least_90_percent.
  apply eq_true_iff_eq. rewrite Qle_bool_iff.
  unfold Qle, Qdiv, Qmult, Qinv, inject_Z; simpl.
  destruct total as [|t|t]; [done| |]; simpl;
    rewrite bool_decide_eq_true; lia.
Qed.

(** A quotient at 90% or above is rounded to 90.0 or above. *)
Lemma true_divide_ge_90_above (same total : Z) :
  total ≠ 0 ->
  at_least_90_percent same total = true ->
  true_divide_ge_90 (same * 100) total = true.
Proof.
  intros Hne. rewrite at_least_90_percent_exact by done.
  unfold true_divide_ge_90. rewrite bool_decide_eq_true.
  case_decide; rewrite bool_decide_eq_true; lia.
Qed.

(** Below [10 * 2^47] words the rounding makes no difference: a quotient
    under 90 stays at least [10 / total] under it. *)
Lemma true_divide_ge_90_exact (same total : Z) :
  0 < total < 10 * 2 ^ 47 ->
  true_divide_ge_90 (same * 100) total = at_least_90_percent same total.
Proof.
  intros Htotal. rewrite at_least_90_percent_exact by lia.
  rewrite decide_True by lia. unfold true_divide_ge_90.
  apply eq_true_iff_eq. rewrite !bool_decide_eq_true. lia.
Qed.

Lemma ratio_ge_90_bounded (same total : Z) :
  0 ≤ same ≤ total -> 0 < total ->
  ratio_ge_90 same total
  = Returns (bool_decide
               ((90 * 2 ^ 47 - 1) * total ≤ 2 ^ 47 * (same * 100))).
Proof.
  intros Hsame Htotal. unfold ratio_ge_90. cbv zeta.
  rewrite decide_False by lia.
  unfold true_divide_overflows. rewrite bool_decide_eq_false_2 by lia.
  f_equal. unfold true_divide_ge_90.
  apply eq_true_iff_eq. rewrite !bool_decide_eq_true. lia.
Qed.

Lemma compare_word_maps_sums (map1 map2 : gmap string Z) :
  compare_word_maps map1 map2 =
    let total := overlap_total map1 map2 in
    let same := overlap_same map1 map2 in
    match ratio_ge_90 same total with
    | Returns comparison => Returns (comparison, same, total)
    | Raises e => Raises e
    end.
Proof.
  unfold compare_word_maps. rewrite !overlap_step_fold; simpl.
  unfold overlap_total, overlap_same.
  rewrite !Z.add_0_l. reflexivity.
Qed.

Lemma map_sum_le (f g : string -> Z -> Z) (m : gmap string Z) :
  (∀ word count, m !! word = Some count -> f word count ≤ g word count) ->
  map_sum f m ≤ map_sum g m.
Proof.
  intros Hfg. unfold map_sum.
  assert (Hl : Forall (λ item : string * Z, f item.1 item.2 ≤ g item.1 item.2)
                 (map_to_list m)).
  { apply Forall_forall. intros [word count] Hin.
    apply elem_of_map_to_list in Hin. by apply Hfg. }
  induction Hl; simpl; lia.
Qed.

Lemma map_sum_ext (f g : string -> Z -> Z) (m : gmap string Z) :
  (∀ word count, m !! word = Some count -> f word count = g word count) ->
  map_sum f m = map_sum g m.
Proof.
  intros Hfg. apply Z.le_antisymm; apply map_sum_le; intros word count Hm;
    rewrite (Hfg _ _ Hm); lia.
Qed.

Lemma map_sum_zero (m : gmap string Z) : map_sum (λ _ _, 0) m = 0.
Proof. unfold map_sum. induction (map_to_list m); simpl; lia. Qed.

Lemma shared_count_bounds (other m : gmap string Z) (word : string)
  (count : Z) :
  map_Forall (λ _ count, 0 ≤ count) other ->
  0 ≤ count ->
  0 ≤ shared_count other word count ≤ count.
Proof.
  intros Hother Hcount. unfold shared_count.
  destruct (other !! word) as [count2|] eqn:E; [|lia].
  specialize (Hother _ _ E). simpl in Hother. lia.
Qed.

Lemma overlap_same_bounds (map1 map2 : gmap string Z) :
  map_Forall (λ _ count, 0 ≤ count) map1 ->
  map_Forall (λ _ count, 0 ≤ count) map2 ->
  0 ≤ overlap_same map1 map2 ≤ overlap_total map1 map2.
Proof.
  intros H1 H2. unfold overlap_same, overlap_total.
  assert (0 ≤ map_sum (shared_count map2) map1
          ≤ map_sum (λ _ count, count) map1).
  { split.
    - rewrite <-(map_sum_zero map1). apply map_sum_le.
      intros word count Hm. apply (shared_count_bounds map2 map1); [done|].
      apply (H1 _ _ Hm).
    - apply map_sum_le. intros word count Hm.
      apply (shared_count_bounds map2 map1); [done|]. apply (H1 _ _ Hm). }
  assert (0 ≤ map_sum (shared_count map1) map2
          ≤ map_sum (λ _ count, count) map2).
  { split.
    - rewrite <-(map_sum_zero map2). apply map_sum_le.
      intros word count Hm. apply (shared_count_bounds map1 map2); [done|].
      apply (H2 _ _ Hm).
    - apply map_sum_le. intros word count Hm.
      apply (shared_count_bounds map1 map2); [done|]. apply (H2 _ _ Hm). }
  lia.
Qed.

(** C2 (as amended).  [compare_word_maps] adds, for each word of the
    first map, its count to [total] and, when the second map has the
    word, the smaller of the two counts to [same] (nothing when the word
    is absent); then the same for each word of the second map against the
    first.  The final division raises [ZeroDivisionError] when [total] is
    0 and [OverflowError] when the quotient is beyond the floats, which
    does not happen on maps without negative counts.  Otherwise a match
    is declared exactly when the float nearest to [same * 100 / total]
    is 90.0 or more, that is when the quotient is at least [90 - 2^-47]:
    always when [same / total >= 0.90], and only then as long as [total]
    is below [10 * 2^47].  On [{a:2, b:1}] twice this is [same = 6],
    [total = 6], a match. *)
Theorem compare_word_maps_overlap :
  (∀ map1 map2 : gmap string Z,
     compare_word_maps map1 map2 =
       let total := overlap_total map1 map2 in
       let same := overlap_same map1 map2 in
       if decide (total = 0) then Raises ZeroDivisionError
       else if true_divide_overflows (same * 100) total
            then Raises OverflowError
       else Returns (true_divide_ge_90 (same * 100) total, same, total))
  ∧ (∀ map1 map2 : gmap string Z,
       map_Forall (λ _ count, 0 ≤ count) map1 ->
       map_Forall (λ _ count, 0 ≤ count) map2 ->
       overlap_total map1 map2 ≠ 0 ->
       true_divide_overflows (overlap_same map1 map2 * 100)
         (overlap_total map1 map2) = false)
  ∧ (∀ same total : Z,
       total ≠ 0 ->
       at_least_90_percent same total = true ->
       true_divide_ge_90 (same * 100) total = true)
  ∧ (∀ same total : Z,
       0 < total < 10 * 2 ^ 47 ->
       true_divide_ge_90 (same * 100) total = at_least_90_percent same total)
  ∧ compare_word_maps {[ "a" := 2; "b" := 1 ]} {[ "a" := 2; "b" := 1 ]}
    = Returns (true, 6, 6).
Proof.
  split_and!; [| |apply true_divide_ge_90_above|apply true_divide_ge_90_exact
               |by vm_compute].
  - intros map1 map2. rewrite compare_word_maps_sums. cbv zeta.
    unfold ratio_ge_90. cbv zeta. case_decide; [done|].
    by destruct (true_divide_overflows _ _).
  - intros map1 map2 H1 H2 Hne.
    pose proof (overlap_same_bounds map1 map2 H1 H2).
    unfold true_divide_overflows. apply bool_decide_eq_false_2. lia.
Qed.

Lemma compare_word_maps_overlap_witness :
  true_divide_overflows (overlap_same {[ "a" := 2 ]} {[ "a" := 3 ]} * 100)
    (overlap_total {[ "a" := 2 ]} {[ "a" := 3 ]}) = false
  ∧ true_divide_ge_90 (9 * 100) 10 = true
  ∧ true_divide_ge_90 (4 * 100) 5 = at_least_90_percent 4 5.
Proof.
  destruct compare_word_maps_overlap as (_ & Hfloat & Habove & Hexact & _).
  split_and!.
  - apply (Hfloat {[ "a" := 2 ]} {[ "a" := 3 ]}).
    + apply map_Forall_insert_2; [lia|]. apply map_Forall_empty.
    + apply map_Forall_insert_2; [lia|]. apply map_Forall_empty.
    + intros H. vm_compute in H. discriminate H.
  - apply (Habove 9 10); [lia|by vm_compute].
  - apply (Hexact 4 5). lia.
Defined.

(** C2 (as stated) fails: a word missing from the other map adds nothing
    to [same].  On [{a:5}] against [{b:5}] the code finds [same = 0] of
    [total = 10], where adding the own count would give [same = 10].
    It also fails for the test against 0.90 on very large counts: with
    [same / total] a little under 0.90 the float is 90.0 all the same. *)
Lemma compare_word_maps_absent_word_counterexample :
  compare_word_maps {[ "a" := 5 ]} {[ "b" := 5 ]} = Returns (false, 0, 10)
  ∧ overlap_same_or_own {[ "a" := 5 ]} {[ "b" := 5 ]} = 10
  ∧ ¬ (∀ map1 map2 : gmap string Z,
         compare_word_maps map1 map2 =
           let total := overlap_total map1 map2 in
           let same := overlap_same_or_own map1 map2 in
           if decide (total = 0) then Raises ZeroDivisionError
           else Returns (at_least_90_percent same total, same, total))
  ∧ compare_word_maps {[ "a" := 900000000000000000 ]}
      {[ "a" := 1100000000000000001 ]}
    = Returns (true, 1800000000000000000, 2000000000000000001)
  ∧ at_least_90_percent 1800000000000000000 2000000000000000001 = false.
Proof.
  split; [by vm_compute|]. split; [by vm_compute|]. split.
  - intros H. specialize (H {[ "a" := 5 ]} {[ "b" := 5 ]}).
    vm_compute in H. discriminate H.
  - split; by vm_compute.
Qed.

(** ** Post-state store *)

Lemma get_state_lookup (state : gmap string (gmap string string))
  (title : string) (pagenr : pagekey) :
  get_state state title pagenr = state !! title ≫= (.!! py_str pagenr).
Proof.
  unfold get_state. destruct (state !! title) as [inner|]; simpl; [|done].
  by destruct (inner !! py_str pagenr).
Qed.

Lemma set_state_insert (state : gmap string (gmap string string))
  (title : string) (pagenr : pagekey) (post_id : string) :
  set_state state title pagenr post_id =
    <[title := <[py_str pagenr := post_id]> (default ∅ (state !! title))]> state.
Proof.
  unfold set_state. destruct (state !! title) as [inner|] eqn:E; simpl.
  - by rewrite E.
  - by rewrite lookup_insert_eq, insert_insert_eq.
Qed.

Lemma clear_state_absent (state : gmap string (gmap string string))
  (title : string) (pagenr : pagekey) :
  get_state state title pagenr = None -> clear_state state title pagenr = state.
Proof.
  unfold get_state, clear_state.
  destruct (state !! title) as [inner|]; [|done].
  by destruct (inner !! py_str pagenr).
Qed.

Lemma clear_state_lookup (state : gmap string (gmap string string))
  (title : string) (pagenr : pagekey) (inner : gmap string string) :
  state !! title = Some inner ->
  is_Some (inner !! py_str pagenr) ->
  clear_state state title pagenr !! title =
    if decide (delete (py_str pagenr) inner = ∅) then None
    else Some (delete (py_str pagenr) inner).
Proof.
  intros Ht [post_id Hp]. unfold clear_state. rewrite Ht, Hp.
  case_decide as Hsize.
  - apply map_size_empty_iff in Hsize. rewrite decide_True by done.
    apply lookup_delete_eq.
  - rewrite decide_False by (by rewrite <-map_size_empty_iff).
    apply lookup_insert_eq.
Qed.

Lemma get_state_clear_state (state : gmap string (gmap string string))
  (title : string) (pagenr : pagekey) :
  get_state (clear_state state title pagenr) title pagenr = None.
Proof.
  destruct (get_state state title pagenr) as [post_id|] eqn:E.
  - rewrite get_state_lookup in *.
    destruct (state !! title) as [inner|] eqn:Ht; [|done]. simpl in E.
    rewrite (clear_state_lookup _ _ _ inner) by eauto.
    case_decide; [done|]. simpl. apply lookup_delete_eq.
  - by rewrite clear_state_absent.
Qed.

(** C9.  After [set_state] the lookup gives the id; after the following
    [clear_state] it gives [None], and the title is gone from the state
    exactly when nothing else was stored under it; [clear_state] of an
    absent entry changes nothing; the inner key is [str(pagenr)], so an
    [int] and the [str] it prints as address the same entry. *)
Theorem post_state_set_get_clear :
  ∀ (state : gmap string (gmap string string)) (title : string)
    (pagenr : pagekey) (post_id : string),
    let state1 := set_state state title pagenr post_id in
    let state2 := clear_state state1 title pagenr in
    get_state state1 title pagenr = Some post_id
    ∧ get_state state2 title pagenr = None
    ∧ state2 !! title =
        (let rest := delete (py_str pagenr) (default ∅ (state !! title)) in
         if decide (rest = ∅) then None else Some rest)
    ∧ (get_state state title pagenr = None ->
       clear_state state title pagenr = state)
    ∧ (∀ pagenr' : pagekey,
         py_str pagenr' = py_str pagenr ->
         get_state state1 title pagenr' = Some post_id
         ∧ clear_state state1 title pagenr' = state2)
    ∧ (∀ n : Z, py_str (KStr (PyStr.of_Z n)) = py_str (KInt n)).
Proof.
  intros state title pagenr post_id state1 state2.
  assert (Hget : ∀ pagenr', py_str pagenr' = py_str pagenr ->
                   get_state state1 title pagenr' = Some post_id).
  { intros pagenr' Heq. unfold state1.
    rewrite get_state_lookup, set_state_insert, lookup_insert_eq; simpl.
    rewrite Heq. apply lookup_insert_eq. }
  split_and!.
  - by apply Hget.
  - apply get_state_clear_state.
  - unfold state2, state1. rewrite set_state_insert.
    erewrite clear_state_lookup;
      [|apply lookup_insert_eq|rewrite lookup_insert_eq; eauto].
    by rewrite delete_insert_eq.
  - apply clear_state_absent.
  - intros pagenr' Heq. split; [by apply Hget|].
    unfold state2, clear_state. by rewrite Heq.
  - done.
Qed.

Lemma post_state_set_get_clear_witness :
  get_state ∅ "Weather" (KInt 150) = None
  ∧ clear_state ∅ "Weather" (KInt 150) = ∅
  ∧ py_str (KStr "150") = py_str (KInt 150)
  ∧ get_state (set_state ∅ "Weather" (KInt 150) "id1") "Weather" (KStr "150")
    = Some "id1".
Proof.
  pose proof (post_state_set_get_clear ∅ "Weather" (KInt 150) "id1") as H.
  simpl in H. destruct H as (_ & _ & _ & Habsent & Hsame & _).
  split; [reflexivity|]. split; [apply Habsent; reflexivity|].
  split; [reflexivity|]. apply (Hsame (KStr "150")). reflexivity.
Defined.

(** ** Ordered dictionaries *)

Section ordered_dict_facts.
Context {K V : Type} `{EqDecision K}.
Implicit Types (d : list (K * V)) (k : K) (v : V).

Import OrderedDict.

Lemma get_set d k k' v :
  get k' (set k v d) = if decide (k' = k) then Some v else get k' d.
Proof.
  induction d as [|[k0 v0] d IH]; simpl.
  - repeat case_decide; congruence.
  - repeat (case_decide; simpl); try congruence.
Qed.

Lemma keys_set d k v :
  keys (set k v d) = if decide (k ∈ keys d) then keys d else keys d ++ [k].
Proof.
  unfold keys. induction d as [|[k0 v0] d IH]; simpl; [done|].
  destruct (decide (k = k0)) as [->|Hk]; simpl.
  - rewrite decide_True by apply list_elem_of_here. done.
  - rewrite IH. destruct (decide (k ∈ map fst d)) as [Hin|Hin].
    + rewrite decide_True by (by apply list_elem_of_further). done.
    + rewrite decide_False; [done|]. by intros [?|?]%elem_of_cons.
Qed.

Lemma NoDup_keys_set d k v : NoDup (keys d) -> NoDup (keys (set k v d)).
Proof.
  intros Hd. rewrite keys_set. case_decide as Hk; [done|].
  apply NoDup_app. split_and!; [done| |apply NoDup_singleton].
  intros x Hx ->%list_elem_of_singleton. done.
Qed.

Lemma get_None_keys d k : get k d = None <-> k ∉ keys d.
Proof.
  unfold keys. induction d as [|[k0 v0] d IH]; simpl.
  - split; [intros _; apply not_elem_of_nil|done].
  - case_decide as Hk.
    + subst. split; [done|]. intros []. apply list_elem_of_here.
    + rewrite IH, not_elem_of_cons. tauto.
Qed.

Lemma get_Some_elem_of d k v : get k d = Some v -> (k, v) ∈ d.
Proof.
  induction d as [|[k0 v0] d IH]; simpl; [done|].
  case_decide; [intros [= ->]; subst; apply list_elem_of_here|].
  intros; apply list_elem_of_further; auto.
Qed.

Lemma elem_of_get d k v : NoDup (keys d) -> (k, v) ∈ d -> get k d = Some v.
Proof.
  unfold keys. induction d as [|[k0 v0] d IH]; simpl.
  - intros _ []%elem_of_nil.
  - intros [Hk0 Hd]%NoDup_cons [[= -> ->]|Hin]%elem_of_cons.
    + by rewrite decide_True.
    + rewrite decide_False; [auto|]. intros ->. apply Hk0.
      apply list_elem_of_fmap. by exists (k0, v).
Qed.

Lemma del_is_Some d k : is_Some (get k d) -> is_Some (del k d).
Proof.
  induction d as [|[k0 v0] d IH]; simpl; [by intros [? ?]|].
  case_decide; [eauto|]. intros [d' ->]%IH. eauto.
Qed.

Lemma keys_del d d' k :
  del k d = Some d' -> NoDup (keys d) ->
  NoDup (keys d') ∧ (k ∉ keys d') ∧ (∀ k', k' ≠ k -> get k' d' = get k' d).
Proof.
  unfold keys. revert d'.
  induction d as [|[k0 v0] d IH]; simpl; intros d'; [done|].
  case_decide as Hk.
  - intros [= <-] [Hk0 Hd]%NoDup_cons. subst. split_and!; [done..|].
    intros k' Hne. by rewrite decide_False.
  - destruct (del k d) as [d1|]; [|done]. intros [= <-] [Hk0 Hd]%NoDup_cons.
    destruct (IH d1 eq_refl Hd) as (Hnd & Hnk & Hget). simpl.
    split_and!.
    + apply NoDup_cons. split; [|done]. intros Hin. apply Hk0.
      apply list_elem_of_fmap in Hin as [[k1 v1] [-> Hin]]. simpl.
      destruct (decide (k1 = k)) as [->|Hne].
      * exfalso. apply Hnk. apply list_elem_of_fmap. by exists (k, v1).
      * apply list_elem_of_fmap. exists (k1, v1). split; [done|].
        apply get_Some_elem_of. rewrite <-Hget by done.
        by apply elem_of_get.
    + rewrite not_elem_of_cons. done.
    + intros k' Hne. case_decide; [done|]. by apply Hget.
Qed.

Lemma get_del d d' k k' :
  del k d = Some d' -> NoDup (keys d) ->
  get k' d' = if decide (k' = k) then None else get k' d.
Proof.
  intros Hdel Hd. destruct (keys_del _ _ _ Hdel Hd) as (_ & Hnk & Hget).
  case_decide; [subst; by apply get_None_keys|by apply Hget].
Qed.

End ordered_dict_facts.

(** ** Snapshot normalizer *)

Lemma fold_raise_app {S A} (body : S -> A -> option S) (s : S) (l1 l2 : list A) :
  fold_raise body s (l1 ++ l2) =
    match fold_raise body s l1 with
    | Some s' => fold_raise body s' l2
    | None => None
    end.
Proof.
  revert s. induction l1 as [|x l1 IH]; intros s; simpl; [done|].
  destruct (body s x); [apply IH|done].
Qed.

Lemma normalize_groups_entries (st : odict Z page * gmap string Z)
  (data : odict string (list entry)) :
  fold_raise normalize_group st data =
    fold_raise normalize_entry st (entries_of data).
Proof.
  revert st. induction data as [|[index_page entries] data IH]; intros st.
  - done.
  - unfold entries_of in *. simpl. rewrite fold_raise_app.
    unfold normalize_group at 1. simpl.
    destruct (fold_raise normalize_entry st entries); [apply IH|done].
Qed.

Lemma normalize_data_entries (data : odict string (list entry)) :
  normalize_data data =
    fst <$> fold_raise normalize_entry ([], ∅) (entries_of data).
Proof. unfold normalize_data. by rewrite normalize_groups_entries. Qed.

Lemma seen_agrees_step st st' e :
  normalize_entry st e = Some st' -> seen_agrees st -> seen_agrees st'.
Proof.
  destruct st as [result seen]. unfold normalize_entry, seen_agrees; simpl.
  intros Hstep [Hnd Hseen].
  destruct (seen !! entry_title e) as [old|] eqn:Hold.
  - case_decide as Hlt; [by injection Hstep as <-|].
    destruct (OrderedDict.del old result) as [result1|] eqn:Hdel; [|done].
    injection Hstep as <-. simpl.
    destruct (keys_del _ _ _ Hdel Hnd) as (Hnd1 & _ & _).
    split; [by apply NoDup_keys_set|].
    intros pagenr pagedata. rewrite get_set. case_decide as Hp.
    + intros [= <-]. subst. apply lookup_insert_eq.
    + rewrite (get_del _ _ _ _ Hdel Hnd). case_decide as Ho; [done|].
      intros Hget. pose proof (Hseen _ _ Hget) as Hs.
      rewrite lookup_insert_ne, lookup_delete_ne; [done|congruence..].
  - injection Hstep as <-. simpl. split; [by apply NoDup_keys_set|].
    intros pagenr pagedata. rewrite get_set. case_decide as Hp.
    + intros [= <-]. subst. apply lookup_insert_eq.
    + intros Hget. pose proof (Hseen _ _ Hget) as Hs.
      rewrite lookup_insert_ne; [done|congruence].
Qed.

Lemma seen_agrees_fold entries st st' :
  fold_raise normalize_entry st entries = Some st' ->
  seen_agrees st -> seen_agrees st'.
Proof.
  revert st. induction entries as [|e entries IH]; intros st; simpl.
  - by intros [= <-].
  - destruct (normalize_entry st e) as [st1|] eqn:Hstep; [|done].
    eauto using seen_agrees_step.
Qed.

Lemma seen_agrees_titles st : seen_agrees st -> NoDup (titles_of st.1).
Proof.
  destruct st as [result seen]. intros [Hnd Hseen]. simpl in *.
  unfold titles_of.
  apply (NoDup_fmap_2_strong (λ item : Z * page, title item.2)).
  - intros [p1 d1] [p2 d2] H1 H2 Ht. simpl in Ht.
    apply (elem_of_get _ _ _ Hnd) in H1 as G1.
    apply (elem_of_get _ _ _ Hnd) in H2 as G2.
    pose proof (Hseen _ _ G1) as S1. pose proof (Hseen _ _ G2) as S2.
    rewrite Ht in S1. assert (p1 = p2) as -> by congruence.
    congruence.
  - by apply (NoDup_fmap_1 fst).
Qed.

Lemma lowest_kept_step done st e :
  one_title_per_pagenr (done ++ [e]) ->
  lowest_kept done st ->
  ∃ st', normalize_entry st e = Some st' ∧ lowest_kept (done ++ [e]) st'.
Proof.
  destruct st as [result seen]. unfold lowest_kept; simpl.
  intros Hone (Hnd & Hres & Hseen & Hdone).
  assert (He : e ∈ done ++ [e])
    by (apply elem_of_app; right; apply list_elem_of_here).
  (* a kept page under the number of [e] has the title of [e] *)
  assert (Hsame : ∀ pagedata,
    OrderedDict.get (entry_pagenr e) result = Some pagedata ->
    title pagedata = entry_title e).
  { intros pagedata Hget. destruct (Hres _ _ Hget) as (_ & e0 & H0 & Hp & ->).
    simpl. apply Hone; [apply elem_of_app; by left|done|done]. }
  unfold normalize_entry.
  destruct (seen !! entry_title e) as [old|] eqn:Hold.
  - destruct (Hseen _ _ Hold) as ((kept & Hkept & Hkt) & Hlow).
    case_decide as Hlt.
    + (* skipped *)
      eexists; split; [done|]. simpl. split_and!; [done| | |].
      * intros pagenr pagedata Hget.
        destruct (Hres _ _ Hget) as (Hs & e0 & H0 & Hp & Hd).
        split; [done|]. exists e0. split; [apply elem_of_app; by left|done].
      * intros t pagenr Hs. destruct (Hseen _ _ Hs) as (Hex & Hl).
        split; [done|].
        intros e0 [H0| ->%list_elem_of_singleton]%elem_of_app Ht; [eauto|].
        assert (pagenr = old) by congruence. lia.
      * intros e0 [H0| ->%list_elem_of_singleton]%elem_of_app; eauto.
    + (* the kept entry of this title gives way *)
      destruct (del_is_Some result old) as [result1 Hdel]; [eauto|].
      rewrite Hdel. eexists; split; [done|]. simpl.
      destruct (keys_del _ _ _ Hdel Hnd) as (Hnd1 & _ & _).
      split_and!; [by apply NoDup_keys_set| | |].
      * intros pagenr pagedata. rewrite get_set. case_decide as Hp.
        { intros [= <-]. subst. simpl.
          split; [apply lookup_insert_eq|]. by exists e. }
        rewrite (get_del _ _ _ _ Hdel Hnd). case_decide as Ho; [done|].
        intros Hget. destruct (Hres _ _ Hget) as (Hs & e0 & H0 & Hp0 & Hd).
        split.
        { rewrite lookup_insert_ne, lookup_delete_ne; [done|congruence..]. }
        exists e0. split; [apply elem_of_app; by left|done].
      * intros t pagenr.
        destruct (decide (t = entry_title e)) as [->|Hne].
        { rewrite lookup_insert_eq. intros [= <-]. split.
          - exists (page_of_entry e). rewrite get_set.
            by rewrite decide_True.
          - intros e0 [H0| ->%list_elem_of_singleton]%elem_of_app Ht;
              [|lia]. specialize (Hlow _ H0 Ht). lia. }
        rewrite lookup_insert_ne, lookup_delete_ne by done. intros Hs.
        destruct (Hseen _ _ Hs) as ((pagedata & Hget & Ht) & Hl). split.
        { exists pagedata. split; [|done]. rewrite get_set.
          rewrite decide_False.
          - rewrite (get_del _ _ _ _ Hdel Hnd). rewrite decide_False; [done|].
            intros ->. congruence.
          - intros ->. apply Hsame in Hget. congruence. }
        intros e0 [H0| ->%list_elem_of_singleton]%elem_of_app Ht0;
          [eauto|done].
      * intros e0 Hin. destruct (decide (entry_title e0 = entry_title e))
          as [->|Hne]; [by rewrite lookup_insert_eq|].
        rewrite lookup_insert_ne, lookup_delete_ne by done.
        apply elem_of_app in Hin as [H0| ->%list_elem_of_singleton];
          [by apply Hdone|done].
  - (* a title not met before *)
    eexists; split; [done|]. simpl.
    split_and!; [by apply NoDup_keys_set| | |].
    + intros pagenr pagedata. rewrite get_set. case_decide as Hp.
      { intros [= <-]. subst. simpl.
        split; [apply lookup_insert_eq|]. by exists e. }
      intros Hget. destruct (Hres _ _ Hget) as (Hs & e0 & H0 & Hp0 & Hd).
      split.
      { rewrite lookup_insert_ne; [done|congruence]. }
      exists e0. split; [apply elem_of_app; by left|done].
    + intros t pagenr.
      destruct (decide (t = entry_title e)) as [->|Hne].
      { rewrite lookup_insert_eq. intros [= <-]. split.
        - exists (page_of_entry e). rewrite get_set.
          by rewrite decide_True.
        - intros e0 [H0| ->%list_elem_of_singleton]%elem_of_app Ht;
            [|lia]. destruct (Hdone _ H0) as [? Hs]. congruence. }
      rewrite lookup_insert_ne by done. intros Hs.
      destruct (Hseen _ _ Hs) as ((pagedata & Hget & Ht) & Hl). split.
      { exists pagedata. split; [|done]. rewrite get_set.
        rewrite decide_False; [done|].
        intros ->. apply Hsame in Hget. congruence. }
      intros e0 [H0| ->%list_elem_of_singleton]%elem_of_app Ht0;
        [eauto|done].
    + intros e0 Hin. destruct (decide (entry_title e0 = entry_title e))
        as [->|Hne]; [by rewrite lookup_insert_eq|].
      rewrite lookup_insert_ne by done.
      apply elem_of_app in Hin as [H0| ->%list_elem_of_singleton];
        [by apply Hdone|done].
Qed.

Lemma one_title_per_pagenr_prefix l1 l2 :
  one_title_per_pagenr (l1 ++ l2) -> one_title_per_pagenr l1.
Proof.
  intros H e1 e2 H1 H2. apply H; apply elem_of_app; by left.
Qed.

Lemma lowest_kept_fold entries done st :
  one_title_per_pagenr (done ++ entries) ->
  lowest_kept done st ->
  ∃ st', fold_raise normalize_entry st entries = Some st'
         ∧ lowest_kept (done ++ entries) st'.
Proof.
  revert done st. induction entries as [|e entries IH]; intros done st Hone Hst.
  - exists st. by rewrite app_nil_r.
  - simpl. rewrite (assoc_L (++) done [e] entries : done ++ e :: entries = _) in *.
    destruct (lowest_kept_step done st e) as (st1 & -> & Hst1);
      [by eapply one_title_per_pagenr_prefix|done|].
    by apply IH.
Qed.

Lemma lowest_kept_init : lowest_kept [] ([], ∅).
Proof.
  unfold lowest_kept; simpl. split_and!; [apply NoDup_nil_2|done|done|].
  by intros e ?%elem_of_nil.
Qed.

(** With no page number under two titles, [normalize_data] returns, and
    what it returns holds exactly the lowest entry of every title. *)
Lemma normalize_data_lowest (data : odict string (list entry)) :
  one_title_per_pagenr (entries_of data) ->
  ∃ result,
    normalize_data data = Some result
    ∧ NoDup (titles_of result)
    ∧ (∀ pagenr pagedata,
         OrderedDict.get pagenr result = Some pagedata ->
         ∃ e, e ∈ entries_of data ∧ entry_pagenr e = pagenr
              ∧ pagedata = page_of_entry e
              ∧ ∀ e', e' ∈ entries_of data ->
                      entry_title e' = entry_title e ->
                      pagenr ≤ entry_pagenr e')
    ∧ (∀ e, e ∈ entries_of data ->
         ∃ pagenr pagedata,
           OrderedDict.get pagenr result = Some pagedata
           ∧ title pagedata = entry_title e ∧ pagenr ≤ entry_pagenr e).
Proof.
  intros Hone. rewrite normalize_data_entries.
  destruct (lowest_kept_fold (entries_of data) [] ([], ∅))
    as ([result seen] & Hfold & Hnd & Hres & Hseen & Hdone);
    [done|apply lowest_kept_init|].
  simpl in *. exists result. rewrite Hfold. split; [done|]. split_and!.
  - apply (seen_agrees_titles (result, seen)). split; [done|].
    intros pagenr pagedata Hget. by destruct (Hres _ _ Hget).
  - intros pagenr pagedata Hget.
    destruct (Hres _ _ Hget) as (Hs & e & He & Hp & ->).
    exists e. split_and!; [done..|].
    intros e' He' Ht. destruct (Hseen _ _ Hs) as [_ Hlow].
    by apply Hlow.
  - intros e He. destruct (Hdone _ He) as [pagenr Hs].
    destruct (Hseen _ _ Hs) as ((pagedata & Hget & Ht) & Hlow).
    exists pagenr, pagedata. split_and!; [done..|]. by apply Hlow.
Qed.

(** C3 (as amended).  An entry whose title was already seen with a
    strictly lower page number is skipped: [result] and [seen] stay as
    they are.  When the title was seen with the very same page number the
    entry is not skipped: the earlier page is taken out and the later
    entry is stored under that number. *)
Theorem normalize_entry_seen_lower_or_equal :
  ∀ (result : odict Z page) (seen : gmap string Z) (e : entry) (old : Z),
    seen !! entry_title e = Some old ->
    (old < entry_pagenr e ->
     normalize_entry (result, seen) e = Some (result, seen))
    ∧ (old = entry_pagenr e ->
       is_Some (OrderedDict.get old result) ->
       ∃ result',
         normalize_entry (result, seen) e = Some (result', seen)
         ∧ OrderedDict.get old result' = Some (page_of_entry e)).
Proof.
  intros result seen e old Hold. unfold normalize_entry. rewrite Hold. split.
  - intros Hlt. by rewrite decide_True.
  - intros -> Hkept. rewrite decide_False by lia.
    destruct (del_is_Some _ _ Hkept) as [result1 ->].
    eexists. split.
    + f_equal. f_equal. rewrite insert_delete_eq. by apply insert_id.
    + rewrite get_set. by rewrite decide_True.
Qed.

Lemma normalize_entry_seen_lower_or_equal_witness :
  let e := Entry "T" 5 ["b"] "r2" in
  let result := [(3, Page "T" "a" "r1")] in
  let seen : gmap string Z := {[ "T" := 3 ]} in
  normalize_entry (result, seen) e = Some (result, seen).
Proof.
  intros e result seen.
  apply (normalize_entry_seen_lower_or_equal result seen e 3);
    [reflexivity|simpl; lia].
Defined.

(** C3 (as stated) fails when the two page numbers are equal: the later
    entry replaces the earlier one. *)
Lemma normalize_equal_pagenr_counterexample :
  normalize_data
    [("101", [Entry "T" 5 ["a"] "r1"; Entry "T" 5 ["b"] "r2"])]
  = Some [(5, Page "T" "b" "r2")]
  ∧ ¬ (∀ (result : odict Z page) (seen : gmap string Z) (e : entry) (old : Z),
         seen !! entry_title e = Some old ->
         old ≤ entry_pagenr e ->
         normalize_entry (result, seen) e = Some (result, seen)).
Proof.
  split; [by vm_compute|]. intros H.
  specialize (H [(5, Page "T" "a" "r1")] {[ "T" := 5 ]}
                (Entry "T" 5 ["b"] "r2") 5 eq_refl ltac:(simpl; lia)).
  vm_compute in H. discriminate H.
Qed.

(** C6.  Whenever [normalize_data] returns a snapshot, no two of its
    entries share a title; and it does return one for every input in
    which no page number stands under two different titles. *)
Theorem normalize_data_titles_unique :
  ∀ data : odict string (list entry),
    (∀ result, normalize_data data = Some result -> NoDup (titles_of result))
    ∧ (one_title_per_pagenr (entries_of data) ->
       ∃ result, normalize_data data = Some result
                 ∧ NoDup (titles_of result)).
Proof.
  intros data. split.
  - intros result. rewrite normalize_data_entries.
    destruct (fold_raise normalize_entry ([], ∅) (entries_of data))
      as [[result' seen]|] eqn:Hfold; [|done].
    intros [= <-]. apply (seen_agrees_titles (result', seen)).
    eapply seen_agrees_fold; [done|].
    split; [apply NoDup_nil_2|done].
  - intros Hone.
    destruct (normalize_data_lowest data Hone) as (result & ? & ? & _).
    eauto.
Qed.

Lemma normalize_data_titles_unique_witness :
  NoDup (titles_of [(6, Page "U" "b" "r2"); (3, Page "T" "c" "r3")]).
Proof.
  apply (proj1 (normalize_data_titles_unique
                  [("101", [Entry "T" 5 ["a"] "r1"; Entry "U" 6 ["b"] "r2"]);
                   ("102", [Entry "T" 3 ["c"] "r3"])])).
  vm_compute. reflexivity.
Defined.

(** C7 (as amended).  In a snapshot in which no page number stands under
    two different titles, of two entries that share a title the one with
    the larger page number is never kept: the title is kept once, under
    the lowest page number it carries anywhere in the input.  When the
    two entries are the only ones of their title, what is kept is the
    entry with the smaller page number, wherever the two stand in the
    input. *)
Theorem normalize_data_keeps_lower :
  ∀ (data : odict string (list entry)) (e1 e2 : entry),
    one_title_per_pagenr (entries_of data) ->
    e1 ∈ entries_of data ->
    e2 ∈ entries_of data ->
    entry_title e1 = entry_title e2 ->
    entry_pagenr e1 < entry_pagenr e2 ->
    ∃ result,
      normalize_data data = Some result
      ∧ OrderedDict.get (entry_pagenr e2) result = None
      ∧ (∃ e, e ∈ entries_of data
              ∧ entry_title e = entry_title e1
              ∧ entry_pagenr e ≤ entry_pagenr e1
              ∧ (∀ e', e' ∈ entries_of data ->
                       entry_title e' = entry_title e1 ->
                       entry_pagenr e ≤ entry_pagenr e')
              ∧ OrderedDict.get (entry_pagenr e) result
                = Some (page_of_entry e)
              ∧ ∀ pagenr pagedata,
                  OrderedDict.get pagenr result = Some pagedata ->
                  title pagedata = entry_title e1 ->
                  pagenr = entry_pagenr e)
      ∧ ((∀ e, e ∈ entries_of data -> entry_title e = entry_title e1 ->
               e = e1 ∨ e = e2) ->
         OrderedDict.get (entry_pagenr e1) result = Some (page_of_entry e1)
         ∧ ∀ pagenr pagedata,
             OrderedDict.get pagenr result = Some pagedata ->
             title pagedata = entry_title e1 ->
             pagenr = entry_pagenr e1 ∧ pagedata = page_of_entry e1).
Proof.
  intros data e1 e2 Hone H1 H2 Ht Hlt.
  destruct (normalize_data_lowest data Hone)
    as (result & Hres & Hnd & Hkept & Hall).
  exists result. split; [done|].
  (* the page kept for the title, and the entry it comes from *)
  destruct (Hall e1 H1) as (pagenr0 & pagedata0 & Hget0 & Htitle0 & Hle0).
  destruct (Hkept _ _ Hget0) as (e0 & He0 & Hp0 & -> & Hlow0).
  simpl in Htitle0. subst pagenr0.
  assert (Honce : ∀ pagenr pagedata,
    OrderedDict.get pagenr result = Some pagedata ->
    title pagedata = entry_title e1 ->
    pagenr = entry_pagenr e0 ∧ pagedata = page_of_entry e0).
  { intros pagenr pagedata Hget Htitle.
    destruct (Hkept _ _ Hget) as (e & He & Hp & -> & Hlow).
    simpl in Htitle.
    assert (pagenr = entry_pagenr e0) as Heq.
    { pose proof (Hlow e0 He0 ltac:(congruence)).
      pose proof (Hlow0 e He ltac:(congruence)). lia. }
    split; [done|]. rewrite Heq in Hget. congruence. }
  split_and!.
  - destruct (OrderedDict.get (entry_pagenr e2) result) as [pagedata|] eqn:Hget;
      [|done].
    destruct (Hkept _ _ Hget) as (e & He & Hp & -> & _).
    assert (entry_title e = entry_title e1) as Htitle
      by (rewrite Ht; by apply Hone).
    destruct (Honce _ _ Hget Htitle) as [Hp2 _]. lia.
  - exists e0. split_and!; [done..| | |].
    + intros e' He' Ht'. apply Hlow0; [done|congruence].
    + done.
    + intros pagenr pagedata Hget Htitle.
      by destruct (Honce _ _ Hget Htitle).
  - intros Honly.
    assert (e0 = e1) as ->.
    { destruct (Honly e0 He0 Htitle0) as [->| ->]; [done|lia]. }
    split; [done|]. intros pagenr pagedata Hget Htitle.
    by destruct (Honce _ _ Hget Htitle).
Qed.

Lemma normalize_data_keeps_lower_witness :
  let e1 := Entry "T" 3 ["c"] "r3" in
  let e2 := Entry "T" 5 ["a"] "r1" in
  let data := [("101", [e2; Entry "U" 6 ["b"] "r2"]); ("102", [e1])] in
  ∃ result,
    normalize_data data = Some result
    ∧ OrderedDict.get 5 result = None
    ∧ OrderedDict.get 3 result = Some (page_of_entry e1).
Proof.
  intros e1 e2 data.
  destruct (normalize_data_keeps_lower data e1 e2)
    as (result & Hres & Hgone & _ & Hkept).
  - intros a b Ha Hb. vm_compute in Ha, Hb.
    repeat (apply elem_of_cons in Ha as [->|Ha]);
      repeat (apply elem_of_cons in Hb as [->|Hb]);
      try (by apply elem_of_nil in Ha); try (by apply elem_of_nil in Hb);
      simpl; intros; (reflexivity || lia).
  - vm_compute. apply list_elem_of_further, list_elem_of_further,
      list_elem_of_here.
  - vm_compute. apply list_elem_of_here.
  - reflexivity.
  - simpl. lia.
  - exists result. split_and!; [done..|]. apply Hkept.
    intros a Ha. vm_compute in Ha.
    repeat (apply elem_of_cons in Ha as [->|Ha]);
      try (by apply elem_of_nil in Ha); simpl; intros;
      (by left) || (by right) || done.
Defined.

(** C7 (as stated) fails when another title stands under the lower page
    number: that page then holds the other title's entry. *)
Lemma normalize_shared_pagenr_counterexample :
  let e1 := Entry "T" 3 ["c"] "r3" in
  let e2 := Entry "T" 5 ["a"] "r1" in
  let data := [("101", [e2; e1; Entry "U" 3 ["b"] "r2"])] in
  normalize_data data = Some [(3, Page "U" "b" "r2")]
  ∧ e1 ∈ entries_of data ∧ e2 ∈ entries_of data
  ∧ entry_title e1 = entry_title e2
  ∧ entry_pagenr e1 < entry_pagenr e2
  ∧ ¬ (∃ result,
         normalize_data data = Some result
         ∧ OrderedDict.get (entry_pagenr e1) result = Some (page_of_entry e1)).
Proof.
  intros e1 e2 data. split_and!.
  - by vm_compute.
  - vm_compute. apply list_elem_of_further, list_elem_of_here.
  - vm_compute. apply list_elem_of_here.
  - reflexivity.
  - simpl. lia.
  - intros (result & Hres & Hget). vm_compute in Hres.
    injection Hres as <-. vm_compute in Hget. discriminate Hget.
Qed.

(** ** Fuzzy matcher *)

Lemma count_word_insert (result : gmap string Z) (word : string) :
  count_word result word =
    <[PyStr.lower word := default 0 (result !! PyStr.lower word) + 1]> result.
Proof.
  unfold count_word.
  destruct (result !! PyStr.lower word) as [count|] eqn:E.
  - by rewrite E.
  - by rewrite lookup_insert_eq, insert_insert_eq.
Qed.

Lemma count_word_positive (result : gmap string Z) (word : string) :
  map_Forall (λ _ count, 0 < count) result ->
  map_Forall (λ _ count, 0 < count) (count_word result word)
  ∧ count_word result word ≠ ∅.
Proof.
  intros Hpos. rewrite count_word_insert. split; [|apply insert_non_empty].
  apply map_Forall_insert_2; [|done].
  destruct (result !! PyStr.lower word) as [count|] eqn:E; simpl; [|lia].
  specialize (Hpos _ _ E). simpl in Hpos. lia.
Qed.

Lemma re_split_words_not_nil (cur : string) (in_sep : bool) (s : string) :
  PyStr.re_split_words cur in_sep s ≠ [].
Proof.
  revert cur in_sep. induction s as [|c s IH]; intros cur in_sep; simpl.
  - done.
  - destruct (PyStr.is_word_sep c); [destruct in_sep|]; auto.
Qed.

Lemma generate_word_map_positive (text : string) :
  map_Forall (λ _ count, 0 < count) (generate_word_map text)
  ∧ generate_word_map text ≠ ∅.
Proof.
  unfold generate_word_map.
  pose proof (re_split_words_not_nil EmptyString false text) as Hne.
  destruct (PyStr.re_split_words EmptyString false text) as [|w words];
    [done|]. clear Hne. simpl.
  assert (H0 : map_Forall (λ (_ : string) (count : Z), 0 < count)
                 (∅ : gmap string Z))
    by apply map_Forall_empty.
  apply (count_word_positive _ w) in H0.
  revert H0. generalize (count_word ∅ w).
  induction words as [|w' words IH]; intros m [Hpos Hne]; simpl; [done|].
  apply IH. by apply count_word_positive.
Qed.

Lemma map_sum_counts_positive (m : gmap string Z) :
  map_Forall (λ _ count, 0 < count) m -> m ≠ ∅ ->
  0 < map_sum (λ _ count, count) m.
Proof.
  intros Hpos Hne. unfold map_sum.
  assert (Hl : Forall (λ item : string * Z, 0 < item.2) (map_to_list m)).
  { apply Forall_forall. intros [word count] Hin.
    apply elem_of_map_to_list in Hin. by apply (Hpos word). }
  assert (Hnil : map_to_list m ≠ []) by (by rewrite map_to_list_empty_iff).
  revert Hl Hnil. generalize (map_to_list m). intros l Hl.
  assert (Hge : 0 ≤ foldr (λ (item : string * Z) acc, item.2 + acc) 0 l).
  { induction Hl; simpl; lia. }
  destruct Hl as [|item l Hitem Hl]; [done|]. intros _. simpl.
  assert (0 ≤ foldr (λ (item : string * Z) acc, item.2 + acc) 0 l).
  { clear Hge. induction Hl; simpl; lia. }
  lia.
Qed.

(** The final division of [compare_word_maps] cannot fail on two
    generated word maps. *)
Lemma compare_generated_word_maps (text1 text2 : string) :
  ∃ r, compare_word_maps (generate_word_map text1) (generate_word_map text2)
       = Returns r.
Proof.
  rewrite compare_word_maps_sums. cbv zeta.
  destruct (generate_word_map_positive text1) as [Hp1 Hn1].
  destruct (generate_word_map_positive text2) as [Hp2 Hn2].
  pose proof (map_sum_counts_positive _ Hp1 Hn1).
  pose proof (map_sum_counts_positive _ Hp2 Hn2).
  assert (Hb : 0 ≤ overlap_same (generate_word_map text1)
                     (generate_word_map text2)
               ≤ overlap_total (generate_word_map text1)
                   (generate_word_map text2)).
  { apply overlap_same_bounds; intros word count Hw.
    - specialize (Hp1 _ _ Hw). simpl in *. lia.
    - specialize (Hp2 _ _ Hw). simpl in *. lia. }
  rewrite ratio_ge_90_bounded; [eauto|done|unfold overlap_total; lia].
Qed.

Lemma word_map_when_needed_generated (map1 : option (gmap string Z))
  (data : page) :
  map1 = None ∨ map1 = Some (generate_word_map (text data)) ->
  word_map_when_needed map1 data = generate_word_map (text data).
Proof.
  intros [-> | ->]; simpl; [done|]. by case_decide.
Qed.

(** [find_matching_page] never raises and returns the first candidate,
    in iteration order, that has the title (Kort nieuws apart) or
    reaches the overlap. *)
Lemma find_matching_loop_first (data : page) (map1 : option (gmap string Z))
  (items : odict Z page) :
  map1 = None ∨ map1 = Some (generate_word_map (text data)) ->
  find_matching_loop data map1 items = Returns (first_match data items).
Proof.
  unfold first_match. revert map1.
  induction items as [|[pagenr pagedata] items IH]; intros map1 Hmap1; simpl.
  - done.
  - destruct (bool_decide (title pagedata = title data)
              && negb (kort_nieuws (title data))) eqn:Htitle.
    { rewrite decide_True; [done|]. unfold candidate_matches; simpl.
      by rewrite Htitle. }
    rewrite word_map_when_needed_generated by done.
    assert (Hc : candidate_matches data pagedata
                 = overlap_reached data pagedata).
    { unfold candidate_matches; simpl. by rewrite Htitle. }
    unfold overlap_reached in Hc.
    destruct (compare_generated_word_maps (text data) (text pagedata))
      as [[[comparison overlap] total] Hcmp].
    rewrite Hcmp in *. destruct comparison.
    + rewrite decide_True by done. done.
    + rewrite decide_False by (rewrite Hc; done). rewrite IH by auto.
      by destruct (list_find _ items) as [[i item]|].
Qed.

Lemma find_matching_page_first (opts : options) (data : page)
  (page_map : odict Z page) :
  find_matching_page opts data page_map = Returns (first_match data page_map).
Proof. apply find_matching_loop_first. by left. Qed.

Lemma first_match_cons (data : page) (pagenr : Z) (pagedata : page)
  (items : odict Z page) :
  first_match data ((pagenr, pagedata) :: items) =
    if candidate_matches data pagedata then Some pagenr
    else first_match data items.
Proof.
  unfold first_match. simpl.
  destruct (candidate_matches data pagedata); simpl; [done|].
  by destruct (list_find _ items) as [[i item]|].
Qed.

Lemma first_match_app (data : page) (items1 items2 : odict Z page) :
  first_match data (items1 ++ items2) =
    match first_match data items1 with
    | Some pagenr => Some pagenr
    | None => first_match data items2
    end.
Proof.
  induction items1 as [|[pagenr pagedata] items1 IH]; [done|].
  rewrite <-app_comm_cons, !first_match_cons.
  by destruct (candidate_matches data pagedata).
Qed.

(** C1 (as amended).  For an old entry whose title is not one of the two
    Kort nieuws titles, and a candidate of the newer snapshot with
    exactly that title, [find_matching_page] returns the page number of
    the first candidate, in iteration order, that has the title or
    reaches the 90% overlap: the exact-title candidate itself when no
    candidate before it matches, and otherwise the first one before it
    that does. *)
Theorem find_matching_page_exact_title :
  ∀ (opts : options) (data : page) (before : odict Z page) (pagenr : Z)
    (candidate : page) (after : odict Z page),
    kort_nieuws (title data) = false ->
    title candidate = title data ->
    find_matching_page opts data (before ++ (pagenr, candidate) :: after)
    = Returns (Some (default pagenr (first_match data before))).
Proof.
  intros opts data before pagenr candidate after Hkort Htitle.
  rewrite find_matching_page_first, first_match_app, first_match_cons.
  destruct (first_match data before); [done|]. simpl.
  unfold candidate_matches. rewrite Hkort, bool_decide_eq_true_2 by done.
  done.
Qed.

Lemma find_matching_page_exact_title_witness :
  find_matching_page (Options "" "" false None None false false)
    (Page "Weather" "Sun tomorrow" "")
    [(150, Page "Sports" "Goal. Goal" ""); (151, Page "Weather" "Rain" "")]
  = Returns (Some 151).
Proof.
  apply (find_matching_page_exact_title
           (Options "" "" false None None false false)
           (Page "Weather" "Sun tomorrow" "")
           [(150, Page "Sports" "Goal. Goal" "")] 151
           (Page "Weather" "Rain" "") []);
    reflexivity.
Defined.

(** C1 (as stated) fails: a candidate that stands before the exact-title
    candidate and reaches the overlap is returned instead. *)
Lemma find_matching_page_overlap_first_counterexample :
  let opts := Options "" "" false None None false false in
  let data := Page "Weather" "Sun tomorrow" "" in
  let page_map := [(151, Page "Forecast" "Sun tomorrow" "");
                   (152, Page "Weather" "Rain" "")] in
  kort_nieuws (title data) = false
  ∧ OrderedDict.get 152 page_map = Some (Page "Weather" "Rain" "")
  ∧ find_matching_page opts data page_map = Returns (Some 151)
  ∧ find_matching_page opts data page_map ≠ Returns (Some 152).
Proof.
  intros opts data page_map.
  assert (H : find_matching_page opts data page_map = Returns (Some 151))
    by (by vm_compute).
  split_and!; [reflexivity|reflexivity|done|]. rewrite H. discriminate.
Qed.

(** ** Diff generator *)

Lemma remove_extra_loop_adding (result lines : list string) :
  remove_extra_loop true result lines = result ++ map PyStr.rstrip lines.
Proof.
  revert result. induction lines as [|line lines IH]; intros result; simpl.
  - by rewrite app_nil_r.
  - rewrite IH. by rewrite <-app_assoc.
Qed.

Lemma remove_extra_loop_waiting (lines : list string) :
  remove_extra_loop false [] lines =
    drop_leading_empty (map PyStr.rstrip lines).
Proof.
  induction lines as [|line lines IH]; simpl; [done|].
  destruct (PyStr.rstrip line) as [|c rest] eqn:E; simpl; [done|].
  by rewrite remove_extra_loop_adding.
Qed.

Lemma remove_extra_spaces_strip (lines : list string) :
  remove_extra_spaces lines = strip_trailing_blank lines.
Proof.
  unfold remove_extra_spaces, strip_trailing_blank.
  by rewrite remove_extra_loop_waiting, map_rev.
Qed.

Section grouping.
Import Difflib.
Variable n : Z.
Hypothesis n_nonneg : 0 ≤ n.

Lemma grouping_loop_context (group codes : list opcode) :
  (∀ c, head (group ++ codes) = Some c -> is_equal c = true -> span c ≤ n) ->
  (∀ c, last (group ++ codes) = Some c -> is_equal c = true -> span c ≤ n) ->
  Forall (λ c, is_equal c = true -> span c ≤ n + n) group ->
  Forall (context_within n) (grouping_loop n group codes).
Proof.
  revert group.
  induction codes as [|[[[[tag i1] i2] j1] j2] rest IH];
    intros group Hhead Hlast Hmid; simpl.
  - rewrite app_nil_r in *. destruct group as [|c group]; [constructor|].
    destruct (only_equal (c :: group)); constructor; [|constructor].
    by split_and!.
  - destruct (bool_decide (tag = Equal) && (n + n <? i2 - i1)) eqn:Hbig.
    + apply andb_true_iff in Hbig as [->%bool_decide_eq_true Hspan%Z.ltb_lt].
      constructor.
      * split_and!.
        -- intros c Hc Heq. destruct group as [|c0 group].
           ++ injection Hc as <-. simpl. lia.
           ++ apply Hhead; [|done]. by injection Hc as <-.
        -- intros c. rewrite last_snoc. intros [= <-] _. simpl. lia.
        -- apply Forall_app. split; [done|].
           constructor; [|constructor]. intros _. simpl. lia.
      * apply IH.
        -- intros c [= <-] _. simpl. lia.
        -- intros c Hc. destruct rest as [|c1 rest].
           ++ injection Hc as <-. intros _. simpl. lia.
           ++ apply Hlast. rewrite last_app_cons, last_cons_cons.
              by rewrite <-Hc.
        -- constructor; [|constructor]. intros _. simpl. lia.
    + apply IH.
      * intros c. rewrite <-app_assoc. apply Hhead.
      * intros c. rewrite <-app_assoc. apply Hlast.
      * apply Forall_app. split; [done|]. constructor; [|constructor].
        simpl. intros ->%bool_decide_eq_true. simpl in Hbig.
        apply Z.ltb_ge in Hbig. lia.
Qed.

Lemma fix_first_head (codes : list opcode) (c : opcode) :
  head (fix_first n codes) = Some c -> is_equal c = true -> span c ≤ n.
Proof.
  destruct codes as [|[[[[tag i1] i2] j1] j2] rest]; [done|].
  destruct tag; simpl; intros [= <-]; simpl; (done || (intros _; lia)).
Qed.

Lemma head_removelast {A} (l : list A) :
  removelast l ≠ [] -> head (removelast l) = head l.
Proof. destruct l as [|a [|b l]]; done. Qed.

Lemma fix_last_head_last (codes : list opcode) :
  (∀ c, head codes = Some c -> is_equal c = true -> span c ≤ n) ->
  (∀ c, head (fix_last n codes) = Some c -> is_equal c = true -> span c ≤ n)
  ∧ (∀ c, last (fix_last n codes) = Some c -> is_equal c = true -> span c ≤ n).
Proof.
  intros Hhead. unfold fix_last.
  destruct (last codes) as [[[[[tag i1] i2] j1] j2]|] eqn:Hlast.
  - destruct tag; try (split; [done|]; intros c; rewrite Hlast;
                       by intros [= <-]).
    split.
    + intros c. destruct (removelast codes) as [|c0 rest] eqn:Hrm.
      * intros [= <-] _. simpl. lia.
      * intros Hc. apply Hhead. rewrite <-head_removelast by (by rewrite Hrm).
        by rewrite Hrm.
    + intros c. rewrite last_snoc. intros [= <-] _. simpl. lia.
  - split; [done|]. intros c. by rewrite Hlast.
Qed.

Lemma get_grouped_opcodes_context (codes : list opcode) :
  Forall (context_within n) (get_grouped_opcodes n codes).
Proof.
  unfold get_grouped_opcodes.
  set (codes' := match codes with [] => [(Equal, 0, 1, 0, 1)] | _ => codes end).
  destruct (fix_last_head_last (fix_first n codes') (fix_first_head codes'))
    as [Hhead Hlast].
  apply grouping_loop_context; [done|done|constructor].
Qed.

Lemma grouping_loop_exact (H L : opcode -> Prop) (group codes : list opcode) :
  (∀ c, head (group ++ codes) = Some c -> H c ∨ context_piece n c) ->
  (∀ c, last (group ++ codes) = Some c -> L c ∨ context_piece n c) ->
  Forall (λ g, (∀ c, head g = Some c -> H c ∨ context_piece n c)
               ∧ (∀ c, last g = Some c -> L c ∨ context_piece n c))
    (grouping_loop n group codes).
Proof.
  revert group.
  induction codes as [|[[[[tag i1] i2] j1] j2] rest IH];
    intros group Hhead Hlast; simpl.
  - rewrite app_nil_r in *. destruct group as [|c group]; [constructor|].
    destruct (only_equal (c :: group)); constructor; [|constructor]. done.
  - destruct (bool_decide (tag = Equal) && (n + n <? i2 - i1)) eqn:Hbig.
    + apply andb_true_iff in Hbig as [->%bool_decide_eq_true Hspan%Z.ltb_lt].
      constructor.
      * split.
        -- intros c Hc. destruct group as [|c0 group].
           ++ injection Hc as <-. right. split; [done|]. simpl. lia.
           ++ apply Hhead. by injection Hc as <-.
        -- intros c. rewrite last_snoc. intros [= <-]. right.
           split; [done|]. simpl. lia.
      * apply IH.
        -- intros c [= <-]. right. split; [done|]. simpl. lia.
        -- intros c Hc. destruct rest as [|c1 rest].
           ++ injection Hc as <-. right. split; [done|]. simpl. lia.
           ++ apply Hlast. rewrite last_app_cons, last_cons_cons.
              by rewrite <-Hc.
    + apply IH.
      * intros c. rewrite <-app_assoc. apply Hhead.
      * intros c. rewrite <-app_assoc. apply Hlast.
Qed.

Lemma fix_first_exact (codes : list opcode) (c : opcode) :
  Forall (λ c, is_equal c = true -> n ≤ span c) codes ->
  head (fix_first n codes) = Some c ->
  (is_equal c = false ∧ head codes = Some c) ∨ context_piece n c.
Proof.
  intros Hspans.
  destruct codes as [|[[[[tag i1] i2] j1] j2] rest]; [done|].
  apply Forall_cons in Hspans as [Hspan _].
  destruct tag; simpl; intros [= <-]; try (by left).
  right. split; [done|]. simpl in *. specialize (Hspan eq_refl). lia.
Qed.

Lemma fix_first_spans (codes : list opcode) :
  Forall (λ c, is_equal c = true -> n ≤ span c) codes ->
  Forall (λ c, is_equal c = true -> n ≤ span c) (fix_first n codes).
Proof.
  intros Hspans.
  destruct codes as [|[[[[tag i1] i2] j1] j2] rest]; [done|].
  destruct tag; try done. simpl.
  apply Forall_cons in Hspans as [Hspan Hrest]. constructor; [|done].
  intros _. simpl in *. specialize (Hspan eq_refl). lia.
Qed.

Lemma fix_first_last (codes : list opcode) (c : opcode) :
  last (fix_first n codes) = Some c ->
  is_equal c = false ->
  last codes = Some c.
Proof.
  destruct codes as [|[[[[tag i1] i2] j1] j2] rest]; [done|].
  destruct tag; try done. simpl. destruct rest as [|c1 rest].
  - by intros [= <-].
  - by rewrite !last_cons_cons.
Qed.

Lemma last_removelast_snoc {A} (l : list A) (x : A) :
  last l = Some x -> l = removelast l ++ [x].
Proof.
  intros Hlast. destruct l as [|a l] using rev_ind; [done|].
  rewrite last_snoc in Hlast. injection Hlast as ->.
  by rewrite removelast_last.
Qed.

Lemma fix_last_exact (codes : list opcode) :
  Forall (λ c, is_equal c = true -> n ≤ span c) codes ->
  (∀ c, head (fix_last n codes) = Some c ->
        (is_equal c = false ∧ head codes = Some c)
        ∨ context_piece n c
        ∨ head codes = Some c)
  ∧ (∀ c, last (fix_last n codes) = Some c ->
          (is_equal c = false ∧ last codes = Some c) ∨ context_piece n c).
Proof.
  intros Hspans. unfold fix_last.
  destruct (last codes) as [[[[[tag i1] i2] j1] j2]|] eqn:Hlast.
  - assert (Hin : (tag, i1, i2, j1, j2) ∈ codes).
    { rewrite (last_removelast_snoc _ _ Hlast). set_solver. }
    pose proof (proj1 (Forall_forall _ _) Hspans _ Hin) as Hspan.
    destruct tag; try (split; [by auto|]; intros c; rewrite Hlast;
                       intros [= <-]; by left).
    specialize (Hspan eq_refl). simpl in Hspan. split.
    + intros c. destruct (removelast codes) as [|c0 rest] eqn:Hrm.
      * intros [= <-]. right. left. split; [done|]. simpl. lia.
      * intros Hc. right. right.
        rewrite <-head_removelast by (by rewrite Hrm). by rewrite Hrm.
    + intros c. rewrite last_snoc. intros [= <-]. right.
      split; [done|]. simpl. lia.
  - split; [by auto|]. intros c. by rewrite Hlast.
Qed.

Lemma get_grouped_opcodes_exact (codes : list opcode) :
  n = 1 ->
  Forall (λ c, is_equal c = true -> n ≤ span c) codes ->
  Forall (context_exact n codes) (get_grouped_opcodes n codes).
Proof.
  intros Hn Hspans. destruct codes as [|c0 codes0] eqn:Hcodes.
  { subst n. by vm_compute. }
  rewrite <-Hcodes in *. unfold get_grouped_opcodes.
  replace (match codes with [] => [(Equal, 0, 1, 0, 1)] | _ => codes end)
    with codes by (by rewrite Hcodes).
  destruct (fix_last_exact (fix_first n codes) (fix_first_spans _ Hspans))
    as [Hhead Hlast].
  eapply Forall_impl.
  - apply (grouping_loop_exact
             (λ c, is_equal c = false ∧ head codes = Some c)
             (λ c, is_equal c = false ∧ last codes = Some c) []).
    + intros c Hc. simpl in Hc.
      destruct (Hhead c Hc) as [[Hne Hc']|[Hpiece|Hc']].
      * destruct (fix_first_exact codes c Hspans Hc') as [?|?]; auto.
      * by right.
      * by destruct (fix_first_exact codes c Hspans Hc') as [?|?]; auto.
    + intros c Hc. simpl in Hc.
      destruct (Hlast c Hc) as [[Hne Hc']|Hpiece]; [|by right].
      left. split; [done|]. by apply fix_first_last.
  - intros g [Hg1 Hg2]. split.
    + intros c Hc. destruct (Hg1 c Hc) as [[Hne Hc']|[Heq Hspan]].
      * by rewrite Hne.
      * by rewrite Heq.
    + intros c Hc. destruct (Hg2 c Hc) as [[Hne Hc']|[Heq Hspan]].
      * by rewrite Hne.
      * by rewrite Heq.
Qed.

Lemma changes_app (codes1 codes2 : list opcode) :
  changes (codes1 ++ codes2) = changes codes1 ++ changes codes2.
Proof. apply List.filter_app. Qed.

Lemma grouping_loop_changes (group codes : list opcode) :
  changes (concat (grouping_loop n group codes)) = changes (group ++ codes).
Proof.
  revert group.
  induction codes as [|[[[[tag i1] i2] j1] j2] rest IH]; intros group; simpl.
  - rewrite app_nil_r. destruct group as [|c group]; [done|].
    destruct (only_equal (c :: group)) eqn:Honly.
    + destruct c as [[[[tag i1] i2] j1] j2].
      by destruct tag, group.
    + simpl. by rewrite app_nil_r.
  - destruct (bool_decide (tag = Equal) && (n + n <? i2 - i1)) eqn:Hbig.
    + apply andb_true_iff in Hbig as [->%bool_decide_eq_true _].
      cbn [concat]. rewrite changes_app, IH, !changes_app. simpl.
      by rewrite app_nil_r.
    + rewrite IH. by rewrite <-app_assoc.
Qed.

Lemma fix_first_changes (codes : list opcode) :
  changes (fix_first n codes) = changes codes.
Proof.
  destruct codes as [|[[[[tag i1] i2] j1] j2] rest]; [done|].
  by destruct tag.
Qed.

Lemma fix_last_changes (codes : list opcode) :
  changes (fix_last n codes) = changes codes.
Proof.
  unfold fix_last.
  destruct (last codes) as [[[[[tag i1] i2] j1] j2]|] eqn:Hlast; [|done].
  destruct tag; try done.
  rewrite (last_removelast_snoc _ _ Hlast) at 2.
  by rewrite !changes_app.
Qed.

Lemma get_grouped_opcodes_changes (codes : list opcode) :
  changes (concat (get_grouped_opcodes n codes)) = changes codes.
Proof.
  unfold get_grouped_opcodes. rewrite grouping_loop_changes. simpl.
  rewrite fix_last_changes, fix_first_changes. by destruct codes.
Qed.

End grouping.

Lemma opcodes_loop_spans (i j : Z) (blocks : list (Z * Z * Z)) :
  Forall (λ block : Z * Z * Z, 0 ≤ block.2) blocks ->
  Forall (λ c, Difflib.is_equal c = true -> 1 ≤ Difflib.span c)
    (Difflib.opcodes_loop i j blocks).
Proof.
  intros Hblocks. revert i j.
  induction Hblocks as [|[[ai bj] size] blocks Hsize _ IH]; intros i j;
    [constructor|].
  cbn [Difflib.opcodes_loop]. cbv zeta. apply Forall_app. split.
  - repeat case_decide; repeat constructor; done.
  - apply Forall_app. split; [|apply IH].
    case_decide; repeat constructor. intros _. simpl in *. lia.
Qed.

(** Two equal sequences give no group, hence no line. *)
Lemma unified_diff_identical (sm : Difflib.matcher) (a : list string)
  (fromfile tofile fromfiledate tofiledate lineterm : string) :
  Difflib.matches_identical sm ->
  Difflib.unified_diff sm a a fromfile tofile fromfiledate tofiledate 1
    lineterm = [].
Proof.
  intros Hsm. unfold Difflib.unified_diff. rewrite Hsm. cbv zeta.
  set (len := Z.of_nat (length a)).
  assert (Hgroups :
    Difflib.get_grouped_opcodes 1
      (Difflib.get_opcodes
         ((if decide (len = 0) then [] else [(0, 0, len)]) ++ [(len, len, 0)]))
    = []).
  { unfold Difflib.get_opcodes. case_decide as Hlen; simpl.
    - rewrite Hlen. reflexivity.
    - assert (0 < len) by (unfold len in *; lia).
      rewrite !decide_False by lia. simpl.
      unfold Difflib.get_grouped_opcodes, Difflib.fix_first, Difflib.fix_last.
      simpl.
      destruct (Z.ltb_spec (1 + 1)
                  (Z.min (0 + len) (Z.max 0 (0 + len - 1) + 1)
                   - Z.max 0 (0 + len - 1))); [lia|].
      reflexivity. }
  by rewrite Hgroups.
Qed.

Lemma prefix_blocks_identical : Difflib.matches_identical prefix_blocks.
Proof.
  intros a. unfold prefix_blocks.
  assert (common_prefix_length a a = Z.of_nat (length a)) as ->; [|done].
  induction a as [|x a IH]; simpl; [done|].
  rewrite decide_True by done. rewrite IH. lia.
Qed.

Lemma prefix_blocks_sizes : sizes_not_negative prefix_blocks.
Proof.
  intros a b. unfold prefix_blocks.
  assert (Hk : 0 ≤ common_prefix_length a b).
  { revert b. induction a as [|x a IH]; intros [|y b]; simpl; try done.
    case_decide; [|done]. specialize (IH b). lia. }
  apply Forall_app. split; [|by repeat constructor].
  case_decide; by repeat constructor.
Qed.

(** C8.  [generate_diff] splits each text on newlines, strips every line
    on the right and drops the empty lines at the end; two texts that
    agree line for line after that give the empty diff (as ["x\n\n\n"]
    and ["x\n"], which both become [["x"]]).  Otherwise the diff is the
    two headers and the hunks of [get_grouped_opcodes] with [n=1]: every
    change of the opcodes is in a hunk, a hunk shows at most two
    unchanged lines between two changes, and it begins and ends with
    exactly one unchanged line, the only exceptions being a first hunk
    that begins with the first opcode, when that is a change, and a last
    hunk that ends with the last opcode, when that is a change. *)
Theorem generate_diff_trailing_blank :
  ∀ (X : externals) (opts : options) (text1 text2 : string),
    let list1 := remove_extra_spaces (PyStr.split_lines text1) in
    let list2 := remove_extra_spaces (PyStr.split_lines text2) in
    let codes := Difflib.get_opcodes (get_matching_blocks X list1 list2) in
    let groups := Difflib.get_grouped_opcodes 1 codes in
    list1 = strip_trailing_blank (PyStr.split_lines text1)
    ∧ list2 = strip_trailing_blank (PyStr.split_lines text2)
    ∧ (Difflib.matches_identical (get_matching_blocks X) ->
       list1 = list2 ->
       generate_diff X opts text1 text2 = EmptyString)
    ∧ generate_diff X opts text1 text2 =
        PyStr.join nl
          (Difflib.unified_lines list1 list2
             "Vorige versie" "Huidige versie"
             (create_timestamp (opt_prev opts))
             (create_timestamp (opt_next opts)) EmptyString groups)
    ∧ changes (concat groups) = changes codes
    ∧ Forall (context_within 1) groups
    ∧ (sizes_not_negative (get_matching_blocks X) ->
       Forall (context_exact 1 codes) groups)
    ∧ remove_extra_spaces (PyStr.split_lines ("x" +:+ nl +:+ nl +:+ nl))
      = ["x"]
    ∧ remove_extra_spaces (PyStr.split_lines ("x" +:+ nl)) = ["x"].
Proof.
  intros X opts text1 text2 list1 list2 codes groups.
  split_and!; try apply remove_extra_spaces_strip; try reflexivity.
  - intros Hsm Heq. unfold generate_diff. fold list1 list2. rewrite Heq.
    by rewrite unified_diff_identical.
  - apply get_grouped_opcodes_changes.
  - apply get_grouped_opcodes_context. lia.
  - intros Hsizes. apply get_grouped_opcodes_exact; [lia|done|].
    apply opcodes_loop_spans, Hsizes.
Qed.

Lemma generate_diff_trailing_blank_witness :
  let X := Externals prefix_blocks (λ _ raw, raw) (λ text, text) in
  let opts := Options "pages/20240102-030405.json"
                "pages/20240102-040506.json" false None None false false in
  let list1 := remove_extra_spaces
                 (PyStr.split_lines ("a" +:+ nl +:+ "b" +:+ nl +:+ "c")) in
  let list2 := remove_extra_spaces
                 (PyStr.split_lines ("a" +:+ nl +:+ "b" +:+ nl +:+ "X")) in
  let codes := Difflib.get_opcodes (prefix_blocks list1 list2) in
  generate_diff X opts ("x" +:+ nl +:+ nl +:+ nl) ("x" +:+ nl) = EmptyString
  ∧ Forall (context_exact 1 codes) (Difflib.get_grouped_opcodes 1 codes).
Proof.
  intros X opts list1 list2 codes. split.
  - destruct (generate_diff_trailing_blank X opts
                ("x" +:+ nl +:+ nl +:+ nl) ("x" +:+ nl))
      as (_ & _ & Hsame & _).
    apply Hsame; [apply prefix_blocks_identical|reflexivity].
  - destruct (generate_diff_trailing_blank X opts
                ("a" +:+ nl +:+ "b" +:+ nl +:+ "c")
                ("a" +:+ nl +:+ "b" +:+ nl +:+ "X"))
      as (_ & _ & _ & _ & _ & _ & Hexact & _).
    apply Hexact, prefix_blocks_sizes.
Defined.

(** A diff with its one line of context: the last of three lines
    changes, the line before it is shown, the first one is not. *)
Lemma generate_diff_one_line_of_context :
  generate_diff (Externals prefix_blocks (λ _ raw, raw) (λ text, text))
    (Options "pages/20240102-030405.json" "pages/20240102-040506.json"
       false None None false false)
    ("a" +:+ nl +:+ "b" +:+ nl +:+ "c") ("a" +:+ nl +:+ "b" +:+ nl +:+ "X")
  = PyStr.join nl
      ["--- Vorige versie" +:+ Difflib.tab +:+ "2024-01-02 03:04";
       "+++ Huidige versie" +:+ Difflib.tab +:+ "2024-01-02 04:05";
       "@@ -2,2 +2,2 @@"; " b"; "-c"; "+X"].
Proof. by vm_compute. Qed.

(** ** Failure statuses *)

Section failure_statuses.
Variable opts : options.

Lemma keeps_file_ret {A} (a : A) : keeps_file opts (mret a).
Proof.
  intros srv w w' o [= <- <-]. split; [done|].
  exists []. rewrite app_nil_r. split; [done|]. left. constructor.
Qed.

Lemma keeps_file_sys_exit {A} (code : Z) : keeps_file opts (@sys_exit A code).
Proof.
  intros srv w w' o [= <- <-]. split; [done|].
  exists []. rewrite app_nil_r. split; [done|]. left. constructor.
Qed.

Lemma keeps_file_raise {A} (e : exn) : keeps_file opts (@raise A e).
Proof.
  intros srv w w' o [= <- <-]. split; [done|].
  exists []. rewrite app_nil_r. split; [done|]. left. constructor.
Qed.

Lemma keeps_file_or_raise {A} (e : exn) (x : option A) :
  keeps_file opts (or_raise e x).
Proof. destruct x; [apply keeps_file_ret|apply keeps_file_raise]. Qed.

Lemma keeps_file_run_pure {A} (r : answer A) :
  keeps_file opts (run_pure r).
Proof. destruct r; [apply keeps_file_ret|apply keeps_file_raise]. Qed.

Lemma keeps_file_load : keeps_file opts load_post_state.
Proof.
  intros srv w w' o [= <- <-]. split; [done|].
  exists []. rewrite app_nil_r. split; [done|]. left. constructor.
Qed.

Lemma upload_failure_last_ok {A} (new : list (request * response)) (a : A) :
  upload_failure_last opts new (Ok a) ->
  Forall (λ call, ¬ failed_upload opts call) new.
Proof. intros [H|(? & ? & _ & _ & _ & [])]. done. Qed.

Lemma upload_failure_last_app {A B} (new1 new2 : list (request * response))
  (a : A) (o : outcome B) :
  upload_failure_last opts new1 (Ok a) ->
  upload_failure_last opts new2 o ->
  upload_failure_last opts (new1 ++ new2) o.
Proof.
  intros H1%upload_failure_last_ok [H2|(earlier & call & -> & He & Hc & Ho)].
  - left. by apply Forall_app.
  - right. exists (new1 ++ earlier), call. rewrite app_assoc.
    split_and!; [done| |done|done]. by apply Forall_app.
Qed.

Lemma run_bind_eq {A B} (m : Run A) (f : A -> Run B) srv w :
  (m ≫= f) srv w =
    match m srv w with
    | (w', Ok a) => f a srv w'
    | (w', Exit code) => (w', Exit code)
    | (w', Raise e) => (w', Raise e)
    end.
Proof. reflexivity. Qed.

Lemma keeps_file_bind {A B} (m : Run A) (f : A -> Run B) :
  keeps_file opts m -> (∀ a, keeps_file opts (f a)) ->
  keeps_file opts (m ≫= f).
Proof.
  intros Hm Hf srv w w' o. rewrite run_bind_eq.
  destruct (m srv w) as [w1 o1] eqn:E1.
  destruct (Hm _ _ _ _ E1) as (Hfile1 & new1 & Hcalls1 & Hnew1).
  destruct o1 as [a|code|e].
  - intros E2. destruct (Hf a _ _ _ _ E2) as (Hfile2 & new2 & Hcalls2 & Hnew2).
    split; [congruence|]. exists (new1 ++ new2).
    split; [by rewrite Hcalls2, Hcalls1, app_assoc|].
    by eapply upload_failure_last_app.
  - intros [= <- <-]. split; [done|]. exists new1. split; [done|].
    destruct Hnew1 as [?|(earlier & call & ? & ? & ? & ?)]; [by left|].
    right. by exists earlier, call.
  - intros [= <- <-]. split; [done|]. exists new1. split; [done|].
    destruct Hnew1 as [?|(earlier & call & ? & ? & ? & [])]. by left.
Qed.

Lemma writes_file_at_end_bind {A B} (m : Run A) (f : A -> Run B) :
  keeps_file opts m -> (∀ a, writes_file_at_end opts (f a)) ->
  writes_file_at_end opts (m ≫= f).
Proof.
  intros Hm Hf srv w w' o. rewrite run_bind_eq.
  destruct (m srv w) as [w1 o1] eqn:E1.
  destruct (Hm _ _ _ _ E1) as (Hfile1 & new1 & Hcalls1 & Hnew1).
  destruct o1 as [a|code|e].
  - intros E2. destruct (Hf a _ _ _ _ E2) as (Hfile2 & new2 & Hcalls2 & Hnew2).
    split; [intros Hno; rewrite Hfile2 by done; done|]. exists (new1 ++ new2).
    split; [by rewrite Hcalls2, Hcalls1, app_assoc|].
    by eapply upload_failure_last_app.
  - intros [= <- <-]. split; [done|]. exists new1. split; [done|].
    destruct Hnew1 as [?|(earlier & call & ? & ? & ? & ?)]; [by left|].
    right. by exists earlier, call.
  - intros [= <- <-]. split; [done|]. exists new1. split; [done|].
    destruct Hnew1 as [?|(earlier & call & ? & ? & ? & [])]. by left.
Qed.

Lemma keeps_file_fold {S A} (body : S -> A -> Run S) (l : list A) (s : S) :
  (∀ s x, keeps_file opts (body s x)) -> keeps_file opts (fold_run body s l).
Proof.
  intros Hbody. revert s. induction l as [|x l IH]; intros s; simpl.
  - apply keeps_file_ret.
  - apply keeps_file_bind; [apply Hbody|apply IH].
Qed.

Lemma append_inj_l (s a b : string) : s +:+ a = s +:+ b -> a = b.
Proof. induction s as [|c s IH]; simpl; [done|]. intros [= H]. auto. Qed.

Lemma statuses_not_media (rest : string) :
  api (opt_server opts) ("/api/v1/statuses" +:+ rest)
  ≠ api (opt_server opts) "/api/v2/media".
Proof.
  unfold api. intros H. do 2 apply append_inj_l in H. discriminate H.
Qed.

(** A request to a statuses endpoint: whatever its status, it is not a
    failed upload. *)
Lemma keeps_file_statuses_request (method rest : string)
  (headers : list (string * string)) (fields : list (string * field)) :
  keeps_file opts
    (http_request method (api (opt_server opts) ("/api/v1/statuses" +:+ rest))
       headers fields).
Proof.
  intros srv w w' o [= <- <-]. split; [done|]. eexists. split; [done|].
  left. constructor; [|constructor]. intros [Hurl _]. simpl in Hurl.
  by apply statuses_not_media in Hurl.
Qed.

(** The upload with its status test: a failure status ends the run. *)
Lemma keeps_file_upload (method : string) (headers : list (string * string))
  (fields : list (string * field)) :
  keeps_file opts
    (result ← http_request method (api (opt_server opts) "/api/v2/media")
                headers fields;
     if decide (400 ≤ status result) then sys_exit 1
     else json_loads_id result).
Proof.
  intros srv w w' o. rewrite run_bind_eq. simpl.
  set (req := Request method _ headers fields).
  case_decide as Hstatus.
  - intros [= <- <-]. split; [done|]. exists [(req, srv (calls w) req)].
    split; [done|]. right. exists [], (req, srv (calls w) req).
    split; [done|]. split; [apply Forall_nil_2|]. by split.
  - intros Hrest.
    assert (Hk : keeps_file opts (json_loads_id (srv (calls w) req))).
    { apply keeps_file_bind; [apply keeps_file_or_raise|].
      intros ?. apply keeps_file_or_raise. }
    destruct (Hk _ _ _ _ Hrest) as (Hfile & new & Hcalls & Hnew).
    split; [done|]. exists ([(req, srv (calls w) req)] ++ new).
    split; [by rewrite Hcalls; simpl; rewrite <-app_assoc|].
    destruct Hnew as [Hnew|(earlier & call & -> & He & Hc & Ho)].
    + left. constructor; [|done]. intros [_ ?]. simpl in *. lia.
    + right. exists ((req, srv (calls w) req) :: earlier), call.
      split_and!; [done| |done|done]. constructor; [|done].
      intros [_ ?]. simpl in *. lia.
Qed.

End failure_statuses.

Ltac keeps_file_step :=
  first
    [ apply keeps_file_ret
    | apply keeps_file_sys_exit
    | apply keeps_file_raise
    | apply keeps_file_or_raise
    | apply keeps_file_run_pure
    | apply keeps_file_load
    | apply keeps_file_upload
    | apply (keeps_file_statuses_request _ _ EmptyString)
    | apply (keeps_file_statuses_request _ _ (String "/" _))
    | apply keeps_file_fold; intros
    | apply keeps_file_bind; [|intros] ].

Ltac keeps_file_pairs :=
  repeat match goal with
         | x : (_ * _)%type |- _ => destruct x
         end.

Section posting_keeps_file.
Variables (X : externals) (opts : options) (auth : list (string * string)).

Lemma keeps_file_generate_attachment pagenr raw_content text_content timestamp :
  keeps_file opts
    (generate_attachment X opts auth pagenr raw_content text_content timestamp).
Proof. apply keeps_file_upload. Qed.

Lemma keeps_file_generate_diff_attachment text timestamp :
  keeps_file opts (generate_diff_attachment X opts auth text timestamp).
Proof. apply keeps_file_upload. Qed.

Lemma keeps_file_json_loads_id result : keeps_file opts (json_loads_id result).
Proof. unfold json_loads_id, json_loads. repeat keeps_file_step. Qed.

Lemma keeps_file_create_post title pagenr raw_content text_content timestamp :
  keeps_file opts
    (create_post X opts auth title pagenr raw_content text_content timestamp).
Proof.
  unfold create_post.
  keeps_file_step; [apply keeps_file_generate_attachment|].
  keeps_file_step; [keeps_file_step|].
  keeps_file_step; [apply keeps_file_json_loads_id|]. keeps_file_step.
Qed.

Lemma keeps_file_get_media_data post_id :
  keeps_file opts (get_media_data opts auth post_id).
Proof.
  unfold get_media_data, json_loads.
  keeps_file_step; [keeps_file_step|].
  keeps_file_step; [keeps_file_step|].
  destruct (json_media_attachments _); repeat keeps_file_step.
Qed.

Lemma keeps_file_create_update post_id old_pagenr old_pagedata new_pagenr
  new_pagedata timestamp :
  keeps_file opts
    (create_update X opts auth post_id old_pagenr old_pagedata new_pagenr
       new_pagedata timestamp).
Proof.
  unfold create_update. case_decide.
  - keeps_file_step; [apply keeps_file_get_media_data|].
    keeps_file_step; [keeps_file_step|]. keeps_file_step.
  - keeps_file_step; [apply keeps_file_generate_attachment|].
    keeps_file_step; [apply keeps_file_generate_diff_attachment|].
    keeps_file_step; [keeps_file_step|].
    keeps_file_step; [apply keeps_file_json_loads_id|]. keeps_file_step.
Qed.

Lemma keeps_file_mark_deleted post_id title :
  keeps_file opts (mark_deleted opts auth post_id title).
Proof.
  unfold mark_deleted.
  keeps_file_step; [apply keeps_file_get_media_data|].
  keeps_file_step; [keeps_file_step|]. keeps_file_step.
Qed.

Lemma keeps_file_reconcile_deleted ls pagenr pagedata :
  keeps_file opts (reconcile_deleted opts auth ls pagenr pagedata).
Proof.
  unfold reconcile_deleted. keeps_file_step.
  - destruct (opt_dryrun opts); [keeps_file_step|].
    keeps_file_step; [apply keeps_file_mark_deleted|]. keeps_file_step.
  - keeps_file_pairs. keeps_file_step.
Qed.

Lemma keeps_file_reconcile_changed ls pagenr pagedata pagenr_match
  new_pagedata :
  keeps_file opts
    (reconcile_changed X opts auth ls pagenr pagedata pagenr_match
       new_pagedata).
Proof.
  unfold reconcile_changed. keeps_file_step.
  - destruct (truthy _), (opt_dryrun opts); try keeps_file_step.
    + apply keeps_file_create_update.
    + keeps_file_pairs. keeps_file_step.
    + apply keeps_file_create_post.
    + keeps_file_pairs. keeps_file_step.
  - keeps_file_pairs. repeat keeps_file_step.
Qed.

Lemma keeps_file_reconcile_prev ls item :
  keeps_file opts (reconcile_prev X opts auth ls item).
Proof.
  unfold reconcile_prev. destruct item as [pagenr pagedata].
  keeps_file_step; [keeps_file_step|].
  destruct (no_match _); [apply keeps_file_reconcile_deleted|].
  keeps_file_step; [keeps_file_step|].
  destruct (_ && _); [repeat keeps_file_step|].
  apply keeps_file_reconcile_changed.
Qed.

Lemma keeps_file_reconcile_new acc item :
  keeps_file opts (reconcile_new X opts auth acc item).
Proof.
  unfold reconcile_new. destruct acc as [state pages_new].
  destruct item as [pagenr pagedata].
  destruct (opt_post opts); [|keeps_file_step].
  keeps_file_step.
  - destruct (opt_dryrun opts); [keeps_file_step|].
    keeps_file_step; [apply keeps_file_create_post|].
    keeps_file_pairs. keeps_file_step.
  - keeps_file_pairs. keeps_file_step.
Qed.

End posting_keeps_file.

Lemma writes_file_at_end_main (X : externals) (opts : options)
  (prev_json next_json : odict string (list entry)) :
  writes_file_at_end opts (main X opts prev_json next_json).
Proof.
  unfold main.
  apply writes_file_at_end_bind; [keeps_file_step|intros state].
  apply writes_file_at_end_bind; [keeps_file_step|intros prev_list].
  apply writes_file_at_end_bind; [keeps_file_step|intros next_list].
  apply writes_file_at_end_bind;
    [apply keeps_file_fold, keeps_file_reconcile_prev|intros ls].
  apply writes_file_at_end_bind;
    [apply keeps_file_fold, keeps_file_reconcile_new|intros [state' new]].
  intros srv w w' o [= <- <-]. split; [by intros []|].
  exists []. rewrite app_nil_r. split; [done|]. left. constructor.
Qed.

Lemma collect_media_ids (ids acc : list string) (srv : server) (w : world) :
  fold_run (λ (media_ids : list string) (entry : option string),
              entry_id ← or_raise KeyError entry;
              mret (media_ids ++ [entry_id]))
    acc (Some <$> ids) srv w
  = (w, Ok (acc ++ ids)).
Proof.
  revert acc. induction ids as [|id ids IH]; intros acc; simpl.
  - by rewrite app_nil_r.
  - rewrite run_bind_eq. simpl. rewrite IH. by rewrite <-app_assoc.
Qed.

Lemma get_media_data_ok (opts : options) (auth : list (string * string))
  (post_id : option string) (srv : server) (w : world) (body : reply_json)
  (media_ids : list string) :
  let req := Request "GET"
               (api (opt_server opts) ("/api/v1/statuses/" +:+ fmt post_id))
               auth [] in
  data (srv (calls w) req) = Some body ->
  default [] (json_media_attachments body) = Some <$> media_ids ->
  get_media_data opts auth post_id srv w
  = ({| calls := calls w ++ [(req, srv (calls w) req)];
        state_file := state_file w |},
     Ok media_ids).
Proof.
  intros req Hbody Hmedia. unfold get_media_data.
  rewrite run_bind_eq. simpl. fold req.
  rewrite run_bind_eq. unfold json_loads. rewrite Hbody. simpl.
  destruct (json_media_attachments body) as [media_data|]; simpl in Hmedia.
  - rewrite Hmedia. by rewrite collect_media_ids.
  - by destruct media_ids.
Qed.

Lemma mark_deleted_ok (opts : options) (auth : list (string * string))
  (post_id : option string) (title : string) (srv : server) (w : world)
  (body : reply_json) (media_ids : list string) :
  let url := api (opt_server opts) ("/api/v1/statuses/" +:+ fmt post_id) in
  let fetch := Request "GET" url auth [] in
  let fetched := srv (calls w) fetch in
  let retract :=
    Request "PUT" url auth
      ([("status", Text ("[Verwijderd] " +:+ title +:+ nl +:+ "#teletekst"));
        ("language", Text "nl")] ++ media_fields media_ids) in
  let retracted := srv (calls w ++ [(fetch, fetched)]) retract in
  data fetched = Some body ->
  default [] (json_media_attachments body) = Some <$> media_ids ->
  mark_deleted opts auth post_id title srv w
  = ({| calls := calls w ++ [(fetch, fetched); (retract, retracted)];
        state_file := state_file w |},
     Ok (status retracted)).
Proof.
  intros url fetch fetched retract retracted Hbody Hmedia.
  unfold mark_deleted. rewrite run_bind_eq.
  rewrite (get_media_data_ok _ _ _ _ _ body media_ids) by done.
  rewrite run_bind_eq. simpl. by rewrite <-app_assoc.
Qed.

Lemma upload_failure_last_split {A} (opts : options)
  (new earlier later : list (request * response)) (call : request * response)
  (o : outcome A) :
  upload_failure_last opts new o ->
  new = earlier ++ call :: later ->
  failed_upload opts call ->
  later = [] ∧ exits_with o 1.
Proof.
  intros [Hall|(earlier' & call' & -> & Hall & Hcall & Ho)] Hnew Hfailed.
  - subst new. apply Forall_app in Hall as [_ Hall].
    apply Forall_cons in Hall as [Hno _]. done.
  - destruct later as [|x later _] using rev_ind; [done|]. exfalso.
    rewrite app_comm_cons, app_assoc in Hnew.
    apply app_inj_tail in Hnew as [-> _].
    apply Forall_app in Hall as [_ Hall].
    apply Forall_cons in Hall as [Hno _]. done.
Qed.

(** C4 (as amended).  In every run of [main]: when the run does not end
    well the state file is as it was before; and a media upload that
    comes back with a status of 400 or more is the last call of the run,
    which ends at once with exit status 1, the state file untouched.
    The statuses of the calls of a retraction, and of an update of a post
    whose text did not change, are not looked at: whatever the fetch of
    the attachments and the update come back with, and whatever
    attachments the post has, the status of the update is handed back
    to the reconciler.  (The fetch has to come back with a JSON body,
    its attachments with their ids, or [get_media_data] raises.) *)
Theorem failed_upload_aborts_run :
  (∀ (X : externals) (opts : options)
     (prev_json next_json : odict string (list entry))
     (srv : server) (w w' : world) (o : outcome report),
     main X opts prev_json next_json srv w = (w', o) ->
     (¬ is_ok o -> state_file w' = state_file w)
     ∧ ∃ new,
         calls w' = calls w ++ new
         ∧ ∀ earlier call later,
             new = earlier ++ call :: later ->
             failed_upload opts call ->
             later = [] ∧ exits_with o 1 ∧ state_file w' = state_file w)
  ∧ (∀ (opts : options) (auth : list (string * string))
       (post_id : option string) (title : string) (srv : server) (w : world)
       (media_ids : list string),
       let fetch := Request "GET"
                      (api (opt_server opts)
                         ("/api/v1/statuses/" +:+ fmt post_id)) auth [] in
       let fetched := fetched_reply opts auth post_id srv w in
       let retract := retract_request opts auth post_id title media_ids in
       let retracted := srv (calls w ++ [(fetch, fetched)]) retract in
       lists_media fetched media_ids ->
       mark_deleted opts auth post_id title srv w
       = ({| calls := calls w ++ [(fetch, fetched); (retract, retracted)];
             state_file := state_file w |},
          Ok (status retracted)))
  ∧ (∀ (X : externals) (opts : options) (auth : list (string * string))
       (post_id : string) (old_pagenr new_pagenr : Z)
       (old_pagedata new_pagedata : page) (timestamp : string)
       (srv : server) (w : world) (media_ids : list string),
       let fetch := Request "GET"
                      (api (opt_server opts) ("/api/v1/statuses/" +:+ post_id))
                      auth [] in
       let fetched := fetched_reply opts auth (Some post_id) srv w in
       let update := update_request opts auth post_id new_pagenr new_pagedata
                       media_ids in
       let updated := srv (calls w ++ [(fetch, fetched)]) update in
       text old_pagedata = text new_pagedata ->
       lists_media fetched media_ids ->
       create_update X opts auth post_id old_pagenr old_pagedata new_pagenr
         new_pagedata timestamp srv w
       = ({| calls := calls w ++ [(fetch, fetched); (update, updated)];
             state_file := state_file w |},
          Ok (post_id, status updated))).
Proof.
  split_and!.
  - intros X opts prev_json next_json srv w w' o Hrun.
    destruct (writes_file_at_end_main X opts prev_json next_json _ _ _ _ Hrun)
      as (Hfile & new & Hcalls & Hnew).
    split; [done|]. exists new. split; [done|].
    intros earlier call later Hsplit Hfailed.
    destruct (upload_failure_last_split _ _ _ _ _ _ Hnew Hsplit Hfailed)
      as [-> Hexit].
    split_and!; [done..|]. apply Hfile.
    destruct o; [destruct Hexit|intros []|destruct Hexit].
  - intros opts auth post_id title srv w media_ids fetch fetched retract
      retracted (body & Hbody & Hmedia).
    by apply (mark_deleted_ok opts auth post_id title srv w body media_ids).
  - intros X opts auth post_id old_pagenr new_pagenr old_pagedata new_pagedata
      timestamp srv w media_ids fetch fetched update updated Htext
      (body & Hbody & Hmedia).
    unfold create_update. rewrite decide_True by done.
    rewrite run_bind_eq.
    rewrite (get_media_data_ok _ _ _ _ _ body media_ids Hbody) by done.
    rewrite run_bind_eq. simpl. by rewrite <-app_assoc.
Qed.

Lemma failed_upload_aborts_run_witness :
  let opts := sample_options true false in
  let w := World [] (Some weather_state) in
  let run := main sample_externals opts [] weather_snapshot
               (replies_with 500) w in
  let not_found := answers 404 (ReplyJson None (Some [Some "m1"])) in
  (run.2 = Exit 1
   ∧ (¬ is_ok run.2 -> state_file run.1 = state_file w)
   ∧ ∃ new,
       calls run.1 = calls w ++ new
       ∧ ∀ earlier call later,
           new = earlier ++ call :: later ->
           failed_upload opts call ->
           later = [] ∧ exits_with run.2 1
           ∧ state_file run.1 = state_file w)
  ∧ (mark_deleted opts [] (Some "id1") "Weather" not_found w).2 = Ok 404
  ∧ (create_update sample_externals opts [] "id1" 150
       (Page "Weather" "Sun tomorrow" "<b>Sun</b>") 151
       (Page "Weather" "Sun tomorrow" "<b>Sun</b>") "2 jan" not_found w).2
    = Ok ("id1", 404).
Proof.
  intros opts w run not_found.
  destruct failed_upload_aborts_run as (Hmain & Hretract & Hupdate).
  split; [|split].
  - split; [by vm_compute|].
    apply (Hmain sample_externals opts [] weather_snapshot (replies_with 500)
             w run.1 run.2).
    apply surjective_pairing.
  - rewrite (Hretract opts [] (Some "id1") "Weather" not_found w ["m1"]);
      [reflexivity|].
    by exists (ReplyJson None (Some [Some "m1"])).
  - rewrite (Hupdate sample_externals opts [] "id1" 150 151
               (Page "Weather" "Sun tomorrow" "<b>Sun</b>")
               (Page "Weather" "Sun tomorrow" "<b>Sun</b>") "2 jan"
               not_found w ["m1"]); [reflexivity|reflexivity|].
    by exists (ReplyJson None (Some [Some "m1"])).
Defined.

(** C4 (as stated) fails for the retraction: its two calls come back
    with 404, the run goes on, ends well and rewrites the state file. *)
Lemma failed_retraction_counterexample :
  let opts := sample_options true false in
  let w := World [] (Some weather_state) in
  let run := main sample_externals opts weather_snapshot []
               (replies_with 404) w in
  map (λ call, (req_method call.1, status call.2)) (calls run.1)
  = [("GET", 404); ("PUT", 404)]
  ∧ run.2 = Ok {| pages_del := ["#150 'Weather' - Post ID id1 (404)"];
                  pages_new := []; pages_alt := [] |}
  ∧ state_file run.1 = Some ∅
  ∧ state_file run.1 ≠ state_file w.
Proof.
  intros opts w run.
  assert (Hfile : state_file run.1 = Some ∅) by (by vm_compute).
  split_and!; [by vm_compute|by vm_compute|done|].
  rewrite Hfile. intros [= H].
Qed.

(** ** Retraction *)

(** C10.  Outside dry-run, an old page without a match and without a
    record id in the state is still retracted: the attachment fetch and
    the update go to [.../api/v1/statuses/None], and the report line
    carries the id [None] with the status the update came back with.
    (The fetch has to come back with a JSON body, its attachments with
    their ids, or [get_media_data] raises.) *)
Theorem retraction_without_record_id :
  ∀ (X : externals) (opts : options) (auth : list (string * string))
    (ls : loop_state) (pagenr : Z) (pagedata : page) (srv : server)
    (w : world) (body : reply_json) (media_ids : list string),
    let url := api (opt_server opts) "/api/v1/statuses/None" in
    let fetch := Request "GET" url auth [] in
    let fetched := srv (calls w) fetch in
    let retract :=
      Request "PUT" url auth
        ([("status",
           Text ("[Verwijderd] " +:+ title pagedata +:+ nl +:+ "#teletekst"));
          ("language", Text "nl")] ++ media_fields media_ids) in
    let retracted := srv (calls w ++ [(fetch, fetched)]) retract in
    opt_dryrun opts = false ->
    find_matching_page opts pagedata (ls_next ls) = Returns None ->
    get_state (ls_state ls) (title pagedata) (KInt pagenr) = None ->
    data fetched = Some body ->
    default [] (json_media_attachments body) = Some <$> media_ids ->
    reconcile_prev X opts auth ls (pagenr, pagedata) srv w
    = ({| calls := calls w ++ [(fetch, fetched); (retract, retracted)];
          state_file := state_file w |},
       Ok {| ls_state := ls_state ls;
             ls_next := ls_next ls;
             ls_alt := ls_alt ls;
             ls_del := ls_del ls
                       ++ [deleted_line pagenr pagedata None
                             (PyStr.of_Z (status retracted))] |}).
Proof.
  intros X opts auth ls pagenr pagedata srv w body media_ids
    url fetch fetched retract retracted Hdry Hfind Hstate Hbody Hmedia.
  unfold reconcile_prev. rewrite run_bind_eq, Hfind. simpl.
  unfold reconcile_deleted. rewrite Hstate, Hdry.
  rewrite !run_bind_eq.
  rewrite (mark_deleted_ok _ _ None _ _ _ body media_ids) by done.
  simpl. by rewrite clear_state_absent.
Qed.

Lemma retraction_without_record_id_witness :
  let opts := sample_options true false in
  let auth := [("Authorization", "Bearer secret")] in
  let url := "https://example.social/api/v1/statuses/None" in
  let reply := Response 404 (Some (ReplyJson None None)) in
  reconcile_prev sample_externals opts auth (LoopState ∅ [] [] [])
    (150, Page "Weather" "Sun tomorrow" "<b>Sun</b>")
    (replies_with 404) (World [] None)
  = (World
       [(Request "GET" url auth [], reply);
        (Request "PUT" url auth
           [("status", Text ("[Verwijderd] Weather" +:+ nl +:+ "#teletekst"));
            ("language", Text "nl")], reply)]
       None,
     Ok (LoopState ∅ [] [] ["#150 'Weather' - Post ID None (404)"])).
Proof.
  intros opts auth url reply.
  apply (retraction_without_record_id sample_externals opts auth
           (LoopState ∅ [] [] []) 150
           (Page "Weather" "Sun tomorrow" "<b>Sun</b>")
           (replies_with 404) (World [] None) (ReplyJson None None) []);
    reflexivity.
Defined.

(** ** Dry run *)

Lemma run_bind_ok {A B} (m : Run A) (f : A -> Run B) (srv : server)
  (w w' : world) (b : B) :
  (m ≫= f) srv w = (w', Ok b) ->
  ∃ a w1, m srv w = (w1, Ok a) ∧ f a srv w1 = (w', Ok b).
Proof.
  rewrite run_bind_eq. destruct (m srv w) as [w1 [a|code|e]]; [|done|done].
  intros H. by exists a, w1.
Qed.

Lemma or_raise_ok {A} (e : exn) (o : option A) (srv : server) (w w' : world)
  (a : A) :
  or_raise e o srv w = (w', Ok a) -> o = Some a ∧ w' = w.
Proof. destruct o; [by intros [= -> ->]|done]. Qed.

Lemma first_match_get (data : page) (items : odict Z page) (pagenr : Z) :
  first_match data items = Some pagenr ->
  is_Some (OrderedDict.get pagenr items).
Proof.
  induction items as [|[p pagedata] items IH]; [done|].
  rewrite first_match_cons. simpl.
  destruct (candidate_matches data pagedata).
  - intros [= ->]. rewrite decide_True by done. eauto.
  - intros Hrest. case_decide; [eauto|auto].
Qed.

Lemma classified_functional (opts : options)
  (prev_list next_list : odict Z page)
  (deleted deleted' : list (Z * page))
  (changed changed' : list (Z * page * Z * page)) (new new' : odict Z page) :
  classified opts prev_list next_list deleted changed new ->
  classified opts prev_list next_list deleted' changed' new' ->
  deleted' = deleted ∧ changed' = changed ∧ new' = new.
Proof.
  intros H. revert deleted' changed' new'.
  induction H as
    [next_list
    |pagenr pagedata prev_list next_list found deleted changed new
       Hfind Hno _ IH
    |pagenr pagedata prev_list next_list new_pagedata next_list'
       deleted changed new Hfind Hnz Hget Htitle Htext Hdel _ IH
    |pagenr pagedata prev_list next_list pagenr_match new_pagedata next_list'
       deleted changed new Hfind Hnz Hget Hdiff Hdel _ IH];
    intros deleted' changed' new' H'; inversion H'; subst.
  - done.
  - destruct (IH _ _ _ ltac:(eassumption)) as (-> & -> & ->). done.
  - rewrite Hfind in *. simplify_eq. simpl in Hno.
    by rewrite bool_decide_eq_false_2 in Hno.
  - rewrite Hfind in *. simplify_eq. simpl in Hno.
    by rewrite bool_decide_eq_false_2 in Hno.
  - rewrite Hfind in *. simplify_eq.
    match goal with
    | H : no_match _ = true |- _ =>
        simpl in H; by rewrite bool_decide_eq_false_2 in H
    end.
  - simplify_eq. by destruct (IH _ _ _ ltac:(eassumption)) as (-> & -> & ->).
  - rewrite Hfind in *. simplify_eq.
    match goal with H : ¬ _ |- _ => by destruct H end.
  - rewrite Hfind in *. simplify_eq.
    match goal with
    | H : no_match _ = true |- _ =>
        simpl in H; by rewrite bool_decide_eq_false_2 in H
    end.
  - rewrite Hfind in *. simplify_eq. by destruct Hdiff.
  - rewrite Hfind in *. simplify_eq.
    by destruct (IH _ _ _ ltac:(eassumption)) as (-> & -> & ->).
Qed.

Section dry_run.
Variables (X : externals) (opts : options) (auth : list (string * string)).
Hypothesis dry : opt_dryrun opts = true.
Variable state : gmap string (gmap string string).

Lemma dry_reconcile_prev (ls : loop_state) (pagenr : Z) (pagedata : page)
  (srv : server) (w : world) :
  ls_state ls = state ->
  ∃ ls1,
    reconcile_prev X opts auth ls (pagenr, pagedata) srv w = (w, Ok ls1)
    ∧ ls_state ls1 = state
    ∧ ((∃ found,
          find_matching_page opts pagedata (ls_next ls) = Returns found
          ∧ no_match found = true
          ∧ ls_next ls1 = ls_next ls
          ∧ ls_alt ls1 = ls_alt ls
          ∧ ls_del ls1
            = ls_del ls ++ [dry_deleted_line state (pagenr, pagedata)])
       ∨ (∃ new_pagedata,
            find_matching_page opts pagedata (ls_next ls)
            = Returns (Some pagenr)
            ∧ pagenr ≠ 0
            ∧ OrderedDict.get pagenr (ls_next ls) = Some new_pagedata
            ∧ title pagedata = title new_pagedata
            ∧ text pagedata = text new_pagedata
            ∧ OrderedDict.del pagenr (ls_next ls) = Some (ls_next ls1)
            ∧ ls_alt ls1 = ls_alt ls
            ∧ ls_del ls1 = ls_del ls)
       ∨ (∃ pagenr_match new_pagedata,
            find_matching_page opts pagedata (ls_next ls)
            = Returns (Some pagenr_match)
            ∧ pagenr_match ≠ 0
            ∧ OrderedDict.get pagenr_match (ls_next ls) = Some new_pagedata
            ∧ ¬ (pagenr = pagenr_match
                 ∧ title pagedata = title new_pagedata
                 ∧ text pagedata = text new_pagedata)
            ∧ OrderedDict.del pagenr_match (ls_next ls) = Some (ls_next ls1)
            ∧ ls_alt ls1
              = ls_alt ls
                ++ [dry_changed_line X opts state
                      (pagenr, pagedata, pagenr_match, new_pagedata)]
            ∧ ls_del ls1 = ls_del ls)).
Proof.
  intros Hstate. unfold reconcile_prev. rewrite run_bind_eq.
  pose proof (find_matching_page_first opts pagedata (ls_next ls)) as Hfind.
  rewrite Hfind. cbn [run_pure mret run_ret].
  destruct (no_match (first_match pagedata (ls_next ls))) eqn:Hno.
  - unfold reconcile_deleted. rewrite dry, run_bind_eq. cbn [mret run_ret].
    eexists. split; [reflexivity|]. split; [done|]. left.
    eexists. split_and!; [done..|]. cbn [ls_del dry_deleted_line].
    by rewrite Hstate.
  - destruct (first_match pagedata (ls_next ls)) as [pagenr_match|] eqn:Hm;
      [|done].
    change (default 0 (Some pagenr_match)) with pagenr_match.
    assert (Hnz : pagenr_match ≠ 0).
    { simpl in Hno. by apply bool_decide_eq_false in Hno. }
    destruct (first_match_get _ _ _ Hm) as [new_pagedata Hget].
    destruct (del_is_Some (ls_next ls) pagenr_match) as [next_list Hdel];
      [eauto|].
    rewrite run_bind_eq, Hget. cbn [or_raise mret run_ret].
    destruct (bool_decide (pagenr = pagenr_match)
              && bool_decide (title pagedata = title new_pagedata)
              && bool_decide (text pagedata = text new_pagedata)) eqn:Hsame.
    + apply andb_prop in Hsame as [Hsame Htext%bool_decide_eq_true].
      apply andb_prop in Hsame
        as [<-%bool_decide_eq_true Htitle%bool_decide_eq_true].
      rewrite run_bind_eq, Hdel. cbn [or_raise mret run_ret].
      eexists. split; [reflexivity|]. split; [done|]. right. left.
      exists new_pagedata. by split_and!.
    + assert (Hdiff : ¬ (pagenr = pagenr_match
                         ∧ title pagedata = title new_pagedata
                         ∧ text pagedata = text new_pagedata)).
      { intros (E1 & E2 & E3).
        by rewrite !bool_decide_eq_true_2 in Hsame by done. }
      unfold reconcile_changed. rewrite dry, run_bind_eq.
      destruct (truthy (get_state (ls_state ls) (title pagedata)
                          (KInt pagenr))) eqn:Htruthy;
        cbn [mret run_ret]; rewrite run_bind_eq, Hdel;
        cbn [or_raise mret run_ret];
        (eexists; split; [reflexivity|]); (split; [done|]);
        right; right; exists pagenr_match, new_pagedata;
        split_and!; try done; cbn [ls_alt dry_changed_line];
        rewrite <-Hstate, Htruthy; reflexivity.
Qed.

Lemma dry_fold_reconcile_prev (prev_list : odict Z page) (ls : loop_state)
  (srv : server) (w : world) :
  ls_state ls = state ->
  ∃ deleted changed new,
    classified opts prev_list (ls_next ls) deleted changed new
    ∧ fold_run (reconcile_prev X opts auth) ls prev_list srv w
      = (w, Ok {| ls_state := state;
                  ls_next := new;
                  ls_alt := ls_alt ls
                            ++ map (dry_changed_line X opts state) changed;
                  ls_del := ls_del ls
                            ++ map (dry_deleted_line state) deleted |}).
Proof.
  revert ls. induction prev_list as [|[pagenr pagedata] prev_list IH];
    intros ls Hstate.
  - exists [], [], (ls_next ls). split; [constructor|].
    simpl. rewrite !app_nil_r. by destruct ls; simplify_eq/=.
  - cbn [fold_run]. rewrite run_bind_eq.
    destruct (dry_reconcile_prev ls pagenr pagedata srv w Hstate)
      as (ls1 & -> & Hstate1 & Hcase).
    destruct (IH ls1 Hstate1) as (deleted & changed & new & Hclass & ->).
    destruct Hcase
      as [(found & Hfind & Hno & Hnext & -> & ->)
         |[(new_pagedata & Hfind & Hnz & Hget & Htitle & Htext & Hdel
            & -> & ->)
          |(pagenr_match & new_pagedata & Hfind & Hnz & Hget & Hdiff & Hdel
            & -> & ->)]].
    + rewrite Hnext in Hclass.
      exists ((pagenr, pagedata) :: deleted), changed, new.
      split; [by eapply classified_deleted|].
      cbn [map]. by rewrite <-app_assoc.
    + exists deleted, changed, new.
      split; [by eapply classified_unchanged|done].
    + exists deleted,
        ((pagenr, pagedata, pagenr_match, new_pagedata) :: changed), new.
      split; [by eapply classified_changed|].
      cbn [map]. by rewrite <-app_assoc.
Qed.

Lemma dry_reconcile_new (pages_new : list string) (pagenr : Z)
  (pagedata : page) (srv : server) (w : world) :
  reconcile_new X opts auth (state, pages_new) (pagenr, pagedata) srv w
  = (w, Ok (state, pages_new ++ [dry_new_line opts (pagenr, pagedata)])).
Proof.
  unfold reconcile_new, dry_new_line.
  destruct (opt_post opts); [rewrite dry, run_bind_eq|]; done.
Qed.

Lemma dry_fold_reconcile_new (items : odict Z page) (pages_new : list string)
  (srv : server) (w : world) :
  fold_run (reconcile_new X opts auth) (state, pages_new) items srv w
  = (w, Ok (state, pages_new ++ map (dry_new_line opts) items)).
Proof.
  revert pages_new.
  induction items as [|[pagenr pagedata] items IH]; intros pages_new;
    cbn [fold_run].
  - simpl. by rewrite app_nil_r.
  - rewrite run_bind_eq, dry_reconcile_new, IH. simpl.
    by rewrite <-app_assoc.
Qed.

End dry_run.

Lemma classified_options (opts opts' : options)
  (prev_list next_list : odict Z page) (deleted : list (Z * page))
  (changed : list (Z * page * Z * page)) (new : odict Z page) :
  classified opts prev_list next_list deleted changed new ->
  classified opts' prev_list next_list deleted changed new.
Proof.
  induction 1;
    [constructor
    |eapply classified_deleted
    |eapply classified_unchanged
    |eapply classified_changed]; eauto.
Qed.

(** Any run of the first loop that ends well has classified the pages
    the same way, whatever the server made of the calls. *)
Lemma live_reconcile_prev (X : externals) (opts : options)
  (auth : list (string * string)) (ls ls1 : loop_state) (pagenr : Z)
  (pagedata : page) (srv : server) (w w' : world) :
  reconcile_prev X opts auth ls (pagenr, pagedata) srv w = (w', Ok ls1) ->
  (∃ found line,
     find_matching_page opts pagedata (ls_next ls) = Returns found
     ∧ no_match found = true
     ∧ ls_next ls1 = ls_next ls
     ∧ ls_alt ls1 = ls_alt ls
     ∧ ls_del ls1 = ls_del ls ++ [line]
     ∧ live_deleted_line line (pagenr, pagedata))
  ∨ (∃ new_pagedata,
       find_matching_page opts pagedata (ls_next ls) = Returns (Some pagenr)
       ∧ pagenr ≠ 0
       ∧ OrderedDict.get pagenr (ls_next ls) = Some new_pagedata
       ∧ title pagedata = title new_pagedata
       ∧ text pagedata = text new_pagedata
       ∧ OrderedDict.del pagenr (ls_next ls) = Some (ls_next ls1)
       ∧ ls_alt ls1 = ls_alt ls
       ∧ ls_del ls1 = ls_del ls)
  ∨ (∃ pagenr_match new_pagedata line,
       find_matching_page opts pagedata (ls_next ls)
       = Returns (Some pagenr_match)
       ∧ pagenr_match ≠ 0
       ∧ OrderedDict.get pagenr_match (ls_next ls) = Some new_pagedata
       ∧ ¬ (pagenr = pagenr_match
            ∧ title pagedata = title new_pagedata
            ∧ text pagedata = text new_pagedata)
       ∧ OrderedDict.del pagenr_match (ls_next ls) = Some (ls_next ls1)
       ∧ ls_alt ls1 = ls_alt ls ++ [line]
       ∧ live_changed_line X opts line
           (pagenr, pagedata, pagenr_match, new_pagedata)
       ∧ ls_del ls1 = ls_del ls).
Proof.
  unfold reconcile_prev. intros H.
  apply run_bind_ok in H as (found & w1 & Hfound & H).
  pose proof (find_matching_page_first opts pagedata (ls_next ls)) as Hfind.
  rewrite Hfind in Hfound. injection Hfound as <- <-.
  destruct (no_match (first_match pagedata (ls_next ls))) eqn:Hno.
  - left. unfold reconcile_deleted in H.
    apply run_bind_ok in H as ([result_status state'] & w2 & _ & H).
    injection H as _ <-. eexists _, _. split_and!; [done..|].
    by eexists _, _.
  - right.
    destruct (first_match pagedata (ls_next ls)) as [pagenr_match|] eqn:Hm;
      [|done].
    change (default 0 (Some pagenr_match)) with pagenr_match in H.
    assert (Hnz : pagenr_match ≠ 0).
    { simpl in Hno. by apply bool_decide_eq_false in Hno. }
    apply run_bind_ok in H as (new_pagedata & w2 & Hget & H).
    apply or_raise_ok in Hget as [Hget ->].
    destruct (bool_decide (pagenr = pagenr_match)
              && bool_decide (title pagedata = title new_pagedata)
              && bool_decide (text pagedata = text new_pagedata)) eqn:Hsame.
    + left. apply andb_prop in Hsame as [Hsame Htext%bool_decide_eq_true].
      apply andb_prop in Hsame
        as [<-%bool_decide_eq_true Htitle%bool_decide_eq_true].
      apply run_bind_ok in H as (next_list & w3 & Hdel & H).
      apply or_raise_ok in Hdel as [Hdel ->].
      injection H as _ <-. exists new_pagedata. by split_and!.
    + right.
      assert (Hdiff : ¬ (pagenr = pagenr_match
                         ∧ title pagedata = title new_pagedata
                         ∧ text pagedata = text new_pagedata)).
      { intros (E1 & E2 & E3).
        by rewrite !bool_decide_eq_true_2 in Hsame by done. }
      unfold reconcile_changed in H.
      apply run_bind_ok in H
        as ([[post_id result_status] state'] & w3 & _ & H).
      apply run_bind_ok in H as (next_list & w4 & Hdel & H).
      apply or_raise_ok in Hdel as [Hdel ->].
      injection H as _ <-. eexists pagenr_match, new_pagedata, _.
      split_and!; [done..| |done]. by eexists _, _.
Qed.

Lemma live_fold_reconcile_prev (X : externals) (opts : options)
  (auth : list (string * string)) (prev_list : odict Z page)
  (ls ls' : loop_state) (srv : server) (w w' : world) :
  fold_run (reconcile_prev X opts auth) ls prev_list srv w = (w', Ok ls') ->
  ∃ deleted changed lines_del lines_alt,
    classified opts prev_list (ls_next ls) deleted changed (ls_next ls')
    ∧ ls_del ls' = ls_del ls ++ lines_del
    ∧ Forall2 live_deleted_line lines_del deleted
    ∧ ls_alt ls' = ls_alt ls ++ lines_alt
    ∧ Forall2 (live_changed_line X opts) lines_alt changed.
Proof.
  revert ls w. induction prev_list as [|[pagenr pagedata] prev_list IH];
    intros ls w Hrun.
  - injection Hrun as _ <-. exists [], [], [], [].
    rewrite !app_nil_r. split_and!; try done; constructor.
  - cbn [fold_run] in Hrun.
    apply run_bind_ok in Hrun as (ls1 & w1 & Hstep & Hrun).
    apply IH in Hrun
      as (deleted & changed & lines_del & lines_alt & Hclass & Hdel & Hdels
          & Halt & Halts).
    apply live_reconcile_prev in Hstep
      as [(found & line & Hfind & Hno & Hnext & Ha & Hd & Hline)
         |[(new_pagedata & Hfind & Hnz & Hget & Htitle & Htext & Hdel1
            & Ha & Hd)
          |(pagenr_match & new_pagedata & line & Hfind & Hnz & Hget & Hdiff
            & Hdel1 & Ha & Hline & Hd)]].
    + rewrite Hnext in Hclass.
      exists ((pagenr, pagedata) :: deleted), changed, (line :: lines_del),
        lines_alt.
      split_and!; [by eapply classified_deleted| | |congruence|done].
      * by rewrite Hdel, Hd, <-app_assoc.
      * by constructor.
    + exists deleted, changed, lines_del, lines_alt.
      split_and!; [by eapply classified_unchanged|congruence|done
                   |congruence|done].
    + exists deleted,
        ((pagenr, pagedata, pagenr_match, new_pagedata) :: changed),
        lines_del, (line :: lines_alt).
      split_and!; [by eapply classified_changed|congruence|done | |].
      * by rewrite Halt, Ha, <-app_assoc.
      * by constructor.
Qed.

Lemma live_fold_reconcile_new (X : externals) (opts : options)
  (auth : list (string * string)) (items : odict Z page)
  (state state' : gmap string (gmap string string))
  (pages_new pages_new' : list string) (srv : server) (w w' : world) :
  fold_run (reconcile_new X opts auth) (state, pages_new) items srv w
  = (w', Ok (state', pages_new')) ->
  ∃ lines, pages_new' = pages_new ++ lines ∧ Forall2 live_new_line lines items.
Proof.
  revert state pages_new w.
  induction items as [|[pagenr pagedata] items IH];
    intros state pages_new w Hrun.
  - injection Hrun as _ _ <-. exists []. by rewrite app_nil_r.
  - cbn [fold_run] in Hrun.
    apply run_bind_ok in Hrun as ([state1 pages_new1] & w1 & Hstep & Hrun).
    apply IH in Hrun as (lines & -> & Hlines).
    assert (Hline : ∃ line, pages_new1 = pages_new ++ [line]
                            ∧ live_new_line line (pagenr, pagedata)).
    { unfold reconcile_new in Hstep. destruct (opt_post opts).
      - apply run_bind_ok in Hstep
          as ([[media_id post_id] state2] & w2 & _ & Hstep).
        injection Hstep as _ _ <-. eexists. split; [done|].
        right. by eexists _, _.
      - injection Hstep as _ _ <-. eexists. split; [done|]. by left. }
    destruct Hline as (line & -> & Hline).
    exists (line :: lines). split; [by rewrite <-app_assoc|by constructor].
Qed.

Lemma main_classified (X : externals) (opts : options)
  (prev_json next_json : odict string (list entry))
  (prev_list next_list : odict Z page) (srv : server) (w w' : world)
  (rep : report) :
  normalize_data prev_json = Some prev_list ->
  normalize_data next_json = Some next_list ->
  main X opts prev_json next_json srv w = (w', Ok rep) ->
  ∃ deleted changed new,
    classified opts prev_list next_list deleted changed new
    ∧ Forall2 live_deleted_line (pages_del rep) deleted
    ∧ Forall2 (live_changed_line X opts) (pages_alt rep) changed
    ∧ Forall2 live_new_line (pages_new rep) new.
Proof.
  intros Hprev Hnext Hrun. unfold main in Hrun. rewrite Hprev, Hnext in Hrun.
  apply run_bind_ok in Hrun as (state & w1 & _ & Hrun).
  apply run_bind_ok in Hrun as (prev_list' & w2 & [= <- <-] & Hrun).
  apply run_bind_ok in Hrun as (next_list' & w3 & [= <- <-] & Hrun).
  apply run_bind_ok in Hrun as (ls & w4 & Hfirst & Hrun).
  apply run_bind_ok in Hrun as ([state' pages_new'] & w5 & Hsecond & Hrun).
  apply run_bind_ok in Hrun as ([] & w6 & _ & Hrun).
  injection Hrun as _ <-.
  apply live_fold_reconcile_prev in Hfirst
    as (deleted & changed & lines_del & lines_alt & Hclass & Hdel & Hdels
        & Halt & Halts).
  apply live_fold_reconcile_new in Hsecond as (lines & -> & Hlines).
  exists deleted, changed, (ls_next ls). cbn in *.
  rewrite Hdel, Halt. by split_and!.
Qed.

(** C5 (as amended).  In dry-run mode [main] makes no call to the server
    and, when both snapshots normalize, ends well after writing back the
    state exactly as loaded.  The pages are classified all the same, in
    the one way there is: the report has a line for every deleted page,
    for every changed page and for every new page, in order, with
    ["<unknown>"] where a posting call would have put its answer: the
    status of a retraction or update (the record id shown is the one
    read from the state) and the media and post ids of a creation.  Any
    run on the same snapshots that ends well, dry or not, has a line for
    the same pages in the same lists.  When a snapshot does not
    normalize the run raises and nothing changes. *)
Theorem dry_run_changes_nothing :
  ∀ (X : externals) (opts : options)
    (prev_json next_json : odict string (list entry))
    (srv : server) (w : world),
    opt_dryrun opts = true ->
    let state := default ∅ (state_file w) in
    match normalize_data prev_json, normalize_data next_json with
    | Some prev_list, Some next_list =>
        ∃ deleted changed new,
          classified opts prev_list next_list deleted changed new
          ∧ (∀ deleted' changed' new',
               classified opts prev_list next_list deleted' changed' new' ->
               deleted' = deleted ∧ changed' = changed ∧ new' = new)
          ∧ main X opts prev_json next_json srv w
            = ({| calls := calls w; state_file := Some state |},
               Ok {| pages_del := map (dry_deleted_line state) deleted;
                     pages_new := map (dry_new_line opts) new;
                     pages_alt := map (dry_changed_line X opts state)
                                    changed |})
          ∧ (∀ (other : options) (srv' : server) (w0 w' : world)
               (rep : report),
               main X other prev_json next_json srv' w0 = (w', Ok rep) ->
               Forall2 live_deleted_line (pages_del rep) deleted
               ∧ Forall2 (live_changed_line X other) (pages_alt rep) changed
               ∧ Forall2 live_new_line (pages_new rep) new)
    | _, _ => main X opts prev_json next_json srv w = (w, Raise KeyError)
    end.
Proof.
  intros X opts prev_json next_json srv w Hdry state.
  destruct (normalize_data prev_json) as [prev_list|] eqn:Hprev;
    [|by unfold main; rewrite Hprev].
  destruct (normalize_data next_json) as [next_list|] eqn:Hnext;
    [|by unfold main; rewrite Hprev, Hnext].
  destruct (dry_fold_reconcile_prev X opts (auth_headers (opt_token opts))
              Hdry state prev_list
              {| ls_state := state; ls_next := next_list;
                 ls_alt := []; ls_del := [] |} srv w eq_refl)
    as (deleted & changed & new & Hclass & Hfirst).
  exists deleted, changed, new. split; [done|].
  split; [intros; by eapply classified_functional|]. split.
  - unfold main. rewrite run_bind_eq. cbn [load_post_state]. fold state.
    rewrite Hprev, Hnext. rewrite run_bind_eq. cbn [or_raise mret run_ret].
    rewrite run_bind_eq. cbn [or_raise mret run_ret].
    rewrite run_bind_eq, Hfirst.
    rewrite run_bind_eq. cbn [ls_state ls_next].
    by rewrite (dry_fold_reconcile_new X opts _ Hdry).
  - intros other srv' w0 w' rep Hrun.
    destruct (main_classified X other prev_json next_json prev_list next_list
                srv' w0 w' rep Hprev Hnext Hrun)
      as (deleted' & changed' & new' & Hclass' & Hlines).
    apply (classified_options other opts) in Hclass'.
    by destruct (classified_functional _ _ _ _ _ _ _ _ _ Hclass Hclass')
      as (-> & -> & ->).
Qed.

Lemma dry_run_changes_nothing_witness :
  let opts := sample_options true true in
  let w := World [] (Some weather_state) in
  main sample_externals opts weather_snapshot
    (sports_snapshot "Goal" "<b>Goal</b>") (replies_with 200) w
  = (w, Ok {| pages_del := ["#150 'Weather' - Post ID id1 (<unknown>)"];
              pages_new := ["#160 'Sports - Media ID <unknown>; "
                            +:+ "Post ID <unknown>"];
              pages_alt := [] |}).
Proof.
  intros opts w.
  destruct (dry_run_changes_nothing sample_externals opts weather_snapshot
              (sports_snapshot "Goal" "<b>Goal</b>") (replies_with 200) w
              eq_refl)
    as (deleted & changed & new & Hclass & Hone & Hrun & _).
  rewrite Hrun.
  destruct (Hone [(150, Page "Weather" "Sun tomorrow" "<b>Sun</b>")] []
              [(160, Page "Sports" "Goal" "<b>Goal</b>")])
    as (<- & <- & <-); [|reflexivity].
  eapply classified_deleted; [by vm_compute|reflexivity|constructor].
Defined.

(** C5 (as stated) fails in its last part.  For a page whose text
    changed and whose post is known, the live run reports the id of the
    follow-up post it created; the dry run reports the id it read from
    the state, with the sentinel where the status would stand. *)
Lemma dry_run_reports_stored_id_counterexample :
  let X := sample_externals in
  let prev_json := sports_snapshot "Goal" "<b>G</b>" in
  let next_json := sports_snapshot "Goal!" "<b>G!</b>" in
  let srv := answers 200 (ReplyJson (Some "s2") None) in
  let w := World [] (Some sports_state) in
  let diff := generate_diff X (sample_options true true) "Goal" "Goal!" in
  let line post_id result_status :=
    "#160 'Sports' content changed Post ID: " +:+ post_id +:+ " "
    +:+ result_status +:+ ":" +:+ nl +:+ nl +:+ diff +:+ nl in
  (main X (sample_options true false) prev_json next_json srv w).2
  = Ok {| pages_del := []; pages_new := []; pages_alt := [line "s2" "200"] |}
  ∧ main X (sample_options true true) prev_json next_json srv w
    = (w, Ok {| pages_del := []; pages_new := [];
                pages_alt := [line "s1" "<unknown>"] |})
  ∧ ∀ result_status, line "<unknown>" result_status ≠ line "s1" "<unknown>".
Proof.
  intros X prev_json next_json srv w diff line.
  split_and!; [by vm_compute|by vm_compute|].
  intros result_status H. vm_compute in H. discriminate H.
Qed.

(** * Further properties *)

(** ** Overlap of word maps *)

(** X1.  The comparison does not depend on the order of its two maps. *)
Theorem compare_word_maps_symmetric :
  ∀ map1 map2 : gmap string Z,
    compare_word_maps map1 map2 = compare_word_maps map2 map1.
Proof.
  intros map1 map2. rewrite !compare_word_maps_sums. cbv zeta.
  unfold overlap_total, overlap_same.
  rewrite (Z.add_comm (map_sum (λ _ count, count) map2)).
  by rewrite (Z.add_comm (map_sum (shared_count map1) map2)).
Qed.

(** X2.  On maps without negative counts [compare_word_maps] raises
    nothing but [ZeroDivisionError], and that exactly when both maps sum
    to 0.  What it returns satisfies [0 <= same <= total] and
    [0 < total]; the verdict is true exactly when
    [same * 100 / total >= 90 - 2^-47], so whenever
    [9 * total <= 10 * same], and only then as long as [total] is below
    [10 * 2^47]. *)
Theorem compare_word_maps_bounds :
  ∀ map1 map2 : gmap string Z,
    map_Forall (λ _ count, 0 ≤ count) map1 ->
    map_Forall (λ _ count, 0 ≤ count) map2 ->
    match compare_word_maps map1 map2 with
    | Returns (comparison, same, total) =>
        0 ≤ same ≤ total ∧ 0 < total
        ∧ (comparison = true
           <-> (90 * 2 ^ 47 - 1) * total ≤ 2 ^ 47 * (100 * same))
        ∧ (9 * total ≤ 10 * same -> comparison = true)
        ∧ (total < 10 * 2 ^ 47 -> comparison = true ->
           9 * total ≤ 10 * same)
    | Raises e => e = ZeroDivisionError ∧ overlap_total map1 map2 = 0
    end.
Proof.
  intros map1 map2 H1 H2.
  rewrite compare_word_maps_sums. cbv zeta.
  pose proof (overlap_same_bounds map1 map2 H1 H2) as Hb.
  destruct (decide (overlap_total map1 map2 = 0)) as [Hz|Hz].
  - unfold ratio_ge_90. cbv zeta. by rewrite decide_True by done.
  - rewrite ratio_ge_90_bounded by lia.
    rewrite bool_decide_eq_true. split_and!; lia.
Qed.

Lemma compare_word_maps_bounds_witness :
  0 ≤ 2 ≤ 6 ∧ 0 < 6
  ∧ (false = true <-> (90 * 2 ^ 47 - 1) * 6 ≤ 2 ^ 47 * (100 * 2))
  ∧ (9 * 6 ≤ 10 * 2 -> false = true)
  ∧ (6 < 10 * 2 ^ 47 -> false = true -> 9 * 6 ≤ 10 * 2).
Proof.
  pose proof (compare_word_maps_bounds {[ "a" := 2; "b" := 1 ]}
                {[ "a" := 1; "c" := 2 ]}) as H.
  replace (compare_word_maps {[ "a" := 2; "b" := 1 ]} {[ "a" := 1; "c" := 2 ]})
    with (Returns (false, 2, 6)) in H by (by vm_compute).
  apply H.
  - apply map_Forall_insert_2; [lia|].
    apply map_Forall_insert_2; [lia|]. apply map_Forall_empty.
  - apply map_Forall_insert_2; [lia|].
    apply map_Forall_insert_2; [lia|]. apply map_Forall_empty.
Defined.

(** X3.  Two maps without a common word, with positive counts and not
    both empty, never match: [same] is 0. *)
Theorem compare_word_maps_disjoint :
  ∀ map1 map2 : gmap string Z,
    map_Forall (λ _ count, 0 < count) map1 ->
    map_Forall (λ _ count, 0 < count) map2 ->
    map1 ≠ ∅ ->
    (∀ word, map1 !! word = None ∨ map2 !! word = None) ->
    compare_word_maps map1 map2
    = Returns (false, 0, overlap_total map1 map2).
Proof.
  intros map1 map2 H1 H2 Hne Hdisj.
  rewrite compare_word_maps_sums. cbv zeta.
  assert (Hsame : overlap_same map1 map2 = 0).
  { unfold overlap_same.
    rewrite (map_sum_ext (shared_count map2) (λ _ _, 0) map1).
    - rewrite (map_sum_ext (shared_count map1) (λ _ _, 0) map2).
      + by rewrite !map_sum_zero.
      + intros word count Hm. unfold shared_count.
        destruct (Hdisj word) as [-> | E]; [done|congruence].
    - intros word count Hm. unfold shared_count.
      destruct (Hdisj word) as [E | ->]; [congruence|done]. }
  pose proof (map_sum_counts_positive _ H1 Hne) as Hpos.
  assert (0 ≤ map_sum (λ _ count, count) map2).
  { rewrite <-(map_sum_zero map2). apply map_sum_le.
    intros word count Hm. specialize (H2 _ _ Hm). simpl in H2. lia. }
  rewrite Hsame. unfold overlap_total in *.
  rewrite ratio_ge_90_bounded by lia.
  by rewrite bool_decide_eq_false_2 by lia.
Qed.

Lemma compare_word_maps_disjoint_witness :
  compare_word_maps {[ "a" := 5 ]} {[ "b" := 5 ]}
  = Returns (false, 0, overlap_total {[ "a" := 5 ]} {[ "b" := 5 ]}).
Proof.
  apply (compare_word_maps_disjoint {[ "a" := 5 ]} {[ "b" := 5 ]}).
  - apply map_Forall_insert_2; [lia|]. apply map_Forall_empty.
  - apply map_Forall_insert_2; [lia|]. apply map_Forall_empty.
  - apply insert_non_empty.
  - intros word. destruct (decide (word = "a")) as [->|Hne].
    + right. reflexivity.
    + left. by apply lookup_singleton_ne.
Defined.

(** ** Generated word maps *)

Lemma sum_items_permutation (f : string -> Z -> Z) (l1 l2 : list (string * Z)) :
  l1 ≡ₚ l2 ->
  foldr (λ item acc, f item.1 item.2 + acc) 0 l1
  = foldr (λ item acc, f item.1 item.2 + acc) 0 l2.
Proof. induction 1; simpl; lia. Qed.

Lemma map_sum_insert (f : string -> Z -> Z) (m : gmap string Z)
  (word : string) (count : Z) :
  m !! word = None ->
  map_sum f (<[word := count]> m) = f word count + map_sum f m.
Proof.
  intros Hm. unfold map_sum.
  by rewrite (sum_items_permutation f _ _ (map_to_list_insert m word count Hm)).
Qed.

Lemma map_sum_count_word (result : gmap string Z) (word : string) :
  map_sum (λ _ count, count) (count_word result word)
  = map_sum (λ _ count, count) result + 1.
Proof.
  rewrite count_word_insert. set (key := PyStr.lower word).
  destruct (result !! key) as [count|] eqn:E; simpl.
  - rewrite <-insert_delete_eq.
    rewrite map_sum_insert by apply lookup_delete_eq.
    rewrite <-(insert_delete_id result key count E) at 2.
    rewrite map_sum_insert by apply lookup_delete_eq. lia.
  - rewrite map_sum_insert by done. lia.
Qed.

Lemma lower_char_idempotent (c : ascii) :
  PyStr.lower_char (PyStr.lower_char c) = PyStr.lower_char c.
Proof. destruct c as [[] [] [] [] [] [] [] []]; reflexivity. Qed.

Lemma is_word_sep_lower_char (c : ascii) :
  PyStr.is_word_sep (PyStr.lower_char c) = PyStr.is_word_sep c.
Proof. destruct c as [[] [] [] [] [] [] [] []]; reflexivity. Qed.

Lemma lower_idempotent (s : string) : PyStr.lower (PyStr.lower s) = PyStr.lower s.
Proof.
  induction s as [|c s IH]; simpl; [done|].
  by rewrite lower_char_idempotent, IH.
Qed.

Lemma lower_append (s1 s2 : string) :
  PyStr.lower (s1 +:+ s2) = PyStr.lower s1 +:+ PyStr.lower s2.
Proof. induction s1 as [|c s1 IH]; simpl; [done|]. by rewrite IH. Qed.

Lemma re_split_words_lower (cur : string) (in_sep : bool) (s : string) :
  PyStr.re_split_words (PyStr.lower cur) in_sep (PyStr.lower s)
  = map PyStr.lower (PyStr.re_split_words cur in_sep s).
Proof.
  revert cur in_sep. induction s as [|c s IH]; intros cur in_sep; simpl.
  - done.
  - rewrite is_word_sep_lower_char.
    destruct (PyStr.is_word_sep c).
    + destruct in_sep; simpl; by rewrite <-(IH EmptyString true).
    + rewrite <-IH. by rewrite lower_append.
Qed.

Lemma count_word_lower (result : gmap string Z) (word : string) :
  count_word result (PyStr.lower word) = count_word result word.
Proof. by rewrite !count_word_insert, lower_idempotent. Qed.

Lemma foldl_count_word_lower (words : list string) (result : gmap string Z) :
  foldl count_word result (map PyStr.lower words)
  = foldl count_word result words.
Proof.
  revert result. induction words as [|w words IH]; intros result; simpl.
  - done.
  - by rewrite count_word_lower, IH.
Qed.

Lemma generate_word_map_lower (text : string) :
  generate_word_map (PyStr.lower text) = generate_word_map text.
Proof.
  unfold generate_word_map.
  change (PyStr.re_split_words EmptyString false (PyStr.lower text))
    with (PyStr.re_split_words (PyStr.lower EmptyString) false
            (PyStr.lower text)).
  rewrite re_split_words_lower. apply foldl_count_word_lower.
Qed.

Lemma foldl_count_word_facts (words : list string) (result : gmap string Z) :
  map_Forall (λ key _, PyStr.lower key = key) result ->
  map_Forall (λ key _, PyStr.lower key = key) (foldl count_word result words)
  ∧ map_sum (λ _ count, count) (foldl count_word result words)
    = map_sum (λ _ count, count) result + Z.of_nat (length words).
Proof.
  revert result. induction words as [|w words IH]; intros result Hkeys; simpl.
  - split; [done|lia].
  - destruct (IH (count_word result w)) as [Hk Hs].
    + rewrite count_word_insert. apply map_Forall_insert_2; [|done].
      apply lower_idempotent.
    + split; [done|]. rewrite Hs, map_sum_count_word. lia.
Qed.

(** X4.  In a generated word map every key is in lower case, every count
    is positive, and the counts add up to the number of pieces the text
    splits into: one at least, the empty text giving one empty word. *)
Theorem generate_word_map_counts :
  ∀ text : string,
    map_Forall (λ key count, PyStr.lower key = key ∧ 0 < count)
      (generate_word_map text)
    ∧ map_sum (λ _ count, count) (generate_word_map text)
      = Z.of_nat (length (PyStr.re_split_words EmptyString false text))
    ∧ (0 < length (PyStr.re_split_words EmptyString false text))%nat
    ∧ generate_word_map EmptyString = {[ EmptyString := 1 ]}.
Proof.
  intros text.
  destruct (foldl_count_word_facts
              (PyStr.re_split_words EmptyString false text) ∅)
    as [Hkeys Hsum]; [apply map_Forall_empty|].
  destruct (generate_word_map_positive text) as [Hpos _].
  split_and!.
  - intros key count Hm. split; [apply (Hkeys _ _ Hm)|apply (Hpos _ _ Hm)].
  - unfold generate_word_map. rewrite Hsum. unfold map_sum.
    rewrite map_to_list_empty. simpl. lia.
  - pose proof (re_split_words_not_nil EmptyString false text).
    destruct (PyStr.re_split_words EmptyString false text); [done|simpl; lia].
  - reflexivity.
Qed.

(** X5.  For texts of the Latin-1 range (every code point below 256,
    where [str.lower] works character by character) the word map, and
    with it the overlap test, does not see the case of letters: two
    such texts that agree once put in lower case have the same word
    map.  Texts with letters beyond that range, where [str.lower] can
    depend on the neighbouring letters as for the Greek sigma, are not
    covered. *)
Theorem generate_word_map_ignores_case :
  ∀ text1 text2 : string,
    PyStr.lower text1 = PyStr.lower text2 ->
    generate_word_map text1 = generate_word_map text2
    ∧ ∀ data1 data2 pagedata,
        text data1 = text1 -> text data2 = text2 ->
        overlap_reached data1 pagedata = overlap_reached data2 pagedata.
Proof.
  intros text1 text2 Hlower.
  assert (H : generate_word_map text1 = generate_word_map text2).
  { by rewrite <-(generate_word_map_lower text1), Hlower,
      generate_word_map_lower. }
  split; [done|]. intros data1 data2 pagedata H1 H2.
  unfold overlap_reached. by rewrite H1, H2, H.
Qed.

Lemma generate_word_map_ignores_case_witness :
  generate_word_map "Sun TOMORROW. sun" = generate_word_map "sun tomorrow. SUN".
Proof.
  apply (generate_word_map_ignores_case "Sun TOMORROW. sun" "sun tomorrow. SUN").
  reflexivity.
Defined.

(** ** Matching *)

Lemma first_match_spec (data : page) (page_map : odict Z page) :
  match first_match data page_map with
  | None => Forall (λ item, candidate_matches data item.2 = false) page_map
  | Some pagenr =>
      ∃ before pagedata after,
        page_map = before ++ (pagenr, pagedata) :: after
        ∧ candidate_matches data pagedata = true
        ∧ Forall (λ item, candidate_matches data item.2 = false) before
  end.
Proof.
  induction page_map as [|[pagenr pagedata] page_map IH].
  - constructor.
  - rewrite first_match_cons.
    destruct (candidate_matches data pagedata) eqn:Hc.
    + exists [], pagedata, page_map. by split_and!.
    + destruct (first_match data page_map) as [found|].
      * destruct IH as (before & found_data & after & -> & Hfound & Hbefore).
        exists ((pagenr, pagedata) :: before), found_data, after.
        split_and!; [done|done|by constructor].
      * by constructor.
Qed.

(** X6.  [find_matching_page] never raises.  It returns the page number
    of the first candidate, in the order of the newer snapshot, that has
    the title (Kort nieuws apart) or reaches the overlap, and [None]
    exactly when no candidate does. *)
Theorem find_matching_page_first_candidate :
  ∀ (opts : options) (data : page) (page_map : odict Z page),
    ∃ found,
      find_matching_page opts data page_map = Returns found
      ∧ match found with
        | None =>
            Forall (λ item, candidate_matches data item.2 = false) page_map
        | Some pagenr =>
            ∃ before pagedata after,
              page_map = before ++ (pagenr, pagedata) :: after
              ∧ candidate_matches data pagedata = true
              ∧ Forall (λ item, candidate_matches data item.2 = false) before
        end.
Proof.
  intros opts data page_map. exists (first_match data page_map).
  split; [apply find_matching_page_first|apply first_match_spec].
Qed.

Lemma compare_word_maps_same (m : gmap string Z) :
  map_Forall (λ _ count, 0 < count) m -> m ≠ ∅ ->
  ∃ same, compare_word_maps m m = Returns (true, same, same).
Proof.
  intros Hpos Hne. rewrite compare_word_maps_sums. cbv zeta.
  assert (Hsame : overlap_same m m = overlap_total m m).
  { unfold overlap_same, overlap_total. f_equal; apply map_sum_ext;
      intros word count Hm; unfold shared_count; rewrite Hm; lia. }
  pose proof (map_sum_counts_positive _ Hpos Hne).
  rewrite Hsame. unfold overlap_total in *.
  rewrite ratio_ge_90_bounded by lia.
  rewrite bool_decide_eq_true_2 by lia. eauto.
Qed.

Lemma overlap_reached_same_text (data pagedata : page) :
  text pagedata = text data -> overlap_reached data pagedata = true.
Proof.
  intros Htext. unfold overlap_reached. rewrite Htext.
  destruct (generate_word_map_positive (text data)) as [Hpos Hne].
  by destruct (compare_word_maps_same _ Hpos Hne) as [same ->].
Qed.

(** X7.  A candidate whose text is the old page's text always reaches the
    overlap, whatever the titles: with such a candidate in the newer
    snapshot [find_matching_page] returns one of its page numbers, not
    [None]. *)
Theorem find_matching_page_same_text :
  ∀ (opts : options) (data : page) (page_map : odict Z page)
    (pagenr : Z) (candidate : page),
    (pagenr, candidate) ∈ page_map ->
    text candidate = text data ->
    overlap_reached data candidate = true
    ∧ ∃ found,
        find_matching_page opts data page_map = Returns (Some found)
        ∧ found ∈ OrderedDict.keys page_map.
Proof.
  intros opts data page_map pagenr candidate Hin Htext.
  pose proof (overlap_reached_same_text data candidate Htext) as Hreached.
  split; [done|]. rewrite find_matching_page_first.
  pose proof (first_match_spec data page_map) as Hspec.
  destruct (first_match data page_map) as [found|] eqn:Hfound.
  - exists found. split; [done|].
    destruct Hspec as (before & pagedata & after & -> & _ & _).
    unfold OrderedDict.keys. rewrite map_app. apply elem_of_app. right.
    apply list_elem_of_here.
  - exfalso. rewrite Forall_forall in Hspec. specialize (Hspec _ Hin).
    simpl in Hspec. unfold candidate_matches in Hspec.
    rewrite Hreached in Hspec. by rewrite orb_true_r in Hspec.
Qed.

Lemma find_matching_page_same_text_witness :
  let data := Page "Weather" "Sun tomorrow" "" in
  let page_map := [(150, Page "Sports" "Goal" "");
                   (151, Page "Forecast" "Sun tomorrow" "")] in
  overlap_reached data (Page "Forecast" "Sun tomorrow" "") = true
  ∧ ∃ found,
      find_matching_page (sample_options false false) data page_map
      = Returns (Some found)
      ∧ found ∈ OrderedDict.keys page_map.
Proof.
  intros data page_map.
  apply (find_matching_page_same_text (sample_options false false) data
           page_map 151 (Page "Forecast" "Sun tomorrow" "")).
  - apply list_elem_of_further, list_elem_of_here.
  - reflexivity.
Defined.

(** X8.  For an old page with one of the two Kort nieuws titles the title
    of a candidate plays no part: the page found is the first one that
    reaches the overlap. *)
Theorem find_matching_page_kort_nieuws :
  ∀ (opts : options) (data : page) (page_map : odict Z page),
    kort_nieuws (title data) = true ->
    find_matching_page opts data page_map
    = Returns ((λ found : nat * (Z * page), found.2.1)
                 <$> list_find (λ item : Z * page,
                                  overlap_reached data item.2 = true)
                       page_map).
Proof.
  intros opts data page_map Hkort. rewrite find_matching_page_first.
  f_equal. induction page_map as [|[pagenr pagedata] page_map IH]; [done|].
  rewrite first_match_cons. simpl.
  assert (Hc : candidate_matches data pagedata = overlap_reached data pagedata).
  { unfold candidate_matches. by rewrite Hkort, andb_false_r. }
  rewrite Hc. destruct (overlap_reached data pagedata); simpl; [done|].
  rewrite IH. by destruct (list_find _ page_map) as [[i item]|].
Qed.

Lemma find_matching_page_kort_nieuws_witness :
  find_matching_page (sample_options false false)
    (Page "Kort nieuws binnenland" "Rain in the north" "")
    [(110, Page "Kort nieuws binnenland" "Strike ends. Trains run again" "")]
  = Returns None.
Proof.
  apply (find_matching_page_kort_nieuws (sample_options false false)
           (Page "Kort nieuws binnenland" "Rain in the north" "")
           [(110, Page "Kort nieuws binnenland"
                    "Strike ends. Trains run again" "")]).
  reflexivity.
Defined.

(** ** More on the normalizer *)

Lemma normalize_entry_from_entries (done : list entry)
  (st st' : odict Z page * gmap string Z) (e : entry) :
  normalize_entry st e = Some st' ->
  NoDup (OrderedDict.keys st.1)
  ∧ (∀ pagenr pagedata,
       OrderedDict.get pagenr st.1 = Some pagedata ->
       ∃ e0, e0 ∈ done ∧ entry_pagenr e0 = pagenr
             ∧ pagedata = page_of_entry e0) ->
  NoDup (OrderedDict.keys st'.1)
  ∧ (∀ pagenr pagedata,
       OrderedDict.get pagenr st'.1 = Some pagedata ->
       ∃ e0, e0 ∈ done ++ [e] ∧ entry_pagenr e0 = pagenr
             ∧ pagedata = page_of_entry e0).
Proof.
  destruct st as [result seen]. unfold normalize_entry. simpl.
  intros Hstep [Hnd Hfrom].
  assert (Hold : ∀ pagenr pagedata,
    OrderedDict.get pagenr result = Some pagedata ->
    ∃ e0, e0 ∈ done ++ [e] ∧ entry_pagenr e0 = pagenr
          ∧ pagedata = page_of_entry e0).
  { intros pagenr pagedata Hget.
    destruct (Hfrom _ _ Hget) as (e0 & H0 & Hp & Hd).
    exists e0. split; [apply elem_of_app; by left|done]. }
  assert (Hnew : ∀ result1,
    NoDup (OrderedDict.keys result1) ->
    (∀ pagenr pagedata, OrderedDict.get pagenr result1 = Some pagedata ->
                        OrderedDict.get pagenr result = Some pagedata) ->
    NoDup (OrderedDict.keys
             (OrderedDict.set (entry_pagenr e) (page_of_entry e) result1))
    ∧ ∀ pagenr pagedata,
        OrderedDict.get pagenr
          (OrderedDict.set (entry_pagenr e) (page_of_entry e) result1)
        = Some pagedata ->
        ∃ e0, e0 ∈ done ++ [e] ∧ entry_pagenr e0 = pagenr
              ∧ pagedata = page_of_entry e0).
  { intros result1 Hnd1 Hsub. split; [by apply NoDup_keys_set|].
    intros pagenr pagedata. rewrite get_set. case_decide as Hp.
    - intros [= <-]. exists e. split; [|done].
      apply elem_of_app. right. apply list_elem_of_here.
    - intros Hget. by apply Hold, Hsub. }
  destruct (seen !! entry_title e) as [old|].
  - case_decide.
    + injection Hstep as <-. simpl. by split.
    + destruct (OrderedDict.del old result) as [result1|] eqn:Hdel; [|done].
      injection Hstep as <-. simpl.
      destruct (keys_del _ _ _ Hdel Hnd) as (Hnd1 & _ & _).
      apply Hnew; [done|]. intros pagenr pagedata.
      rewrite (get_del _ _ _ _ Hdel Hnd). by case_decide.
  - injection Hstep as <-. simpl. by apply Hnew.
Qed.

Lemma normalize_fold_from_entries (entries done : list entry)
  (st st' : odict Z page * gmap string Z) :
  fold_raise normalize_entry st entries = Some st' ->
  NoDup (OrderedDict.keys st.1)
  ∧ (∀ pagenr pagedata,
       OrderedDict.get pagenr st.1 = Some pagedata ->
       ∃ e0, e0 ∈ done ∧ entry_pagenr e0 = pagenr
             ∧ pagedata = page_of_entry e0) ->
  NoDup (OrderedDict.keys st'.1)
  ∧ (∀ pagenr pagedata,
       OrderedDict.get pagenr st'.1 = Some pagedata ->
       ∃ e0, e0 ∈ done ++ entries ∧ entry_pagenr e0 = pagenr
             ∧ pagedata = page_of_entry e0).
Proof.
  revert done st. induction entries as [|e entries IH]; intros done st; simpl.
  - intros [= <-]. by rewrite app_nil_r.
  - destruct (normalize_entry st e) as [st1|] eqn:Hstep; [|done].
    intros Hfold Hst.
    rewrite (assoc_L (++) done [e] entries : done ++ e :: entries = _).
    eapply IH; [done|]. by eapply normalize_entry_from_entries.
Qed.

(** X9.  Whatever [normalize_data] returns has no page number twice, and
    every page in it is built from an entry of the input that carries
    that page number. *)
Theorem normalize_data_from_entries :
  ∀ (data : odict string (list entry)) (result : odict Z page),
    normalize_data data = Some result ->
    NoDup (OrderedDict.keys result)
    ∧ ∀ pagenr pagedata,
        (pagenr, pagedata) ∈ result ->
        ∃ e, e ∈ entries_of data ∧ entry_pagenr e = pagenr
             ∧ pagedata = page_of_entry e.
Proof.
  intros data result. rewrite normalize_data_entries.
  destruct (fold_raise normalize_entry ([], ∅) (entries_of data))
    as [[result' seen]|] eqn:Hfold; [|done].
  intros [= <-].
  destruct (normalize_fold_from_entries _ [] _ _ Hfold) as [Hnd Hfrom].
  { split; [apply NoDup_nil_2|done]. }
  simpl in *. split; [done|]. intros pagenr pagedata Hin.
  apply Hfrom. by apply elem_of_get.
Qed.

Lemma normalize_data_from_entries_witness :
  NoDup (OrderedDict.keys [(6, Page "U" "b" "r2"); (3, Page "T" "c" "r3")]).
Proof.
  apply (normalize_data_from_entries
           [("101", [Entry "T" 5 ["a"] "r1"; Entry "U" 6 ["b"] "r2"]);
            ("102", [Entry "T" 3 ["c"] "r3"])]).
  vm_compute. reflexivity.
Defined.

Lemma set_fresh {K V} `{EqDecision K} (d : list (K * V)) (k : K) (v : V) :
  k ∉ OrderedDict.keys d -> OrderedDict.set k v d = d ++ [(k, v)].
Proof.
  unfold OrderedDict.keys. induction d as [|[k0 v0] d IH]; simpl; [done|].
  intros [Hne Hk]%not_elem_of_cons. rewrite decide_False by done.
  by rewrite IH.
Qed.

Lemma normalize_fold_flatten (entries done : list entry)
  (seen : gmap string Z) :
  NoDup (map entry_title (done ++ entries)) ->
  NoDup (map entry_pagenr (done ++ entries)) ->
  (∀ t, is_Some (seen !! t) -> t ∈ map entry_title done) ->
  ∃ seen',
    fold_raise normalize_entry
      (map (λ e, (entry_pagenr e, page_of_entry e)) done, seen) entries
    = Some (map (λ e, (entry_pagenr e, page_of_entry e)) (done ++ entries),
            seen').
Proof.
  revert done seen.
  induction entries as [|e entries IH]; intros done seen Ht Hp Hseen; simpl.
  - exists seen. by rewrite app_nil_r.
  - rewrite (assoc_L (++) done [e] entries : done ++ e :: entries = _) in *.
    assert (Hfresh : seen !! entry_title e = None).
    { destruct (seen !! entry_title e) as [old|] eqn:E; [|done]. exfalso.
      rewrite map_app, map_app in Ht. apply NoDup_app in Ht as [Ht _].
      apply NoDup_app in Ht as (_ & Ht & _).
      apply (Ht (entry_title e)); [apply Hseen; eauto|apply list_elem_of_here]. }
    unfold normalize_entry at 1. rewrite Hfresh.
    rewrite set_fresh.
    + replace (map (λ e0, (entry_pagenr e0, page_of_entry e0)) done
               ++ [(entry_pagenr e, page_of_entry e)])
        with (map (λ e0, (entry_pagenr e0, page_of_entry e0)) (done ++ [e]))
        by (by rewrite map_app).
      apply IH; [done|done|].
      intros t. rewrite map_app, elem_of_app. simpl.
      destruct (decide (t = entry_title e)) as [->|Hne].
      * intros _. right. apply list_elem_of_here.
      * rewrite lookup_insert_ne by done. auto.
    + unfold OrderedDict.keys. rewrite map_map. simpl.
      rewrite map_app, map_app in Hp. apply NoDup_app in Hp as [Hp _].
      apply NoDup_app in Hp as (_ & Hp & _).
      intros Hin. apply (Hp _ Hin). apply list_elem_of_here.
Qed.

(** X10.  On a snapshot in which no title and no page number occurs
    twice, normalization is plain flattening: one page per entry, in the
    order of the input. *)
Theorem normalize_data_without_duplicates :
  ∀ data : odict string (list entry),
    NoDup (map entry_title (entries_of data)) ->
    NoDup (map entry_pagenr (entries_of data)) ->
    normalize_data data
    = Some (map (λ e, (entry_pagenr e, page_of_entry e)) (entries_of data)).
Proof.
  intros data Ht Hp. rewrite normalize_data_entries.
  destruct (normalize_fold_flatten (entries_of data) [] ∅) as [seen' Hfold];
    [done|done| |].
  - by intros t [? ?].
  - simpl in Hfold. by rewrite Hfold.
Qed.

Lemma normalize_data_without_duplicates_witness :
  normalize_data
    [("101", [Entry "T" 5 ["a"] "r1"]); ("000", [Entry "U" 4 ["b"; "c"] "r2"])]
  = Some [(5, Page "T" "a" "r1"); (4, Page "U" ("b" +:+ nl +:+ "c") "r2")].
Proof.
  apply (normalize_data_without_duplicates
           [("101", [Entry "T" 5 ["a"] "r1"]);
            ("000", [Entry "U" 4 ["b"; "c"] "r2"])]).
  - apply (bool_decide_unpack (NoDup ["T"; "U"])). by vm_compute.
  - apply (bool_decide_unpack (NoDup [5; 4])). by vm_compute.
Defined.

(** X11.  [normalize_data] raises [KeyError] when a page number is shared
    by two titles, the first of them comes back later under a page
    number that is lower, and the second one comes back after that under
    a page number that is not higher: the first title's return removed
    the shared page, and the second title's turn finds it gone.  (When
    the first title comes back under the same number, the page is put
    back and nothing is raised.) *)
Theorem normalize_data_key_error :
  ∀ (index_page t u : string) (p p1 p2 : Z)
    (lines1 lines2 lines3 lines4 : list string)
    (raw1 raw2 raw3 raw4 : string),
    t ≠ u -> p1 < p -> p2 ≤ p ->
    normalize_data
      [(index_page,
        [Entry t p lines1 raw1; Entry u p lines2 raw2;
         Entry t p1 lines3 raw3; Entry u p2 lines4 raw4])]
    = None
    ∧ normalize_data
        [(index_page,
          [Entry t p lines1 raw1; Entry u p lines2 raw2;
           Entry t p lines3 raw3; Entry u p2 lines4 raw4])]
      = Some [(p2, page_of_entry (Entry u p2 lines4 raw4))].
Proof.
  intros index_page t u p p1 p2 lines1 lines2 lines3 lines4
    raw1 raw2 raw3 raw4 Htu Hp1 Hp2.
  split.
  - unfold normalize_data, normalize_group, normalize_entry. simpl.
    repeat first
      [ rewrite lookup_empty
      | rewrite lookup_insert_eq
      | rewrite lookup_insert_ne by done
      | rewrite lookup_delete_ne by done
      | rewrite decide_True by (done || lia)
      | rewrite decide_False by (done || lia)
      | progress simpl ].
    done.
  - unfold normalize_data, normalize_group, normalize_entry. simpl.
    repeat first
      [ rewrite lookup_empty
      | rewrite lookup_insert_eq
      | rewrite lookup_insert_ne by done
      | rewrite lookup_delete_ne by done
      | rewrite decide_True by (done || lia)
      | rewrite decide_False by (done || lia)
      | progress simpl ].
    done.
Qed.

Lemma normalize_data_key_error_witness :
  normalize_data
    [("101", [Entry "T" 5 ["a"] "r1"; Entry "U" 5 ["b"] "r2";
              Entry "T" 3 ["c"] "r3"; Entry "U" 4 ["d"] "r4"])]
  = None.
Proof.
  apply (normalize_data_key_error "101" "T" "U" 5 3 4 ["a"] ["b"] ["c"] ["d"]
           "r1" "r2" "r3" "r4"); [done|lia|lia].
Defined.

(** ** Lines and text *)

Lemma split_on_not_nil (sep : ascii) (cur s : string) :
  PyStr.split_on sep cur s ≠ [].
Proof.
  revert cur. induction s as [|c s IH]; intros cur; simpl; [done|].
  destruct (Ascii.eqb c sep); [done|apply IH].
Qed.

Lemma append_assoc_char (s1 s2 : string) (c : ascii) :
  (s1 +:+ String c EmptyString) +:+ s2 = s1 +:+ String c s2.
Proof.
  induction s1 as [|a s1 IH]; [done|].
  change (String a ((s1 +:+ String c EmptyString) +:+ s2)
          = String a (s1 +:+ String c s2)).
  by rewrite IH.
Qed.

Lemma append_empty_r (s : string) : s +:+ EmptyString = s.
Proof.
  induction s as [|a s IH]; [done|].
  change (String a (s +:+ EmptyString) = String a s). by rewrite IH.
Qed.

(** A string that splits into one piece has no separator in it. *)
Lemma split_on_single (sep : ascii) (s cur x : string) :
  PyStr.split_on sep cur s = [x] ->
  ∀ cur' rest,
    PyStr.split_on sep cur' s = [cur' +:+ s]
    ∧ PyStr.split_on sep cur' (s +:+ String sep rest)
      = (cur' +:+ s) :: PyStr.split_on sep EmptyString rest.
Proof.
  revert cur. induction s as [|c s IH]; intros cur; simpl.
  - intros _ cur' rest. rewrite append_empty_r, Ascii.eqb_refl. done.
  - destruct (Ascii.eqb c sep) eqn:Hc.
    + intros [= _ Hnil]. by apply split_on_not_nil in Hnil.
    + intros Hone cur' rest.
      destruct (IH _ Hone (cur' +:+ String c EmptyString) rest) as [H1 H2].
      rewrite H1, H2. by rewrite append_assoc_char.
Qed.

Lemma split_lines_join (lines : list string) :
  lines ≠ [] ->
  Forall (λ line, PyStr.split_lines line = [line]) lines ->
  PyStr.split_lines (PyStr.join nl lines) = lines.
Proof.
  intros Hne Hlines. induction Hlines as [|line lines Hline Hlines IH];
    [done|]. clear Hne.
  destruct lines as [|line2 lines].
  - simpl. exact Hline.
  - change (PyStr.join nl (line :: line2 :: lines))
      with (line +:+ String PyStr.newline (PyStr.join nl (line2 :: lines))).
    unfold PyStr.split_lines in *.
    destruct (split_on_single _ _ _ _ Hline EmptyString
                (PyStr.join nl (line2 :: lines))) as [_ ->].
    simpl. f_equal. by apply IH.
Qed.

(** X12.  Joining the lines of an entry and splitting the text again
    gives the lines back, provided there is at least one line and none
    holds a newline; an entry without lines gives one empty line. *)
Theorem page_text_lines_round_trip :
  ∀ e : entry,
    (entry_lines e ≠ [] ->
     Forall (λ line, PyStr.split_lines line = [line]) (entry_lines e) ->
     PyStr.split_lines (text (page_of_entry e)) = entry_lines e)
    ∧ (entry_lines e = [] ->
       PyStr.split_lines (text (page_of_entry e)) = [EmptyString]).
Proof.
  intros e. split.
  - apply split_lines_join.
  - unfold page_of_entry. simpl. by intros ->.
Qed.

Lemma page_text_lines_round_trip_witness :
  PyStr.split_lines (text (page_of_entry (Entry "T" 5 ["a b"; ""; "c"] "r")))
  = ["a b"; ""; "c"].
Proof.
  apply (page_text_lines_round_trip (Entry "T" 5 ["a b"; ""; "c"] "r")).
  - done.
  - repeat constructor.
Defined.

(** ** More on the diff generator *)

Lemma rstrip_idempotent (s : string) :
  PyStr.rstrip (PyStr.rstrip s) = PyStr.rstrip s.
Proof.
  induction s as [|c s IH]; simpl; [done|].
  destruct (PyStr.rstrip s) as [|a r] eqn:E.
  - destruct (PyStr.isspace c) eqn:Hc; simpl; [done|]. by rewrite Hc.
  - simpl in *. rewrite IH. done.
Qed.

Lemma drop_leading_empty_idempotent (lines : list string) :
  drop_leading_empty (drop_leading_empty lines) = drop_leading_empty lines.
Proof.
  induction lines as [|line lines IH]; [done|].
  destruct line; simpl; [done|done].
Qed.

Lemma drop_leading_empty_head (lines : list string) :
  head (drop_leading_empty lines) ≠ Some EmptyString.
Proof.
  induction lines as [|line lines IH]; [done|]. by destruct line.
Qed.

Lemma drop_leading_empty_suffix (lines : list string) :
  ∃ dropped, lines = dropped ++ drop_leading_empty lines.
Proof.
  induction lines as [|line lines [dropped IH]]; [by exists []|].
  destruct line; simpl.
  - exists (EmptyString :: dropped). simpl. by rewrite <-IH.
  - by exists [].
Qed.

Lemma drop_leading_empty_fixed (lines : list string) :
  head lines ≠ Some EmptyString -> drop_leading_empty lines = lines.
Proof. destruct lines as [|[|c s] lines]; simpl; done. Qed.

Lemma map_fixed {A} (f : A -> A) (l : list A) :
  Forall (λ x, f x = x) l -> map f l = l.
Proof. induction 1; simpl; congruence. Qed.

Lemma last_rev_head {A} (l : list A) : last (rev l) = head l.
Proof. destruct l as [|a l]; [done|]. simpl. apply last_snoc. Qed.

(** X13.  What [remove_extra_spaces] returns: no more lines than it was
    given, every line without trailing whitespace, no empty line at the
    end; and applying it again changes nothing. *)
Theorem remove_extra_spaces_result :
  ∀ lines : list string,
    let result := remove_extra_spaces lines in
    (length result ≤ length lines)%nat
    ∧ Forall (λ line, PyStr.rstrip line = line) result
    ∧ last result ≠ Some EmptyString
    ∧ remove_extra_spaces result = result.
Proof.
  intros lines result. unfold result. clear result.
  rewrite remove_extra_spaces_strip. unfold strip_trailing_blank.
  set (stripped := rev (map PyStr.rstrip lines)).
  destruct (drop_leading_empty_suffix stripped) as [dropped Hsuffix].
  assert (Hall : Forall (λ line, PyStr.rstrip line = line)
                   (drop_leading_empty stripped)).
  { assert (Hs : Forall (λ line, PyStr.rstrip line = line) stripped).
    { unfold stripped. apply Forall_rev, Forall_forall.
      intros line [l [-> _]]%list_elem_of_fmap. apply rstrip_idempotent. }
    rewrite Hsuffix in Hs. by apply Forall_app in Hs as [_ Hs]. }
  split_and!.
  - rewrite length_rev.
    assert (length stripped = length lines) as <-
      by (unfold stripped; by rewrite length_rev, length_map).
    rewrite Hsuffix at 2. rewrite length_app. lia.
  - by apply Forall_rev.
  - rewrite last_rev_head. apply drop_leading_empty_head.
  - rewrite remove_extra_spaces_strip. unfold strip_trailing_blank.
    rewrite <-map_rev, rev_involutive.
    rewrite map_fixed by done. by rewrite drop_leading_empty_idempotent.
Qed.

Lemma length_append (s1 s2 : string) :
  String.length (s1 +:+ s2) = (String.length s1 + String.length s2)%nat.
Proof.
  induction s1 as [|c s1 IH]; [done|].
  change (S (String.length (s1 +:+ s2))
          = S (String.length s1 + String.length s2)).
  by rewrite IH.
Qed.

Lemma take_digits_length (n : nat) (s digits rest : string) :
  take_digits n s = Some (digits, rest) -> String.length digits = n.
Proof.
  revert s digits rest. induction n as [|n IH]; intros s digits rest; simpl.
  - destruct s; by intros [= <- _].
  - destruct s as [|c s]; [done|]. destruct (PyStr.is_digit c); [|done].
    destruct (take_digits n s) as [[d r]|] eqn:E; simpl; [|done].
    intros [= <- _]. simpl. f_equal. by eapply IH.
Qed.

Lemma take_digits_append (n : nat) (digits rest : string) :
  take_digits n digits = Some (digits, EmptyString) ->
  take_digits n (digits +:+ rest) = Some (digits, rest).
Proof.
  revert digits. induction n as [|n IH]; intros digits; simpl.
  - destruct digits; [intros _; by destruct rest|by intros [= ?]].
  - destruct digits as [|c digits]; [done|].
    change (String c digits +:+ rest) with (String c (digits +:+ rest)).
    simpl. destruct (PyStr.is_digit c); [|done].
    destruct (take_digits n digits) as [[d r]|] eqn:E; simpl; [|done].
    intros [= -> ->]. by rewrite (IH _ E).
Qed.

Lemma strip_prefix_append (p s : string) : strip_prefix p (p +:+ s) = Some s.
Proof.
  induction p as [|c p IH]; [by destruct s|].
  change (String c p +:+ s) with (String c (p +:+ s)). simpl.
  by rewrite Ascii.eqb_refl.
Qed.

(** X14.  [create_timestamp] always gives 16 characters.  On a name
    [pages/YYYYMMDD-HHMMSS.json], whatever follows it, it gives
    [YYYY-MM-DD HH:MM]: the seconds are dropped. *)
Theorem create_timestamp_format :
  (∀ filename : string, String.length (create_timestamp filename) = 16%nat)
  ∧ ∀ year month day hour minute second rest : string,
      take_digits 4 year = Some (year, EmptyString) ->
      take_digits 2 month = Some (month, EmptyString) ->
      take_digits 2 day = Some (day, EmptyString) ->
      take_digits 2 hour = Some (hour, EmptyString) ->
      take_digits 2 minute = Some (minute, EmptyString) ->
      take_digits 2 second = Some (second, EmptyString) ->
      create_timestamp
        ("pages/" +:+ year +:+ month +:+ day +:+ "-" +:+ hour +:+ minute
         +:+ second +:+ ".json" +:+ rest)
      = year +:+ "-" +:+ month +:+ "-" +:+ day +:+ " " +:+ hour +:+ ":"
        +:+ minute.
Proof.
  split.
  - intros filename. unfold create_timestamp.
    destruct (timestamp_groups filename) as [[[[[g1 g2] g3] g4] g5]|] eqn:E;
      [|done].
    unfold timestamp_groups in E.
    apply bind_Some in E as (s0 & _ & E).
    apply bind_Some in E as ([d1 s1] & E1 & E).
    apply bind_Some in E as ([d2 s2] & E2 & E).
    apply bind_Some in E as ([d3 s3] & E3 & E).
    apply bind_Some in E as (s4 & _ & E).
    apply bind_Some in E as ([d4 s5] & E4 & E).
    apply bind_Some in E as ([d5 s6] & E5 & E).
    apply bind_Some in E as ([d6 s7] & _ & E).
    apply bind_Some in E as (s8 & _ & E).
    injection E as <- <- <- <- <-.
    apply take_digits_length in E1, E2, E3, E4, E5.
    rewrite !length_append, E1, E2, E3, E4, E5. reflexivity.
  - intros year month day hour minute second rest Hy Hmo Hd Hh Hmi Hs.
    assert (Hbind : ∀ {A B} (f : A -> option B) (x : A),
              Some x ≫= f = f x) by done.
    unfold create_timestamp, timestamp_groups.
    rewrite strip_prefix_append, Hbind.
    rewrite (take_digits_append 4 year), Hbind by done.
    rewrite (take_digits_append 2 month), Hbind by done.
    rewrite (take_digits_append 2 day), Hbind by done.
    rewrite (strip_prefix_append "-"), Hbind.
    rewrite (take_digits_append 2 hour), Hbind by done.
    rewrite (take_digits_append 2 minute), Hbind by done.
    rewrite (take_digits_append 2 second), Hbind by done.
    rewrite (strip_prefix_append ".json"), Hbind. done.
Qed.

Lemma create_timestamp_format_witness :
  create_timestamp "pages/20240102-030405.json.bak" = "2024-01-02 03:04".
Proof.
  apply (proj2 create_timestamp_format "2024" "01" "02" "03" "04" "05" ".bak");
    reflexivity.
Defined.

(** ** More on the post-state store *)

Lemma set_state_lookup_ne (state : gmap string (gmap string string))
  (title title' : string) (pagenr : pagekey) (post_id : string) :
  title' ≠ title ->
  set_state state title pagenr post_id !! title' = state !! title'.
Proof. intros Hne. rewrite set_state_insert. by apply lookup_insert_ne. Qed.

Lemma clear_state_lookup_ne (state : gmap string (gmap string string))
  (title title' : string) (pagenr : pagekey) :
  title' ≠ title ->
  clear_state state title pagenr !! title' = state !! title'.
Proof.
  intros Hne. unfold clear_state.
  destruct (state !! title) as [inner|]; [|done].
  destruct (inner !! py_str pagenr); [|done].
  case_decide.
  - rewrite lookup_delete_ne by done. by apply lookup_insert_ne.
  - by apply lookup_insert_ne.
Qed.

Lemma clear_state_lookup_cases (state : gmap string (gmap string string))
  (title : string) (pagenr : pagekey) :
  clear_state state title pagenr !! title =
    match state !! title with
    | Some inner =>
        if decide (is_Some (inner !! py_str pagenr)
                   ∧ delete (py_str pagenr) inner = ∅)
        then None else Some (delete (py_str pagenr) inner)
    | None => None
    end.
Proof.
  destruct (state !! title) as [inner|] eqn:Ht.
  - destruct (inner !! py_str pagenr) as [post_id|] eqn:Hp.
    + rewrite (clear_state_lookup _ _ _ inner) by eauto.
      case_decide as Hempty.
      * rewrite decide_True; [done|]. split; [eauto|done].
      * rewrite decide_False; [done|]. by intros [_ ?].
    + rewrite clear_state_absent
        by (by rewrite get_state_lookup, Ht; simpl; rewrite Hp).
      rewrite decide_False by (by intros [[? ?] _]).
      by rewrite delete_id.
  - rewrite clear_state_absent by (by rewrite get_state_lookup, Ht).
    done.
Qed.

Lemma get_state_other_entry (state : gmap string (gmap string string))
  (title title' : string) (pagenr pagenr' : pagekey) (post_id : string) :
  (title', py_str pagenr') ≠ (title, py_str pagenr) ->
  get_state (set_state state title pagenr post_id) title' pagenr'
  = get_state state title' pagenr'
  ∧ get_state (clear_state state title pagenr) title' pagenr'
    = get_state state title' pagenr'.
Proof.
  intros Hne. rewrite !get_state_lookup.
  destruct (decide (title' = title)) as [->|Ht].
  - assert (Hk : py_str pagenr ≠ py_str pagenr') by congruence. split.
    + rewrite set_state_insert, lookup_insert_eq. simpl.
      rewrite lookup_insert_ne by done.
      by destruct (state !! title).
    + rewrite clear_state_lookup_cases.
      destruct (state !! title) as [inner|]; [|done]. simpl.
      case_decide as Hempty; simpl.
      * destruct Hempty as [_ Hempty].
        rewrite <-(lookup_delete_ne inner (py_str pagenr)) by done.
        by rewrite Hempty.
      * by rewrite lookup_delete_ne.
  - by rewrite set_state_lookup_ne, clear_state_lookup_ne.
Qed.

(** X15.  [set_state] and [clear_state] touch one entry only: a lookup
    under another title, or under another page number of the same
    title, gives what it gave before. *)
Theorem post_state_other_entries :
  ∀ (state : gmap string (gmap string string)) (title title' : string)
    (pagenr pagenr' : pagekey) (post_id : string),
    (title', py_str pagenr') ≠ (title, py_str pagenr) ->
    get_state (set_state state title pagenr post_id) title' pagenr'
    = get_state state title' pagenr'
    ∧ get_state (clear_state state title pagenr) title' pagenr'
      = get_state state title' pagenr'.
Proof. intros. by apply get_state_other_entry. Qed.

Lemma post_state_other_entries_witness :
  get_state (set_state weather_state "Weather" (KInt 151) "id2") "Weather"
    (KStr "150")
  = get_state weather_state "Weather" (KStr "150").
Proof.
  apply (post_state_other_entries weather_state "Weather" "Weather"
           (KInt 151) (KStr "150") "id2").
  intros H. vm_compute in H. discriminate H.
Defined.

(** X16.  The store never keeps a title with an empty inner dictionary:
    [set_state] and [clear_state] preserve that, and on such a state
    setting an entry that was absent and clearing it again gives back
    the state one started from. *)
Theorem post_state_no_empty_title :
  ∀ (state : gmap string (gmap string string)) (title : string)
    (pagenr : pagekey) (post_id : string),
    no_empty_title state ->
    no_empty_title (set_state state title pagenr post_id)
    ∧ no_empty_title (clear_state state title pagenr)
    ∧ (get_state state title pagenr = None ->
       clear_state (set_state state title pagenr post_id) title pagenr
       = state).
Proof.
  intros state title pagenr post_id Hwf. split_and!.
  - intros t inner. destruct (decide (t = title)) as [->|Hne].
    + rewrite set_state_insert, lookup_insert_eq. intros [= <-].
      apply insert_non_empty.
    + rewrite set_state_lookup_ne by done. apply Hwf.
  - intros t inner. destruct (decide (t = title)) as [->|Hne].
    + rewrite clear_state_lookup_cases.
      destruct (state !! title) as [inner0|] eqn:Ht; [|done].
      case_decide as Hempty; [done|]. intros [= <-] Hdel.
      apply Hempty. split; [|done].
      destruct (inner0 !! py_str pagenr) eqn:Hp; [eauto|].
      rewrite delete_id in Hdel by done. by apply Hwf in Ht.
    + rewrite clear_state_lookup_ne by done. apply Hwf.
  - intros Habsent. apply map_eq. intros t.
    destruct (decide (t = title)) as [->|Hne].
    + rewrite clear_state_lookup_cases, set_state_insert, lookup_insert_eq.
      rewrite lookup_insert_eq, delete_insert_eq.
      rewrite get_state_lookup in Habsent.
      destruct (state !! title) as [inner|] eqn:Ht; simpl in *.
      * rewrite delete_id by done.
        rewrite decide_False; [done|]. intros [_ ?]. by apply Hwf in Ht.
      * rewrite delete_empty. by rewrite decide_True by eauto.
    + by rewrite clear_state_lookup_ne, set_state_lookup_ne.
Qed.

Lemma post_state_no_empty_title_witness :
  clear_state (set_state weather_state "Weather" (KInt 151) "id2") "Weather"
    (KInt 151)
  = weather_state.
Proof.
  apply (post_state_no_empty_title weather_state "Weather" (KInt 151) "id2").
  - intros t inner. unfold weather_state.
    destruct (decide (t = "Weather")) as [->|Hne].
    + rewrite lookup_singleton_eq. intros [= <-]. apply insert_non_empty.
    + by rewrite lookup_singleton_ne.
  - reflexivity.
Defined.

(** ** The calls of the posting functions *)

Lemma collect_media_ids_mapM (media : list (option string))
  (acc : list string) (srv : server) (w : world) :
  fold_run (λ (media_ids : list string) (entry : option string),
              entry_id ← or_raise KeyError entry;
              mret (media_ids ++ [entry_id]))
    acc media srv w
  = (w, match mapM id media with
        | Some ids => Ok (acc ++ ids)
        | None => Raise KeyError
        end).
Proof.
  revert acc. induction media as [|entry media IH]; intros acc.
  - simpl. by rewrite app_nil_r.
  - cbn [fold_run]. rewrite run_bind_eq. destruct entry as [entry_id|].
    + simpl. rewrite IH. simpl.
      destruct (mapM id media); simpl; [|done]. by rewrite <-app_assoc.
    + done.
Qed.

Lemma get_media_data_outcome (opts : options) (auth : list (string * string))
  (post_id : option string) (srv : server) (w : world) :
  get_media_data opts auth post_id srv w
  = (add_call w (status_fetch opts auth post_id)
       (srv (calls w) (status_fetch opts auth post_id)),
     match data (srv (calls w) (status_fetch opts auth post_id)) with
     | None => Raise ValueError
     | Some body =>
         match json_media_attachments body with
         | None => Ok []
         | Some media =>
             match mapM id media with
             | Some ids => Ok ids
             | None => Raise KeyError
             end
         end
     end).
Proof.
  unfold get_media_data, status_fetch, add_call.
  rewrite run_bind_eq. simpl.
  rewrite run_bind_eq. unfold json_loads.
  destruct (data _) as [body|]; [|done]. simpl.
  destruct (json_media_attachments body) as [media|]; [|done].
  by rewrite collect_media_ids_mapM.
Qed.

(** X17.  [get_media_data] makes one call, the GET of the post, and never
    looks at its status.  What it returns depends on the body alone: a
    body that is not JSON raises [ValueError], a body without
    ['media_attachments'] gives the empty list, an attachment without
    ['id'] raises [KeyError], and otherwise the ids come back in order. *)
Theorem get_media_data_cases :
  ∀ (opts : options) (auth : list (string * string))
    (post_id : option string) (srv : server) (w : world),
    let fetch :=
      Request "GET"
        (api (opt_server opts) ("/api/v1/statuses/" +:+ fmt post_id)) auth [] in
    let fetched := srv (calls w) fetch in
    get_media_data opts auth post_id srv w
    = ({| calls := calls w ++ [(fetch, fetched)];
          state_file := state_file w |},
       match data fetched with
       | None => Raise ValueError
       | Some body =>
           match json_media_attachments body with
           | None => Ok []
           | Some media =>
               match mapM id media with
               | Some ids => Ok ids
               | None => Raise KeyError
               end
           end
       end).
Proof.
  intros opts auth post_id srv w fetch fetched.
  apply get_media_data_outcome.
Qed.

Lemma json_loads_id_outcome (result : response) (srv : server) (w : world) :
  json_loads_id result srv w = (w, id_of_reply result).
Proof.
  unfold json_loads_id, json_loads, id_of_reply. rewrite run_bind_eq.
  destruct (data result) as [body|]; [|done]. simpl.
  by destruct (json_id body).
Qed.

Lemma generate_attachment_outcome (X : externals) (opts : options)
  (auth : list (string * string)) (pagenr : Z)
  (raw_content text_content timestamp : string) (srv : server) (w : world) :
  let upload := page_upload X opts auth pagenr raw_content text_content
                  timestamp in
  let uploaded := srv (calls w) upload in
  generate_attachment X opts auth pagenr raw_content text_content timestamp
    srv w
  = (add_call w upload uploaded, upload_outcome uploaded).
Proof.
  intros upload uploaded. subst upload uploaded.
  unfold generate_attachment, page_upload, upload_outcome, add_call.
  rewrite run_bind_eq. simpl.
  case_decide; [done|]. by rewrite json_loads_id_outcome.
Qed.

Lemma generate_diff_attachment_outcome (X : externals) (opts : options)
  (auth : list (string * string)) (text timestamp : string) (srv : server)
  (w : world) :
  let upload := diff_upload X opts auth text timestamp in
  let uploaded := srv (calls w) upload in
  generate_diff_attachment X opts auth text timestamp srv w
  = (add_call w upload uploaded, upload_outcome uploaded).
Proof.
  intros upload uploaded. subst upload uploaded.
  unfold generate_diff_attachment, diff_upload, upload_outcome, add_call.
  rewrite run_bind_eq. simpl.
  case_decide; [done|]. by rewrite json_loads_id_outcome.
Qed.

(** X18.  [create_post] uploads the picture first.  When the upload fails
    (status of 400 or more, or no id in the reply) nothing is posted.
    Otherwise the status is posted with the media id, and the result
    depends on the body of that reply alone: its status is not looked
    at, and a body without an id ends the run with an exception. *)
Theorem create_post_calls :
  ∀ (X : externals) (opts : options) (auth : list (string * string))
    (title : string) (pagenr : Z) (raw_content text_content timestamp : string)
    (srv : server) (w : world),
    let upload := page_upload X opts auth pagenr raw_content text_content
                    timestamp in
    let uploaded := srv (calls w) upload in
    let w1 := add_call w upload uploaded in
    create_post X opts auth title pagenr raw_content text_content timestamp
      srv w
    = match upload_outcome uploaded with
      | Ok media_id =>
          let post := new_status opts auth pagenr title media_id in
          let posted := srv (calls w1) post in
          (add_call w1 post posted,
           match id_of_reply posted with
           | Ok post_id => Ok (media_id, post_id)
           | Exit code => Exit code
           | Raise e => Raise e
           end)
      | Exit code => (w1, Exit code)
      | Raise e => (w1, Raise e)
      end.
Proof.
  intros X opts auth title pagenr raw_content text_content timestamp srv w
    upload uploaded w1.
  unfold create_post. rewrite run_bind_eq, generate_attachment_outcome.
  fold upload uploaded w1.
  destruct (upload_outcome uploaded) as [media_id|code|e]; [|done|done].
  rewrite run_bind_eq. cbn [http_request]. rewrite run_bind_eq.
  rewrite json_loads_id_outcome.
  by destruct (id_of_reply _).
Qed.

(** X19.  For a page whose text did not change [create_update] fetches
    the attachments of the post and, when that works, sends one PUT for
    the same post with the new caption and the same attachments; it
    returns the id it was given with the status of the PUT, and uploads
    nothing. *)
Theorem create_update_same_text_calls :
  ∀ (X : externals) (opts : options) (auth : list (string * string))
    (post_id : string) (old_pagenr new_pagenr : Z)
    (old_pagedata new_pagedata : page) (timestamp : string)
    (srv : server) (w : world) (media_ids : list string),
    let fetch := status_fetch opts auth (Some post_id) in
    let fetched := srv (calls w) fetch in
    let w1 := add_call w fetch fetched in
    let update := status_update opts auth post_id new_pagenr new_pagedata
                    media_ids in
    let updated := srv (calls w1) update in
    text old_pagedata = text new_pagedata ->
    media_of_reply fetched = Some media_ids ->
    create_update X opts auth post_id old_pagenr old_pagedata new_pagenr
      new_pagedata timestamp srv w
    = (add_call w1 update updated, Ok (post_id, status updated)).
Proof.
  intros X opts auth post_id old_pagenr new_pagenr old_pagedata new_pagedata
    timestamp srv w media_ids fetch fetched w1 update updated Htext Hmedia.
  unfold create_update. rewrite decide_True by done.
  rewrite run_bind_eq, get_media_data_outcome.
  fold fetch fetched w1. unfold media_of_reply in Hmedia.
  destruct (data fetched) as [body|]; [|done].
  change (match json_media_attachments body with
          | None => Some []
          | Some media => mapM id media
          end = Some media_ids) in Hmedia.
  destruct (json_media_attachments body) as [media|].
  - rewrite Hmedia. by rewrite run_bind_eq.
  - injection Hmedia as <-. by rewrite run_bind_eq.
Qed.

Lemma create_update_same_text_calls_witness :
  let old_pagedata := Page "Weather" "Sun tomorrow" "<b>Sun</b>" in
  let new_pagedata := Page "Weather today" "Sun tomorrow" "<i>Sun</i>" in
  let srv := answers 200 (ReplyJson (Some "id1") (Some [Some "m1"; Some "m2"])) in
  let run := create_update sample_externals (sample_options true false) []
               "id1" 150 old_pagedata 151 new_pagedata "2 jan" srv
               (World [] None) in
  map (λ call, req_method call.1) (calls run.1) = ["GET"; "PUT"]
  ∧ run.2 = Ok ("id1", 200).
Proof.
  intros old_pagedata new_pagedata srv run. subst run.
  rewrite (create_update_same_text_calls sample_externals
             (sample_options true false) [] "id1" 150 151 old_pagedata
             new_pagedata "2 jan" srv (World [] None) ["m1"; "m2"]);
    [by vm_compute|reflexivity|reflexivity].
Defined.

(** X20.  For a page whose text changed [create_update] uploads the new
    picture, then the picture of the diff of the two texts, then posts a
    new status in reply to the old post with the two media ids, in that
    order.  A failing upload ends the run before anything further is
    sent.  The status of the last call is returned but not examined,
    and the id returned is the one of the new post. *)
Theorem create_update_changed_text_calls :
  ∀ (X : externals) (opts : options) (auth : list (string * string))
    (post_id : string) (old_pagenr new_pagenr : Z)
    (old_pagedata new_pagedata : page) (timestamp : string)
    (srv : server) (w : world),
    let upload := page_upload X opts auth new_pagenr (raw new_pagedata)
                    (text new_pagedata) timestamp in
    let uploaded := srv (calls w) upload in
    let w1 := add_call w upload uploaded in
    let diff := diff_upload X opts auth
                  (generate_diff X opts (text old_pagedata)
                     (text new_pagedata)) timestamp in
    let diffed := srv (calls w1) diff in
    let w2 := add_call w1 diff diffed in
    text old_pagedata ≠ text new_pagedata ->
    create_update X opts auth post_id old_pagenr old_pagedata new_pagenr
      new_pagedata timestamp srv w
    = match upload_outcome uploaded with
      | Ok id1 =>
          match upload_outcome diffed with
          | Ok id2 =>
              let post := follow_up_status opts auth post_id new_pagenr
                            new_pagedata [id1; id2] in
              let posted := srv (calls w2) post in
              (add_call w2 post posted,
               match id_of_reply posted with
               | Ok new_id => Ok (new_id, status posted)
               | Exit code => Exit code
               | Raise e => Raise e
               end)
          | Exit code => (w2, Exit code)
          | Raise e => (w2, Raise e)
          end
      | Exit code => (w1, Exit code)
      | Raise e => (w1, Raise e)
      end.
Proof.
  intros X opts auth post_id old_pagenr new_pagenr old_pagedata new_pagedata
    timestamp srv w upload uploaded w1 diff diffed w2 Htext.
  unfold create_update. rewrite decide_False by done.
  rewrite run_bind_eq, generate_attachment_outcome.
  fold upload uploaded w1.
  destruct (upload_outcome uploaded) as [id1|code|e]; [|done|done].
  rewrite run_bind_eq, generate_diff_attachment_outcome.
  fold diff diffed w2.
  destruct (upload_outcome diffed) as [id2|code|e]; [|done|done].
  rewrite run_bind_eq. cbn [http_request]. rewrite run_bind_eq.
  rewrite json_loads_id_outcome.
  by destruct (id_of_reply _).
Qed.

Lemma create_update_changed_text_calls_witness :
  let old_pagedata := Page "Weather" "Sun tomorrow" "<b>Sun</b>" in
  let new_pagedata := Page "Weather" "Rain tomorrow" "<b>Rain</b>" in
  let srv := answers 200 (ReplyJson (Some "id2") None) in
  let run := create_update sample_externals (sample_options true false) []
               "id1" 150 old_pagedata 150 new_pagedata "2 jan" srv
               (World [] None) in
  map (λ call, (req_method call.1, req_url call.1)) (calls run.1)
  = [("POST", "https://example.social/api/v2/media");
     ("POST", "https://example.social/api/v2/media");
     ("POST", "https://example.social/api/v1/statuses")]
  ∧ run.2 = Ok ("id2", 200).
Proof.
  intros old_pagedata new_pagedata srv run. subst run.
  rewrite (create_update_changed_text_calls sample_externals
             (sample_options true false) [] "id1" 150 150 old_pagedata
             new_pagedata "2 jan" srv (World [] None));
    [by vm_compute|by intros [=]].
Defined.

(** ** The reconciler as a whole *)

Lemma candidate_matches_same (data : page) : candidate_matches data data = true.
Proof.
  unfold candidate_matches.
  by rewrite (overlap_reached_same_text data data), orb_true_r.
Qed.

Lemma reconcile_prev_same_page (X : externals) (opts : options)
  (auth : list (string * string)) (ls : loop_state) (pagenr : Z)
  (pagedata : page) (rest : odict Z page) (srv : server) (w : world) :
  pagenr ≠ 0 ->
  ls_next ls = (pagenr, pagedata) :: rest ->
  reconcile_prev X opts auth ls (pagenr, pagedata) srv w
  = (w, Ok {| ls_state := ls_state ls; ls_next := rest;
              ls_alt := ls_alt ls; ls_del := ls_del ls |}).
Proof.
  intros Hpagenr Hnext. unfold reconcile_prev.
  rewrite Hnext, find_matching_page_first, first_match_cons,
    candidate_matches_same.
  rewrite run_bind_eq. cbn [run_pure or_raise mret run_ret no_match].
  rewrite bool_decide_eq_false_2 by done.
  cbn [default OrderedDict.get]. rewrite decide_True by done.
  rewrite run_bind_eq. cbn [or_raise mret run_ret].
  rewrite !bool_decide_eq_true_2 by done. cbn [andb].
  cbn [OrderedDict.del]. rewrite decide_True by done.
  by rewrite run_bind_eq.
Qed.

Lemma fold_reconcile_prev_same (X : externals) (opts : options)
  (auth : list (string * string)) (page_list : odict Z page)
  (ls : loop_state) (srv : server) (w : world) :
  0 ∉ OrderedDict.keys page_list ->
  ls_next ls = page_list ->
  fold_run (reconcile_prev X opts auth) ls page_list srv w
  = (w, Ok {| ls_state := ls_state ls; ls_next := [];
              ls_alt := ls_alt ls; ls_del := ls_del ls |}).
Proof.
  revert ls. induction page_list as [|[pagenr pagedata] rest IH];
    intros ls Hzero Hnext.
  - simpl. by destruct ls; simplify_eq/=.
  - cbn [fold_run]. rewrite run_bind_eq.
    unfold OrderedDict.keys in Hzero. simpl in Hzero.
    apply not_elem_of_cons in Hzero as [Hpagenr Hzero].
    rewrite (reconcile_prev_same_page X opts auth ls pagenr pagedata rest)
      by done.
    by rewrite IH.
Qed.

(** X21.  Comparing a snapshot with itself (no page numbered 0) sends
    nothing, reports nothing, and writes back the state it loaded: every
    page finds itself as its first candidate and is taken off the list
    of new pages. *)
Theorem main_same_snapshot :
  ∀ (X : externals) (opts : options) (data : odict string (list entry))
    (page_list : odict Z page) (srv : server) (w : world),
    normalize_data data = Some page_list ->
    0 ∉ OrderedDict.keys page_list ->
    main X opts data data srv w
    = ({| calls := calls w;
          state_file := Some (default ∅ (state_file w)) |},
       Ok {| pages_del := []; pages_new := []; pages_alt := [] |}).
Proof.
  intros X opts data page_list srv w Hdata Hzero.
  unfold main. rewrite run_bind_eq. cbn [load_post_state].
  rewrite Hdata. rewrite run_bind_eq. cbn [or_raise mret run_ret].
  rewrite run_bind_eq. cbn [mret run_ret]. rewrite run_bind_eq.
  by rewrite (fold_reconcile_prev_same X opts _ page_list) by done.
Qed.

Lemma main_same_snapshot_witness :
  main sample_externals (sample_options true false) weather_snapshot
    weather_snapshot (replies_with 500) (World [] (Some weather_state))
  = (World [] (Some weather_state),
     Ok {| pages_del := []; pages_new := []; pages_alt := [] |}).
Proof.
  apply (main_same_snapshot sample_externals (sample_options true false)
           weather_snapshot
           [(150, Page "Weather" "Sun tomorrow" "<b>Sun</b>")]).
  - by vm_compute.
  - apply (bool_decide_unpack (0 ∉ [150])). by vm_compute.
Defined.

Lemma fold_run_ok_count {S A} (body : S -> A -> Run S)
  (P : nat -> S -> Prop) :
  (∀ n s x srv w w' s',
     P n s -> body s x srv w = (w', Ok s') -> P (Datatypes.S n) s') ->
  ∀ l n s srv w w' s',
    P n s -> fold_run body s l srv w = (w', Ok s') ->
    P (n + length l)%nat s'.
Proof.
  intros Hstep l. induction l as [|x rest IH]; intros n s srv w w' s' HP Hrun.
  - injection Hrun as <- <-. by rewrite Nat.add_0_r.
  - cbn [fold_run] in Hrun.
    apply run_bind_ok in Hrun as (s1 & w1 & Hbody & Hrest).
    cbn [length]. rewrite <-Nat.add_succ_comm.
    eapply IH; [|exact Hrest]. by eapply Hstep.
Qed.

Lemma del_length {K V} `{EqDecision K} (k : K) (d d' : odict K V) :
  OrderedDict.del k d = Some d' -> length d = Datatypes.S (length d').
Proof.
  revert d'. induction d as [|[k' v'] rest IH]; intros d'; [done|].
  cbn [OrderedDict.del]. case_decide.
  - by intros [= <-].
  - destruct (OrderedDict.del k rest) as [rest'|]; [|done].
    intros [= <-]. cbn [length]. by rewrite (IH rest').
Qed.

Lemma reconcile_deleted_ok (opts : options) (auth : list (string * string))
  (ls ls' : loop_state) (pagenr : Z) (pagedata : page) (srv : server)
  (w w' : world) :
  reconcile_deleted opts auth ls pagenr pagedata srv w = (w', Ok ls') ->
  ls_next ls' = ls_next ls ∧ ls_alt ls' = ls_alt ls
  ∧ ∃ line, ls_del ls' = ls_del ls ++ [line].
Proof.
  unfold reconcile_deleted. intros H.
  apply run_bind_ok in H as ([result_status state] & w1 & _ & H).
  injection H as <- <-. simpl. eauto.
Qed.

Lemma reconcile_changed_ok (X : externals) (opts : options)
  (auth : list (string * string)) (ls ls' : loop_state) (pagenr : Z)
  (pagedata : page) (pagenr_match : Z) (new_pagedata : page) (srv : server)
  (w w' : world) :
  reconcile_changed X opts auth ls pagenr pagedata pagenr_match new_pagedata
    srv w = (w', Ok ls') ->
  OrderedDict.del pagenr_match (ls_next ls) = Some (ls_next ls')
  ∧ ls_del ls' = ls_del ls
  ∧ ∃ line, ls_alt ls' = ls_alt ls ++ [line].
Proof.
  unfold reconcile_changed. intros H.
  apply run_bind_ok in H as ([[post_id result_status] state] & w1 & _ & H).
  apply run_bind_ok in H as (next_list & w2 & Hdel & H).
  apply or_raise_ok in Hdel as [Hdel ->].
  injection H as <- <-. simpl. eauto.
Qed.

Lemma reconcile_prev_ok (X : externals) (opts : options)
  (auth : list (string * string)) (ls ls' : loop_state) (pagenr : Z)
  (pagedata : page) (srv : server) (w w' : world) :
  reconcile_prev X opts auth ls (pagenr, pagedata) srv w = (w', Ok ls') ->
  (ls_next ls' = ls_next ls ∧ ls_alt ls' = ls_alt ls
   ∧ ∃ line, ls_del ls' = ls_del ls ++ [line])
  ∨ (∃ pagenr_match,
       OrderedDict.del pagenr_match (ls_next ls) = Some (ls_next ls')
       ∧ ls_del ls' = ls_del ls
       ∧ (ls_alt ls' = ls_alt ls ∨ ∃ line, ls_alt ls' = ls_alt ls ++ [line])).
Proof.
  unfold reconcile_prev. intros H.
  apply run_bind_ok in H as (pagenr_match & w1 & _ & H).
  destruct (no_match pagenr_match).
  { left. by eapply reconcile_deleted_ok. }
  right. exists (default 0 pagenr_match).
  apply run_bind_ok in H as (new_pagedata & w2 & _ & H).
  destruct (_ && _).
  - apply run_bind_ok in H as (next_list & w3 & Hdel & H).
    apply or_raise_ok in Hdel as [Hdel ->].
    injection H as <- <-. simpl. eauto.
  - apply reconcile_changed_ok in H as (Hdel & Hsame & line & Halt). eauto 6.
Qed.

Lemma reconcile_new_ok (X : externals) (opts : options)
  (auth : list (string * string))
  (state state' : gmap string (gmap string string))
  (pages_new pages_new' : list string) (item : Z * page) (srv : server)
  (w w' : world) :
  reconcile_new X opts auth (state, pages_new) item srv w
  = (w', Ok (state', pages_new')) ->
  ∃ line, pages_new' = pages_new ++ [line].
Proof.
  unfold reconcile_new. destruct item as [pagenr pagedata].
  destruct (opt_post opts).
  - intros H.
    apply run_bind_ok in H as ([[media_id post_id] state1] & w1 & _ & H).
    injection H as <- <- <-. eauto.
  - intros [= <- <- <-]. eauto.
Qed.

Lemma fold_reconcile_prev_counts (X : externals) (opts : options)
  (auth : list (string * string)) (prev_list : odict Z page)
  (ls ls' : loop_state) (srv : server) (w w' : world) :
  fold_run (reconcile_prev X opts auth) ls prev_list srv w = (w', Ok ls') ->
  ∃ kept : nat,
    (length (ls_del ls') + kept
     = length (ls_del ls) + length prev_list)%nat
    ∧ (length (ls_next ls') + kept = length (ls_next ls))%nat
    ∧ (length (ls_alt ls') ≤ length (ls_alt ls) + kept)%nat.
Proof.
  intros Hrun.
  pose (P := λ (n : nat) (s : loop_state),
          ∃ kept : nat,
            (length (ls_del s) + kept = length (ls_del ls) + n)%nat
            ∧ (length (ls_next s) + kept = length (ls_next ls))%nat
            ∧ (length (ls_alt s) ≤ length (ls_alt ls) + kept)%nat).
  change (P (length prev_list) ls').
  apply (fold_run_ok_count (reconcile_prev X opts auth) P) with
    (l := prev_list) (n := 0%nat) (s := ls) (srv := srv) (w := w) (w' := w');
    [|exists 0%nat; lia|done].
  clear. intros n s [pagenr pagedata] srv w w' s' (kept & Hdel & Hnext & Halt)
    Hbody.
  apply reconcile_prev_ok in Hbody
    as [(Hn & Ha & line & Hd)|(pagenr_match & Hd & Hsame & Ha)].
  - exists kept. rewrite Hn, Ha, Hd, length_app. simpl. lia.
  - exists (Datatypes.S kept). apply del_length in Hd. rewrite Hsame.
    destruct Ha as [->|[line ->]]; [|rewrite length_app; simpl]; lia.
Qed.

Lemma fold_reconcile_new_counts (X : externals) (opts : options)
  (auth : list (string * string)) (next_list : odict Z page)
  (state state' : gmap string (gmap string string))
  (pages_new pages_new' : list string) (srv : server) (w w' : world) :
  fold_run (reconcile_new X opts auth) (state, pages_new) next_list srv w
  = (w', Ok (state', pages_new')) ->
  length pages_new' = (length pages_new + length next_list)%nat.
Proof.
  intros Hrun.
  pose (P := λ (n : nat) (s : gmap string (gmap string string) * list string),
          length s.2 = (length pages_new + n)%nat).
  change (P (length next_list) (state', pages_new')).
  apply (fold_run_ok_count (reconcile_new X opts auth) P) with
    (l := next_list) (n := 0%nat) (s := (state, pages_new)) (srv := srv)
    (w := w) (w' := w'); [|unfold P; simpl; lia|done].
  clear. intros n [state pages_new0] item srv w w' [state' pages_new'] HP Hbody.
  apply reconcile_new_ok in Hbody as [line ->].
  unfold P in *. simpl in *. rewrite length_app. simpl. lia.
Qed.

(** X22.  In every run that ends well the report accounts for every
    page: each old page is retracted, unchanged or changed, each new
    page is matched by one old page or listed as new.  So the pages
    listed as new and the old pages are as many as the new pages and the
    retracted ones, and the changed pages are at most the old pages that
    were not retracted and at most the new pages that were not listed. *)
Theorem main_report_counts :
  ∀ (X : externals) (opts : options)
    (prev_json next_json : odict string (list entry))
    (prev_list next_list : odict Z page) (srv : server) (w w' : world)
    (r : report),
    normalize_data prev_json = Some prev_list ->
    normalize_data next_json = Some next_list ->
    main X opts prev_json next_json srv w = (w', Ok r) ->
    (length (pages_new r) + length prev_list
     = length next_list + length (pages_del r))%nat
    ∧ (length (pages_del r) + length (pages_alt r) ≤ length prev_list)%nat
    ∧ (length (pages_new r) + length (pages_alt r) ≤ length next_list)%nat.
Proof.
  intros X opts prev_json next_json prev_list next_list srv w w' r Hprev Hnext
    Hrun.
  unfold main in Hrun. rewrite Hprev, Hnext in Hrun.
  apply run_bind_ok in Hrun as (state & w1 & _ & Hrun).
  apply run_bind_ok in Hrun as (prev_list' & w2 & [= <- <-] & Hrun).
  apply run_bind_ok in Hrun as (next_list' & w3 & [= <- <-] & Hrun).
  apply run_bind_ok in Hrun as (ls & w4 & Hfirst & Hrun).
  apply run_bind_ok in Hrun as ([state' pages_new'] & w5 & Hsecond & Hrun).
  apply run_bind_ok in Hrun as ([] & w6 & _ & Hrun).
  injection Hrun as <- <-. simpl.
  apply fold_reconcile_prev_counts in Hfirst as (kept & Hdel & Hleft & Halt).
  apply fold_reconcile_new_counts in Hsecond. simpl in *. lia.
Qed.

Lemma main_report_counts_witness :
  let run := main sample_externals (sample_options true false)
               weather_snapshot (sports_snapshot "Goal" "<b>Goal</b>")
               (answers 200 (ReplyJson (Some "id2") None))
               (World [] (Some weather_state)) in
  ∃ r, run.2 = Ok r
       ∧ (length (pages_new r) + 1 = 1 + length (pages_del r))%nat
       ∧ (length (pages_del r) + length (pages_alt r) ≤ 1)%nat
       ∧ (length (pages_new r) + length (pages_alt r) ≤ 1)%nat.
Proof.
  intros run.
  destruct run.2 as [r|code|e] eqn:Hrun; [|by vm_compute in Hrun..].
  exists r. split; [done|].
  apply (main_report_counts sample_externals (sample_options true false)
           weather_snapshot (sports_snapshot "Goal" "<b>Goal</b>")
           [(150, Page "Weather" "Sun tomorrow" "<b>Sun</b>")]
           [(160, Page "Sports" "Goal" "<b>Goal</b>")]
           (answers 200 (ReplyJson (Some "id2") None))
           (World [] (Some weather_state)) run.1 r);
    [by vm_compute|by vm_compute|].
  rewrite <-Hrun. apply surjective_pairing.
Defined.

Lemma fold_reconcile_new_listing (X : externals) (opts : options)
  (auth : list (string * string)) (next_list : odict Z page)
  (state : gmap string (gmap string string)) (pages_new : list string)
  (srv : server) (w : world) :
  opt_post opts = false ->
  fold_run (reconcile_new X opts auth) (state, pages_new) next_list srv w
  = (w, Ok (state,
            pages_new ++ map (λ item, new_line item.1 item.2) next_list)).
Proof.
  intros Hpost. revert pages_new.
  induction next_list as [|[pagenr pagedata] rest IH]; intros pages_new.
  - simpl. by rewrite app_nil_r.
  - cbn [fold_run]. rewrite run_bind_eq. unfold reconcile_new at 1.
    rewrite Hpost. cbn [mret run_ret]. rewrite IH. simpl.
    by rewrite <-app_assoc.
Qed.

(** X23.  Without [--post] the pages left over by the first loop are only
    listed: no call is made for them, the state saved is the one the
    first loop left, and the list of new pages has one line per page
    left, in order, with its number and title. *)
Theorem main_without_post :
  ∀ (X : externals) (opts : options)
    (prev_json next_json : odict string (list entry))
    (prev_list next_list : odict Z page) (srv : server) (w w1 : world)
    (ls : loop_state),
    opt_post opts = false ->
    normalize_data prev_json = Some prev_list ->
    normalize_data next_json = Some next_list ->
    fold_run (reconcile_prev X opts (auth_headers (opt_token opts)))
      {| ls_state := default ∅ (state_file w); ls_next := next_list;
         ls_alt := []; ls_del := [] |}
      prev_list srv w = (w1, Ok ls) ->
    main X opts prev_json next_json srv w
    = ({| calls := calls w1; state_file := Some (ls_state ls) |},
       Ok {| pages_del := ls_del ls;
             pages_new := map (λ item, new_line item.1 item.2) (ls_next ls);
             pages_alt := ls_alt ls |}).
Proof.
  intros X opts prev_json next_json prev_list next_list srv w w1 ls Hpost
    Hprev Hnext Hfirst.
  unfold main. rewrite run_bind_eq. cbn [load_post_state].
  rewrite Hprev, Hnext. rewrite run_bind_eq. cbn [or_raise mret run_ret].
  rewrite run_bind_eq. cbn [mret run_ret]. rewrite run_bind_eq.
  rewrite Hfirst. rewrite run_bind_eq.
  by rewrite fold_reconcile_new_listing by done.
Qed.

Lemma main_without_post_witness :
  main sample_externals
    (Options "pages/20240102-030405.json" "pages/20240102-040506.json" false
       (Some "example.social") (Some "secret") false false)
    [] weather_snapshot (replies_with 500) (World [] None)
  = (World [] (Some ∅),
     Ok {| pages_del := []; pages_new := ["#150 'Weather"];
           pages_alt := [] |}).
Proof.
  apply (main_without_post sample_externals
           (Options "pages/20240102-030405.json" "pages/20240102-040506.json"
              false (Some "example.social") (Some "secret") false false)
           [] weather_snapshot []
           [(150, Page "Weather" "Sun tomorrow" "<b>Sun</b>")]
           (replies_with 500) (World [] None) (World [] None)
           {| ls_state := ∅;
              ls_next := [(150, Page "Weather" "Sun tomorrow" "<b>Sun</b>")];
              ls_alt := []; ls_del := [] |});
    reflexivity.
Defined.

Lemma of_Z_inj (a b : Z) : PyStr.of_Z a = PyStr.of_Z b -> a = b.
Proof.
  unfold PyStr.of_Z. intros H.
  assert (Hnn : ∀ z : Z, Z.to_int z ≠ Decimal.Pos Decimal.Nil
                         ∧ Z.to_int z ≠ Decimal.Neg Decimal.Nil).
  { intros [|p|p]; simpl; split; try discriminate; intros [= E];
      by apply (Unsigned.to_uint_nonnil p). }
  apply (f_equal NilZero.int_of_string) in H.
  rewrite !NilZero.isi in H by apply Hnn.
  injection H as H. rewrite <-(DecimalZ.of_to a), <-(DecimalZ.of_to b).
  by rewrite H.
Qed.

Lemma get_state_set_state (state : gmap string (gmap string string))
  (title : string) (pagenr : pagekey) (post_id : string) :
  get_state (set_state state title pagenr post_id) title pagenr
  = Some post_id.
Proof.
  rewrite get_state_lookup, set_state_insert, lookup_insert_eq. simpl.
  by rewrite lookup_insert_eq.
Qed.

Lemma create_update_same_text_id (X : externals) (opts : options)
  (auth : list (string * string)) (post_id : string)
  (old_pagenr new_pagenr : Z) (old_pagedata new_pagedata : page)
  (timestamp : string) (srv : server) (w w' : world) (new_id : string)
  (result_status : Z) :
  text old_pagedata = text new_pagedata ->
  create_update X opts auth post_id old_pagenr old_pagedata new_pagenr
    new_pagedata timestamp srv w = (w', Ok (new_id, result_status)) ->
  new_id = post_id.
Proof.
  intros Htext. unfold create_update. rewrite decide_True by done.
  intros H. apply run_bind_ok in H as (media_ids & w1 & _ & H).
  apply run_bind_ok in H as (result & w2 & _ & H).
  by injection H as _ <- _.
Qed.

(** X24.  What a live change does to the state.  Afterwards the new
    title and number carry a post id; when the old entry had a usable id
    and the text is the same, it is that id, so the post follows the page.
    The old title and number, when they differ from the new ones, no
    longer carry a usable id, and no other entry is touched. *)
Theorem reconcile_changed_state :
  ∀ (X : externals) (opts : options) (auth : list (string * string))
    (ls ls' : loop_state) (pagenr : Z) (pagedata : page) (pagenr_match : Z)
    (new_pagedata : page) (srv : server) (w w' : world),
    let stored := get_state (ls_state ls) (title pagedata) (KInt pagenr) in
    opt_dryrun opts = false ->
    reconcile_changed X opts auth ls pagenr pagedata pagenr_match
      new_pagedata srv w = (w', Ok ls') ->
    is_Some (get_state (ls_state ls') (title new_pagedata)
               (KInt pagenr_match))
    ∧ (truthy stored = true -> text pagedata = text new_pagedata ->
       get_state (ls_state ls') (title new_pagedata) (KInt pagenr_match)
       = stored)
    ∧ ((title pagedata, pagenr) ≠ (title new_pagedata, pagenr_match) ->
       truthy (get_state (ls_state ls') (title pagedata) (KInt pagenr))
       = false)
    ∧ (∀ (other : string) (n : Z),
         (other, n) ≠ (title pagedata, pagenr) ->
         (other, n) ≠ (title new_pagedata, pagenr_match) ->
         get_state (ls_state ls') other (KInt n)
         = get_state (ls_state ls) other (KInt n)).
Proof.
  intros X opts auth ls ls' pagenr pagedata pagenr_match new_pagedata srv w w'
    stored Hlive Hrun.
  assert (Hkey : ∀ (t t' : string) (n n' : Z),
            (t, n) ≠ (t', n') -> (t, py_str (KInt n)) ≠ (t', py_str (KInt n'))).
  { intros t t' n n' Hne [= -> Hn]. apply of_Z_inj in Hn. by subst. }
  unfold reconcile_changed in Hrun. fold stored in Hrun.
  rewrite Hlive in Hrun.
  apply run_bind_ok in Hrun
    as ([[post_id result_status] state] & w1 & Hpost & Hrun).
  apply run_bind_ok in Hrun as (next_list & w2 & _ & Hrun).
  injection Hrun as _ <-. cbn [ls_state].
  destruct (truthy stored) eqn:Htruthy.
  - apply run_bind_ok in Hpost as ([new_id status'] & w3 & Hupdate & Hpost).
    injection Hpost as _ _ _ <-. split_and!.
    + by rewrite get_state_set_state.
    + intros _ Htext. rewrite get_state_set_state.
      apply create_update_same_text_id in Hupdate; [|done]. subst new_id.
      destruct stored as [id|]; [done|discriminate Htruthy].
    + intros Hne.
      rewrite (proj1 (get_state_other_entry _ _ _ _ _ _ (Hkey _ _ _ _ Hne))).
      by rewrite get_state_clear_state.
    + intros other n Hold Hnew.
      rewrite (proj1 (get_state_other_entry _ _ _ _ _ _ (Hkey _ _ _ _ Hnew))).
      by rewrite
        (proj2 (get_state_other_entry _ _ _ _ _ EmptyString
                  (Hkey _ _ _ _ Hold))).
  - apply run_bind_ok in Hpost as ([media_id new_id] & w3 & _ & Hpost).
    injection Hpost as _ _ _ <-. split_and!.
    + by rewrite get_state_set_state.
    + done.
    + intros Hne.
      by rewrite (proj1 (get_state_other_entry _ _ _ _ _ _ (Hkey _ _ _ _ Hne))).
    + intros other n Hold Hnew.
      by rewrite
        (proj1 (get_state_other_entry _ _ _ _ _ _ (Hkey _ _ _ _ Hnew))).
Qed.

Lemma reconcile_changed_state_witness :
  let opts := sample_options true false in
  let pagedata := Page "Sports" "Goal" "<b>Goal</b>" in
  let ls := {| ls_state := sports_state; ls_next := [(161, pagedata)];
               ls_alt := []; ls_del := [] |} in
  let run := reconcile_changed sample_externals opts [] ls 160 pagedata 161
               pagedata (answers 200 (ReplyJson (Some "s1") (Some [])))
               (World [] None) in
  ∃ ls', run.2 = Ok ls'
         ∧ get_state (ls_state ls') "Sports" (KInt 161) = Some "s1"
         ∧ truthy (get_state (ls_state ls') "Sports" (KInt 160)) = false.
Proof.
  intros opts pagedata ls run.
  destruct run.2 as [ls'|code|e] eqn:Hrun; [|by vm_compute in Hrun..].
  exists ls'. split; [done|].
  destruct (reconcile_changed_state sample_externals opts [] ls ls' 160
              pagedata 161 pagedata
              (answers 200 (ReplyJson (Some "s1") (Some [])))
              (World [] None) run.1) as (_ & Hsame & Hold & _).
  - reflexivity.
  - rewrite <-Hrun. apply surjective_pairing.
  - split.
    + apply Hsame; reflexivity.
    + apply Hold. intros H. discriminate H.
Defined.

(** ** The lines of the picture of a diff *)

Lemma append_cons (c : ascii) (s t : string) :
  String c s +:+ t = String c (s +:+ t).
Proof. reflexivity. Qed.

Lemma append_assoc (s t u : string) : (s +:+ t) +:+ u = s +:+ (t +:+ u).
Proof.
  induction s as [|c s IH]; [done|]. by rewrite !append_cons, IH.
Qed.

Lemma count_tabs_append (s t : string) :
  count_tabs (s +:+ t) = (count_tabs s + count_tabs t)%nat.
Proof.
  induction s as [|c s IH]; [done|]. rewrite append_cons. simpl.
  destruct (is_tab c); simpl; by rewrite IH.
Qed.

Lemma count_tabs_spaces (n : nat) : count_tabs (spaces n) = 0%nat.
Proof. induction n as [|n IH]; [done|]. simpl. exact IH. Qed.

Lemma substring_spaces (n : nat) :
  (n ≤ 8)%nat -> substring 0 n "        " = spaces n.
Proof. intros Hn. do 9 (destruct n as [|n]; [done|]). lia. Qed.

Lemma split_at_tab_None (s : string) :
  split_at_tab s = None <-> count_tabs s = 0%nat.
Proof.
  induction s as [|c s IH]; [done|]. simpl. destruct (is_tab c); [done|].
  destruct (split_at_tab s) as [[before after]|]; simpl.
  - split; [done|]. intros H. apply IH in H. discriminate H.
  - split; [|done]. intros _. by apply IH.
Qed.

Lemma split_at_tab_Some (s before after : string) :
  split_at_tab s = Some (before, after) ->
  s = before +:+ String (ascii_of_N 9) after ∧ count_tabs before = 0%nat.
Proof.
  revert before. induction s as [|c s IH]; intros before; [done|]. simpl.
  destruct (is_tab c) eqn:Hc.
  - intros [= <- <-]. apply Ascii.eqb_eq in Hc. by subst c.
  - destruct (split_at_tab s) as [[before' after']|]; simpl; [|done].
    intros [= <- <-]. destruct (IH before' eq_refl) as [Hs Hcount].
    simpl. rewrite Hc. split; [|done]. rewrite append_cons. by f_equal.
Qed.

Lemma split_at_tab_append (pre s : string) :
  count_tabs pre = 0%nat ->
  split_at_tab (pre +:+ s)
  = (λ found : string * string, (pre +:+ found.1, found.2))
      <$> split_at_tab s.
Proof.
  intros Hpre. induction pre as [|c pre IH].
  - change (EmptyString +:+ s) with s.
    destruct (split_at_tab s) as [[before after]|]; reflexivity.
  - rewrite append_cons. simpl in *. destruct (is_tab c); [done|].
    rewrite IH by done.
    destruct (split_at_tab s) as [[before after]|]; reflexivity.
Qed.

Lemma until_newline_le (s : string) :
  (count_tabs (until_newline s) ≤ count_tabs s)%nat.
Proof.
  induction s as [|c s IH]; [done|]. simpl.
  destruct (Ascii.eqb c PyStr.newline); simpl; destruct (is_tab c); lia.
Qed.

Lemma until_newline_all (s : string) :
  has_newline s = false -> until_newline s = s.
Proof.
  induction s as [|c s IH]; [done|]. simpl.
  destruct (Ascii.eqb c PyStr.newline); [done|]. simpl. intros H.
  by rewrite IH.
Qed.

Lemma tab_len_width (n : nat) :
  Z.to_nat (if decide (Z.of_nat n `mod` TAB_SIZE = 0) then TAB_SIZE
            else TAB_SIZE - Z.of_nat n `mod` TAB_SIZE)
  = (4 - n `mod` 4)%nat.
Proof.
  unfold TAB_SIZE.
  pose proof (Nat2Z.inj_mod n 4) as Hmod.
  change (Z.of_nat 4) with 4 in Hmod. rewrite <-Hmod.
  pose proof (Nat.mod_upper_bound n 4 ltac:(lia)) as Hlt.
  case_decide; lia.
Qed.

Lemma tab_m_fewer_tabs (line group1 group2 : string) (width : nat) :
  tab_m line = Some (group1, group2) ->
  (count_tabs (group1 +:+ spaces width +:+ group2) < count_tabs line)%nat.
Proof.
  unfold tab_m. destruct (split_at_tab line) as [[before after]|] eqn:Hsplit;
    simpl; [|done].
  case_decide; [done|]. intros [= <- <-].
  apply split_at_tab_Some in Hsplit as [-> Hbefore].
  rewrite !count_tabs_append, count_tabs_spaces, Hbefore. simpl.
  pose proof (until_newline_le after). lia.
Qed.

Lemma expand_tabs_step (fuel : nat) (line : string) :
  expand_tabs (S fuel) line
  = match tab_m line with
    | None => Some line
    | Some (group1, group2) =>
        expand_tabs fuel
          (group1 +:+ spaces (4 - String.length group1 `mod` 4) +:+ group2)
    end.
Proof.
  cbn [expand_tabs]. destruct (tab_m line) as [[group1 group2]|]; [|done].
  cbv zeta. rewrite tab_len_width.
  by rewrite substring_spaces by lia.
Qed.

Lemma expand_tabs_terminates (fuel : nat) (line : string) :
  (count_tabs line < fuel)%nat -> is_Some (expand_tabs fuel line).
Proof.
  revert line. induction fuel as [|fuel IH]; intros line Hfuel; [lia|].
  rewrite expand_tabs_step.
  destruct (tab_m line) as [[group1 group2]|] eqn:Hm; [|done]. apply IH.
  pose proof (tab_m_fewer_tabs line group1 group2
                (4 - String.length group1 `mod` 4) Hm). lia.
Qed.

Lemma tab_columns_no_tabs (col : nat) (s : string) :
  count_tabs s = 0%nat -> tab_columns col s = s.
Proof.
  revert col. induction s as [|c s IH]; intros col; [done|]. simpl.
  destruct (is_tab c); [done|]. intros H. by rewrite IH.
Qed.

Lemma tab_columns_append (col : nat) (mid s : string) :
  count_tabs mid = 0%nat ->
  tab_columns col (mid +:+ s)
  = mid +:+ tab_columns (col + String.length mid) s.
Proof.
  revert col. induction mid as [|c mid IH]; intros col.
  - intros _. simpl. by rewrite Nat.add_0_r.
  - rewrite append_cons. simpl. destruct (is_tab c); [done|]. intros H.
    rewrite IH by done. rewrite append_cons. do 3 f_equal. lia.
Qed.

Lemma tab_columns_tab_free (col : nat) (s : string) :
  count_tabs (tab_columns col s) = 0%nat.
Proof.
  revert col. induction s as [|c s IH]; intros col; [done|]. simpl.
  destruct (is_tab c) eqn:Hc.
  - by rewrite count_tabs_append, count_tabs_spaces, IH.
  - simpl. by rewrite Hc.
Qed.

Lemma expand_tabs_from (fuel : nat) (pre rest : string) :
  pre ≠ EmptyString ->
  count_tabs pre = 0%nat ->
  has_newline rest = false ->
  (count_tabs rest < fuel)%nat ->
  expand_tabs fuel (pre +:+ rest)
  = Some (pre +:+ tab_columns (String.length pre) rest).
Proof.
  revert pre rest. induction fuel as [|fuel IH];
    intros pre rest Hpre Hcount Hnl Hfuel; [lia|].
  rewrite expand_tabs_step. unfold tab_m.
  rewrite split_at_tab_append by done.
  destruct (split_at_tab rest) as [[mid after]|] eqn:Hsplit;
    cbn [fmap option_fmap option_map mbind option_bind fst snd].
  - rewrite decide_False by (by destruct pre).
    apply split_at_tab_Some in Hsplit as [-> Hmid].
    assert (Hafter : has_newline after = false).
    { clear -Hnl. induction mid as [|c mid IHmid].
      - exact Hnl.
      - rewrite append_cons in Hnl. simpl in Hnl.
        apply orb_false_elim in Hnl as [_ ?]. auto. }
    rewrite until_newline_all by done.
    rewrite length_append.
    set (width := (4 - (String.length pre + String.length mid) `mod` 4)%nat).
    rewrite <-!append_assoc.
    rewrite count_tabs_append in Hfuel. simpl in Hfuel.
    change (is_tab (ascii_of_N 9)) with true in Hfuel.
    rewrite IH.
    + rewrite tab_columns_append by done. simpl.
      change (is_tab (ascii_of_N 9)) with true. cbv iota. fold width.
      rewrite !length_append. rewrite !append_assoc. do 4 f_equal.
      assert (Hspaces : String.length (spaces width) = width).
      { clear. induction width as [|n IHn]; [done|]. simpl. by rewrite IHn. }
      rewrite Hspaces. reflexivity.
    + by destruct pre.
    + by rewrite !count_tabs_append, count_tabs_spaces, Hcount, Hmid.
    + done.
    + lia.
  - apply split_at_tab_None in Hsplit.
    by rewrite tab_columns_no_tabs.
Qed.

(** X25.  The loop that expands the tabs of a line ends: as many rounds
    as the line has tabs are enough.  A line that starts with a tab is
    left as it is, tabs and all.  Any other line (without a newline, as
    [splitlines] gives them) comes out as if expanded in one pass from
    the left, every tab replaced by the one to four spaces that reach
    the next multiple of four, and no tab is left. *)
Theorem expand_tabs_result :
  ∀ (fuel : nat) (line : string),
    (count_tabs line < fuel)%nat ->
    is_Some (expand_tabs fuel line)
    ∧ (starts_with_tab line = true -> expand_tabs fuel line = Some line)
    ∧ (starts_with_tab line = false -> has_newline line = false ->
       expand_tabs fuel line = Some (tab_columns 0 line)
       ∧ count_tabs (tab_columns 0 line) = 0%nat).
Proof.
  intros fuel line Hfuel. split_and!.
  - by apply expand_tabs_terminates.
  - destruct fuel as [|fuel]; [lia|]. destruct line as [|c line]; [done|].
    intros Hstart. rewrite expand_tabs_step. unfold tab_m.
    cbn [split_at_tab].
    change (starts_with_tab (String c line)) with (is_tab c) in Hstart.
    by rewrite Hstart.
  - intros Hstart Hnl. split; [|apply tab_columns_tab_free].
    destruct line as [|c line].
    + destruct fuel; [lia|done].
    + change (starts_with_tab (String c line)) with (is_tab c) in Hstart.
      cbn [has_newline] in Hnl. cbn [count_tabs] in Hfuel.
      rewrite Hstart in Hfuel.
      apply orb_false_elim in Hnl as [_ Hnl].
      change (String c line) with (String c EmptyString +:+ line) at 1.
      rewrite expand_tabs_from;
        [|done|by cbn [count_tabs]; rewrite Hstart|done|done].
      cbn [tab_columns]. by rewrite Hstart.
Qed.

Lemma expand_tabs_result_witness :
  expand_tabs 2 ("--- Vorige versie" +:+ String (ascii_of_N 9) "02 jan")
  = Some "--- Vorige versie   02 jan".
Proof.
  destruct (expand_tabs_result 2
              ("--- Vorige versie" +:+ String (ascii_of_N 9) "02 jan"))
    as (_ & _ & H); [simpl; lia|].
  destruct H as [H _]; [reflexivity|reflexivity|]. exact H.
Defined.

Lemma prefix_cons (a b : ascii) (p s : string) :
  String.prefix (String a p) (String b s)
  = bool_decide (a = b) && String.prefix p s.
Proof.
  cbn [String.prefix]. destruct (ascii_dec a b) as [Heq|Hne].
  - by rewrite bool_decide_eq_true_2.
  - by rewrite bool_decide_eq_false_2.
Qed.

Lemma prefix_empty (s : string) : String.prefix EmptyString s = true.
Proof. by destruct s. Qed.

Ltac decide_chars :=
  repeat match goal with
  | |- context [bool_decide (?a = ?b)] =>
      first [ rewrite (bool_decide_eq_true_2 (a = b)) by reflexivity
            | rewrite (bool_decide_eq_false_2 (a = b)) by discriminate ]
  end.

(** X26.  The colour of the lines of a unified diff.  The two file
    headers are yellow and a hunk header is white.  A line of the body
    is the marker followed by the line of the page: an added line is
    green and a removed line red only when the line of the page starts
    with a space; otherwise they are cyan like the context lines, or
    yellow when the rest happens to complete a file header. *)
Theorem line_color_of_diff_lines :
  ∀ rest : string,
    line_color ("--- " +:+ rest) = "yellow"
    ∧ line_color ("+++ " +:+ rest) = "yellow"
    ∧ line_color ("@@ " +:+ rest) = "white"
    ∧ line_color (" " +:+ rest) = "cyan"
    ∧ line_color ("+" +:+ rest)
      = (if String.prefix " " rest then "green"
         else if String.prefix "++ " rest then "yellow" else "cyan")
    ∧ line_color ("-" +:+ rest)
      = (if String.prefix " " rest then "red"
         else if String.prefix "-- " rest then "yellow" else "cyan").
Proof.
  intros rest. unfold line_color. rewrite !append_cons.
  change (EmptyString +:+ rest) with rest.
  split_and!.
  1-4: rewrite ?prefix_cons, ?prefix_empty; decide_chars; reflexivity.
  - destruct rest as [|c rest]; [reflexivity|].
    rewrite !prefix_cons, ?prefix_empty. decide_chars. cbn [andb orb].
    destruct (decide (c = " "%char)) as [->|Hspace].
    + reflexivity.
    + rewrite !(bool_decide_eq_false_2 (" "%char = c)) by done.
      cbn [andb].
      by destruct (bool_decide ("+"%char = c) && String.prefix "+ " rest).
  - destruct rest as [|c rest]; [reflexivity|].
    rewrite !prefix_cons, ?prefix_empty. decide_chars. cbn [andb orb].
    destruct (decide (c = " "%char)) as [->|Hspace].
    + reflexivity.
    + rewrite !(bool_decide_eq_false_2 (" "%char = c)) by done.
      cbn [andb].
      by destruct (bool_decide ("-"%char = c) && String.prefix "- " rest).
Qed.

(** ** The options *)

Lemma parse_compare_cases (args : arguments) (files : gmap string string) :
  let compare := fmt (arg_compare args) in
  (truthy (arg_compare args) = true ∧ files !! compare = None
   ∧ parse_compare args files = (files, Exit 0))
  ∨ (truthy (arg_compare args) = true
     ∧ ∃ content,
         files !! compare = Some content
         ∧ parse_compare args files
           = (delete compare files,
              Ok (Some (strip (readline content).1),
                  Some (strip (readline (readline content).2).1))))
  ∨ (truthy (arg_compare args) = false
     ∧ (truthy (arg_prev args) = false ∨ truthy (arg_next args) = false)
     ∧ parse_compare args files = (files, Exit 1))
  ∨ (truthy (arg_compare args) = false
     ∧ truthy (arg_prev args) = true ∧ truthy (arg_next args) = true
     ∧ parse_compare args files = (files, Ok (arg_prev args, arg_next args))).
Proof.
  intros compare. unfold parse_compare. fold compare.
  destruct (truthy (arg_compare args)).
  - destruct (files !! compare) as [content|] eqn:Hfile.
    + right. left. split; [done|]. exists content. split; [done|].
      destruct (readline content) as [line1 rest]. cbn [fst snd].
      by destruct (readline rest) as [line2 rest'].
    + by left.
  - right. right.
    destruct (truthy (arg_prev args)), (truthy (arg_next args)); simpl;
      [right|left..]; auto.
Qed.

Lemma parse_post_cases (args : arguments) (files : gmap string string) :
  (∀ e, parse_post args files ≠ Raise e)
  ∧ (∀ code, parse_post args files = Exit code -> code = 1)
  ∧ (∀ token,
       parse_post args files = Ok token ->
       arg_post args = true ->
       truthy (arg_server args) = true
       ∧ (token = arg_token args ∧ truthy token = true
          ∨ ∃ path content,
              arg_token args = Some (String "@" path)
              ∧ files !! path = Some content
              ∧ token = Some (strip content))).
Proof.
  unfold parse_post. destruct (arg_post args); [|by split_and!].
  destruct (truthy (arg_server args)); [|by split_and!; intros; simplify_eq/=].
  destruct (truthy (arg_token args)) eqn:Htoken;
    [|by split_and!; intros; simplify_eq/=].
  cbn [negb orb].
  destruct (arg_token args) as [token|]; [|done]. cbn [fmt].
  destruct token as [|c path]; [by split_and!; intros; simplify_eq/=; eauto|].
  destruct (decide (c = "@"%char)) as [->|Hc].
  - destruct (files !! path) as [content|] eqn:Hfile.
    + split_and!; [done|done|]. intros ? [= <-] _. split; [done|].
      right. by exists path, content.
    + split_and!; [done|by intros ? [= <-]|done].
  - assert (Hret : match String c path with
                   | String "@" path' =>
                       match files !! path' with
                       | Some content => Ok (Some (strip content))
                       | None => Exit 1
                       end
                   | _ => Ok (Some (String c path))
                   end = Ok (Some (String c path))).
    { destruct c as [[] [] [] [] [] [] [] []]; try reflexivity.
      by destruct Hc. }
    rewrite Hret. split_and!; [done|done|]. intros ? [= <-] _. eauto.
Qed.

(** X27.  How [parse_options] ends.  When [parser.parse_args()] does not
    return, because [argparse] ends the run itself (status 2 on a command
    line it rejects, such as one without [--state]; status 0 after
    [--help]), [parse_options] ends that way and touches no file.  When
    [parse_args] has returned, [parse_options] ends in one of three ways:
    it returns, it exits with 0, which then happens exactly when
    [--compare] names a file that cannot be opened, or it exits with 1;
    the compare file is removed as soon as it has been read, also when
    the exit with 1 follows, and no other file changes. *)
Theorem parse_options_outcome :
  ∀ (parse_args : outcome arguments) (files : gmap string string),
    let result := parse_options parse_args files in
    match parse_args with
    | Ok args =>
        let compare := fmt (arg_compare args) in
        result.1
        = (if truthy (arg_compare args)
              && bool_decide (is_Some (files !! compare))
           then delete compare files else files)
        ∧ (∀ e, result.2 ≠ Raise e)
        ∧ (∀ code, result.2 = Exit code -> code = 0 ∨ code = 1)
        ∧ (result.2 = Exit 0
           <-> truthy (arg_compare args) = true ∧ files !! compare = None)
    | Exit code => result = (files, Exit code)
    | Raise e => result = (files, Raise e)
    end.
Proof.
  intros [args|code|e] files result; [|done..].
  intros compare. subst result. unfold parse_options.
  pose proof (parse_compare_cases args files) as Hcases.
  cbv zeta in Hcases. subst compare.
  destruct Hcases
    as [(Hc & Hfile & ->)|[(Hc & content & Hfile & ->)
        |[(Hc & _ & ->)|(Hc & _ & _ & ->)]]];
    rewrite Hc; cbn [fst snd andb].
  - rewrite Hfile, bool_decide_eq_false_2 by (by intros [? ?]).
    split_and!; [done|by intros ? [=]|intros ? [= <-]; by left|by split].
  - rewrite Hfile, bool_decide_eq_true_2 by done.
    destruct (parse_post_cases args (delete (fmt (arg_compare args)) files))
      as (Hraise & Hexit & _).
    destruct (parse_post args (delete (fmt (arg_compare args)) files)) as [token|code|e].
    + split_and!; [done|by intros ? [=]|by intros ? [=]|].
      split; [done|]. by intros [_ ?].
    + pose proof (Hexit code eq_refl) as ->.
      split_and!; [done|by intros ? [=]|intros ? [= <-]; by right|].
      split; [done|]. by intros [_ ?].
    + by destruct (Hraise e).
  - split_and!; [done|by intros ? [=]|intros ? [= <-]; by right|].
    split; [done|]. by intros [? _].
  - destruct (parse_post_cases args files) as (Hraise & Hexit & _).
    destruct (parse_post args files) as [token|code|e].
    + split_and!; [done|by intros ? [=]|by intros ? [=]|].
      split; [done|]. by intros [? _].
    + pose proof (Hexit code eq_refl) as ->.
      split_and!; [done|by intros ? [=]|intros ? [= <-]; by right|].
      split; [done|]. by intros [? _].
    + by destruct (Hraise e).
Qed.

Lemma rstrip_tail (c : ascii) (s : string) :
  PyStr.rstrip (String c s) = String c s -> PyStr.rstrip s = s.
Proof.
  cbn [PyStr.rstrip]. destruct (PyStr.rstrip s) as [|c' r].
  - destruct (PyStr.isspace c); [done|]. by intros [= <-].
  - by intros [= <-].
Qed.

Lemma rstrip_lstrip (s : string) :
  PyStr.rstrip s = s -> PyStr.rstrip (lstrip s) = lstrip s.
Proof.
  induction s as [|c s IH]; [done|]. intros H. cbn [lstrip].
  destruct (PyStr.isspace c); [|done]. apply IH. by eapply rstrip_tail.
Qed.

Lemma lstrip_idempotent (s : string) : lstrip (lstrip s) = lstrip s.
Proof.
  induction s as [|c s IH]; [done|]. cbn [lstrip].
  destruct (PyStr.isspace c) eqn:Hc; [done|]. cbn [lstrip]. by rewrite Hc.
Qed.

Lemma strip_idempotent (s : string) : strip (strip s) = strip s.
Proof.
  unfold strip. rewrite rstrip_lstrip by apply rstrip_idempotent.
  apply lstrip_idempotent.
Qed.

(** X28.  What the options are worth when [parse_options] returns,
    which it does only after [parser.parse_args()] has returned.
    Without [--compare] the two paths are the ones of the command line
    and are not empty.  With [--compare] they are the first two lines
    of the file, whatever [--prev] and [--next] said, with no white
    space around them, and they can be empty.  With [--post] the server
    is not empty, and the token is not empty unless it was read from a
    file. *)
Theorem parse_options_returns :
  ∀ (parse_args : outcome arguments) (files files' : gmap string string)
    (opts : options),
    parse_options parse_args files = (files', Ok opts) ->
    ∃ args,
      parse_args = Ok args
      ∧ (truthy (arg_compare args) = false ->
         arg_prev args = Some (opt_prev opts)
         ∧ arg_next args = Some (opt_next opts)
         ∧ opt_prev opts ≠ EmptyString ∧ opt_next opts ≠ EmptyString)
      ∧ (truthy (arg_compare args) = true ->
         (∃ content,
            files !! fmt (arg_compare args) = Some content
            ∧ opt_prev opts = strip (readline content).1
            ∧ opt_next opts = strip (readline (readline content).2).1)
         ∧ strip (opt_prev opts) = opt_prev opts
         ∧ strip (opt_next opts) = opt_next opts)
      ∧ (opt_post opts = true ->
         truthy (opt_server opts) = true
         ∧ (truthy (opt_token opts) = true
            ∨ ∃ path content,
                arg_token args = Some (String "@" path)
                ∧ files' !! path = Some content
                ∧ opt_token opts = Some (strip content))).
Proof.
  intros [args|code|e] files files' opts; [|done..].
  intros Hrun. exists args. split; [done|]. revert Hrun.
  unfold parse_options.
  destruct (parse_compare_cases args files)
    as [(Hc & Hfile & ->)|[(Hc & content & Hfile & ->)
        |[(Hc & _ & ->)|(Hc & Hprev & Hnext & ->)]]]; [done| | |].
  - destruct (parse_post_cases args (delete (fmt (arg_compare args)) files))
      as (_ & _ & Hok).
    destruct (parse_post args _) as [token|code|e]; [|done|done].
    intros [= <- <-]. cbn [opt_prev opt_next opt_post opt_server opt_token fmt].
    split_and!.
    + by rewrite Hc.
    + intros _. split_and!; [by exists content|apply strip_idempotent..].
    + intros Hpost. destruct (Hok token eq_refl Hpost)
        as [Hserver [[-> Htoken]|(path & text & Htok & Hpath & ->)]].
      * split; [done|]. by left.
      * split; [done|]. right. by exists path, text.
  - done.
  - destruct (parse_post_cases args files) as (_ & _ & Hok).
    destruct (parse_post args files) as [token|code|e]; [|done|done].
    intros [= <- <-]. cbn [opt_prev opt_next opt_post opt_server opt_token].
    split_and!.
    + intros _. destruct (arg_prev args) as [prev|]; [|done].
      destruct (arg_next args) as [next|]; [|done]. cbn [fmt].
      split_and!; [done|done|..].
      * intros ->. done.
      * intros ->. done.
    + by rewrite Hc.
    + intros Hpost. destruct (Hok token eq_refl Hpost)
        as [Hserver [[-> Htoken]|(path & text & Htok & Hpath & ->)]].
      * split; [done|]. by left.
      * split; [done|]. right. by exists path, text.
Qed.

Lemma parse_options_returns_witness :
  let args := Arguments (Some "compare.txt") (Some "ignored") None true
                (Some "example.social") (Some "@token.txt") false false in
  let files : gmap string string :=
    {[ "compare.txt" := " pages/a.json " +:+ nl +:+ "pages/b.json" +:+ nl;
       "token.txt" := "secret" +:+ nl ]} in
  let result := parse_options (Ok args) files in
  ∃ opts, result.2 = Ok opts
          ∧ opt_prev opts = "pages/a.json"
          ∧ opt_next opts = "pages/b.json"
          ∧ truthy (opt_server opts) = true.
Proof.
  intros args files result.
  destruct result.2 as [opts|code|e] eqn:Hresult; [|by vm_compute in Hresult..].
  exists opts. split; [done|].
  destruct (parse_options_returns (Ok args) files result.1 opts)
    as (args' & [= <-] & _ & Hcompare & Hpost).
  { rewrite <-Hresult. apply surjective_pairing. }
  destruct (Hcompare eq_refl) as ((content & Hfile & -> & ->) & _).
  assert (Hopts : opt_post opts = true).
  { vm_compute in Hresult. by injection Hresult as <-. }
  destruct (Hpost Hopts) as [Hserver _].
  vm_compute in Hfile. injection Hfile as <-.
  split_and!; [by vm_compute|by vm_compute|done].
Defined.
